(** * WinCleanCli: the scan / clean core, embedded and verified

    The development follows the TypeScript sources:
    - [src/utils/paths.ts]     the system-path denylist, [expandPath] and
                               [isSafePath];
    - [src/utils/config.ts]    the error taxonomy ([classifyError]), the
                               configuration and the cleaning profiles;
    - [src/utils/fs.ts]        size aggregation, item enumeration, removal
                               and the emptying of a directory;
    - [src/scanners/*.ts]      the probes that build a [ScanResult] and
                               their [clean];
    - [src/commands/clean.ts]  the scanner options and the choice of what
                               is offered for cleaning.
    The scanner harness ([src/scanners/index.ts]), the duplicate detector
    ([src/scanners/duplicates.ts]) and [BaseScanner.createResult] are
    modelled from the specification; each such definition says so.

    Conventions.  A JavaScript [number] is an exact rational ([Q]); byte
    sizes, counters and millisecond timestamps are integral and far below
    2^53, where double arithmetic is exact.  Strings are byte strings and
    [toLowerCase] acts on the ASCII letters.  Node's [path] module, the
    process environment and the file system are the environment of the
    program: they enter as operations of a class, never as definitions. *)

From Stdlib Require Import ZArith QArith String Ascii List Bool Lia DecimalString.
From stdpp Require Import base list gmap strings.
Import ListNotations.
Local Open Scope string_scope.

(* ================================================================== *)
(** * Part I: the program                                              *)
(* ================================================================== *)

(** ** JavaScript values shared by all modules *)

Module Js.

(** A value that travels through [throw]: an [Error] instance (Node's
    [ErrnoException] carries an optional [code]) or anything else, of
    which only [String(v)] is ever looked at. *)
Inductive Thrown : Type :=
| JsError (code : option string) (message : string)
| NonError (text : string).

(** The completion of a call: a value or an exception. *)
Inductive Outcome (A : Type) : Type :=
| Ok (a : A)
| Threw (e : Thrown).
Arguments Ok {A} a.
Arguments Threw {A} e.

Definition lower_ascii (c : ascii) : ascii :=
  let n := nat_of_ascii c in
  if (65 <=? n)%nat && (n <=? 90)%nat then ascii_of_nat (n + 32) else c.

(** [String.prototype.toLowerCase] *)
Fixpoint toLowerCase (s : string) : string :=
  match s with
  | EmptyString => EmptyString
  | String c rest => String (lower_ascii c) (toLowerCase rest)
  end.

(** [s.startsWith(p)] *)
Definition startsWith (s p : string) : bool := String.prefix p s.

(** The replacement template of [String.prototype.replace] when the
    pattern is a string (no capture groups): [$$], [$&], [$`] and [$']
    are special, every other character stands for itself. *)
Fixpoint getSubstitution (matched before after template : string) : string :=
  match template with
  | EmptyString => EmptyString
  | String c tl =>
      if Ascii.eqb c "$" then
        match tl with
        | String d rest =>
            if Ascii.eqb d "$" then String "$" (getSubstitution matched before after rest)
            else if Ascii.eqb d "&" then matched ++ getSubstitution matched before after rest
            else if Ascii.eqb d "`" then before ++ getSubstitution matched before after rest
            else if Ascii.eqb d "'" then after ++ getSubstitution matched before after rest
            else String c (getSubstitution matched before after tl)
        | EmptyString => String c EmptyString
        end
      else String c (getSubstitution matched before after tl)
  end.

(** [s.replace(pattern, replacement)] with a string pattern: only the
    first occurrence is replaced. *)
Definition replace (s pattern replacement : string) : string :=
  match String.index 0 pattern s with
  | None => s
  | Some i =>
      let before := String.substring 0 i s in
      let after := String.substring (i + String.length pattern)
                     (String.length s - (i + String.length pattern)) s in
      before ++ getSubstitution pattern before after replacement ++ after
  end.

(** White space in the sense of [trim] and of the regular expression
    class [\s], on bytes. *)
Definition is_space (c : ascii) : bool :=
  let n := nat_of_ascii c in
  (n =? 32)%nat || ((9 <=? n)%nat && (n <=? 13)%nat).

Definition is_digit (c : ascii) : bool :=
  let n := nat_of_ascii c in
  (48 <=? n)%nat && (n <=? 57)%nat.

Fixpoint takeWhile (f : ascii -> bool) (s : string) : string :=
  match s with
  | String c rest => if f c then String c (takeWhile f rest) else EmptyString
  | EmptyString => EmptyString
  end.

Fixpoint dropWhile (f : ascii -> bool) (s : string) : string :=
  match s with
  | String c rest => if f c then dropWhile f rest else s
  | EmptyString => EmptyString
  end.

Fixpoint rev_onto (s acc : string) : string :=
  match s with
  | EmptyString => acc
  | String c rest => rev_onto rest (String c acc)
  end.

(** [s.trim()] *)
Definition trim (s : string) : string :=
  rev_onto (dropWhile is_space (rev_onto (dropWhile is_space s) "")) "".

Fixpoint split_from (sep : ascii) (s field : string) : list string :=
  match s with
  | EmptyString => [rev_onto field ""]
  | String c rest =>
      if Ascii.eqb c sep then rev_onto field "" :: split_from sep rest ""
      else split_from sep rest (String c field)
  end.

(** [s.split(sep)] for a one-character separator. *)
Definition split (sep : ascii) (s : string) : list string := split_from sep s "".

Definition tab : ascii := ascii_of_nat 9.
Definition newline : ascii := ascii_of_nat 10.

Fixpoint digits_value (s : string) (acc : Z) : Z :=
  match s with
  | EmptyString => acc
  | String c rest => digits_value rest (10 * acc + Z.of_nat (nat_of_ascii c - 48))
  end.

(** [parseFloat] on a string of digits and dots: the longest prefix
    [digits], [digits.digits], [digits.] or [.digits]; [None] is [NaN].
    The value is the decimal read exactly; it is the number that
    JavaScript computes where that decimal is a double, as every whole
    number up to 2^53 is. *)
Definition parseFloat (s : string) : option Q :=
  let whole := takeWhile is_digit s in
  let fraction :=
    match dropWhile is_digit s with
    | String c rest => if Ascii.eqb c "." then takeWhile is_digit rest else EmptyString
    | EmptyString => EmptyString
    end in
  match whole, fraction with
  | EmptyString, EmptyString => None
  | _, _ =>
      Some (inject_Z (digits_value whole 0)
            + inject_Z (digits_value fraction 0)
              / inject_Z (10 ^ Z.of_nat (String.length fraction)))%Q
  end.

(** A number in a condition: [undefined] and [0] are falsy. *)
Definition truthy (x : option Q) : bool :=
  match x with
  | Some q => negb (Qeq_bool q 0)
  | None => false
  end.

(** [a < b] on numbers *)
Definition less (a b : Q) : bool := negb (Qle_bool b a).

End Js.

Export Js.

(** ** Data model ([src/types.ts], as the sources build and read it) *)

Record CleanableItem : Type := mkItem {
  path : string;
  size : Q;
  name : string;
  isDirectory : bool;
  modifiedAt : option Z;      (* a [Date], in milliseconds since the epoch *)
}.

(** Node's [path] module and [os.homedir()]. *)
Class NodePath : Type := {
  normalize : string -> string;
  resolve : string -> string;
  join : string -> string -> string;
  HOME : string;
}.

(** ** [src/utils/paths.ts] *)

Module Paths.
Section WithPath.
Context `{NodePath}.

Definition systemPaths : list string :=
  [ "c:\windows";
    "c:\program files";
    "c:\program files (x86)";
    "c:\programdata";
    "c:\$recycle.bin";
    "c:\system volume information";
    "c:\recovery";
    "c:\boot" ].

Definition isSystemPath (targetPath : string) : bool :=
  let normalized := toLowerCase (normalize targetPath) in
  existsb (fun p => startsWith normalized p) systemPaths.

Definition unsafe_path_error (inputPath : string) : Thrown :=
  JsError None
    ("Unsafe path detected: " ++ inputPath ++ " resolves to protected system path").

(** The first two statements of [expandPath]: the tilde expansion. *)
Definition tildeExpand (inputPath : string) : string :=
  if startsWith inputPath "~" then Js.replace inputPath "~" HOME else inputPath.

Definition expandPath (inputPath : string) : Outcome string :=
  let expanded := tildeExpand inputPath in
  let normalized := normalize (resolve expanded) in
  if isSystemPath normalized then Threw (unsafe_path_error inputPath)
  else Ok normalized.

End WithPath.
End Paths.

(** ** [src/utils/config.ts]: error classification utilities *)

Module Errors.

Inductive ErrorCode : Type :=
| PERMISSION_DENIED
| FILE_NOT_FOUND
| FILE_LOCKED
| PATH_TOO_LONG
| DISK_FULL
| TIMEOUT
| UNKNOWN.

Record ScannerError : Type := mkScannerError {
  code : ErrorCode;
  message : string;
  errPath : option string;
  originalError : option Thrown;
}.

(** The [switch] over [nodeError.code]. *)
Definition classifyCode (c : option string) : option (ErrorCode * string) :=
  match c with
  | Some c =>
      if (String.eqb c "EACCES" || String.eqb c "EPERM")%bool
      then Some (PERMISSION_DENIED, "Access denied")
      else if String.eqb c "ENOENT"
      then Some (FILE_NOT_FOUND, "File or directory not found")
      else if (String.eqb c "EBUSY" || String.eqb c "ENOTEMPTY")%bool
      then Some (FILE_LOCKED, "File or directory is in use")
      else if String.eqb c "ENAMETOOLONG"
      then Some (PATH_TOO_LONG, "Path exceeds maximum length")
      else if String.eqb c "ENOSPC"
      then Some (DISK_FULL, "No space left on device")
      else if String.eqb c "ETIMEDOUT"
      then Some (TIMEOUT, "Operation timed out")
      else None
  | None => None
  end.

Definition classifyError (error : Thrown) (p : option string) : ScannerError :=
  match error with
  | JsError c msg =>
      match classifyCode c with
      | Some (k, text) => mkScannerError k text p (Some error)
      | None => mkScannerError UNKNOWN msg p (Some error)
      end
  | NonError text => mkScannerError UNKNOWN text p None
  end.

Definition isRecoverableError (error : ScannerError) : bool :=
  match code error with
  | FILE_LOCKED | TIMEOUT => true
  | _ => false
  end.

End Errors.

(** ** [src/utils/fs.ts]: the removal executor *)

(** The part of [fs/promises] that removal uses.  [fs_rm] is
    [rm(path, { recursive: true, force: true })]: it transforms the file
    system and either returns or throws (a recursive removal that throws
    may already have deleted part of the subtree). *)
Class NodeFs : Type := {
  World : Type;
  fs_rm : string -> World -> option Thrown * World;
}.

Module Fs.

(** What a run does to the outside, in order. *)
Inductive Event : Type :=
| ConsoleWarn (msg : string)
| RmCall (target : string) (thrown : option Thrown)
| ProgressCall (current total : nat) (item : CleanableItem).

(** The [onProgress] callback is the caller's code: it is invoked with
    [(current, total, item)] and returns or throws. *)
Definition Callback : Type := nat -> nat -> CleanableItem -> option Thrown.

Record RemoveCounts : Type := mkCounts {
  success : nat;
  failed : nat;
  freedSpace : Q;
}.

Section WithEnv.
Context `{NodePath} `{NodeFs}.

Record Run : Type := mkRun {
  world : World;
  events : list Event;
}.

(** Computations that read and write the run and may throw. *)
Definition M (A : Type) : Type := Run -> Outcome A * Run.

Definition ret {A} (a : A) : M A := fun r => (Ok a, r).

Definition bind {A B} (c : M A) (k : A -> M B) : M B :=
  fun r => match c r with
           | (Ok a, r') => k a r'
           | (Threw e, r') => (Threw e, r')
           end.

Definition try_catch {A} (body : M A) (handler : Thrown -> M A) : M A :=
  fun r => match body r with
           | (Ok a, r') => (Ok a, r')
           | (Threw e, r') => handler e r'
           end.

Definition emit (r : Run) (e : Event) : Run :=
  mkRun (world r) (events r ++ [e]).

Definition console_warn (msg : string) : M unit :=
  fun r => (Ok tt, emit r (ConsoleWarn msg)).

Definition rm (target : string) : M unit :=
  fun r =>
    let '(thrown, w) := fs_rm target (world r) in
    let r' := mkRun w (events r ++ [RmCall target thrown]) in
    match thrown with
    | None => (Ok tt, r')
    | Some e => (Threw e, r')
    end.

(** [onProgress?.(current, total, item)] *)
Definition notify (onProgress : option Callback) (current total : nat)
  (item : CleanableItem) : M unit :=
  match onProgress with
  | None => ret tt
  | Some cb =>
      fun r =>
        let r' := emit r (ProgressCall current total item) in
        match cb current total item with
        | None => (Ok tt, r')
        | Some e => (Threw e, r')
        end
  end.

Definition removeItem (target : string) (dryRun : bool) : M bool :=
  if Paths.isSystemPath target then
    bind (console_warn ("Skipping protected system path: " ++ target))
         (fun _ => ret false)
  else if dryRun then ret true
  else try_catch (bind (rm target) (fun _ => ret true)) (fun _ => ret false).

(** One turn of the [for] loop: the counters after [item]. *)
Definition count (acc : RemoveCounts) (item : CleanableItem) (removed : bool)
  : RemoveCounts :=
  if removed
  then mkCounts (S (success acc)) (failed acc) (freedSpace acc + size item)
  else mkCounts (success acc) (S (failed acc)) (freedSpace acc).

(** The loop from index [i] on; [rest] is [items.slice(i)] and [total]
    is [items.length]. *)
Fixpoint removeItems_from (rest : list CleanableItem) (i total : nat)
  (dryRun : bool) (onProgress : option Callback) (acc : RemoveCounts)
  : M RemoveCounts :=
  match rest with
  | [] => ret acc
  | item :: rest' =>
      bind (notify onProgress (i + 1) total item) (fun _ =>
      bind (removeItem (path item) dryRun) (fun removed =>
      removeItems_from rest' (S i) total dryRun onProgress (count acc item removed)))
  end.

Definition removeItems (items : list CleanableItem) (dryRun : bool)
  (onProgress : option Callback) : M RemoveCounts :=
  removeItems_from items 0 (List.length items) dryRun onProgress (mkCounts 0 0 0).

(** The [rm] calls among some events. *)
Definition rm_targets (evs : list Event) : list string :=
  flat_map (fun e => match e with RmCall t _ => [t] | _ => [] end) evs.

(** The exceptions that [rm] raised among some events. *)
Definition rm_failures (evs : list Event) : list Thrown :=
  flat_map (fun e => match e with RmCall _ (Some x) => [x] | _ => [] end) evs.

(** Items on, and off, the denylist. *)
Definition onDenylist (item : CleanableItem) : bool :=
  Paths.isSystemPath (path item).

Definition offDenylist (item : CleanableItem) : bool :=
  negb (Paths.isSystemPath (path item)).

(** A caller whose progress callback, when there is one, returns. *)
Definition quiet (onProgress : option Callback) : Prop :=
  match onProgress with
  | None => True
  | Some cb => forall current total item, cb current total item = None
  end.

End WithEnv.

(** [items.reduce((sum, item) => sum + item.size, 0)] *)
Definition sum_sizes (items : list CleanableItem) : Q :=
  fold_left (fun sum item => (sum + size item)%Q) items 0%Q.

End Fs.

(** ** [src/utils/fs.ts]: the size aggregator *)

(** A snapshot of the part of the disk that a traversal visits.  A node
    records what [stat] answers for it ([None]: [stat] throws) and, for a
    directory, what listing it ([opendir], [readdir]) answers ([None]: the
    listing throws).  A [Leaf] is what a [Dirent] reports as a file
    ([KFile]) or as neither file nor directory ([KOther]: a link, a
    device). *)
Record Stats : Type := mkStats {
  st_size : N;
  st_mtime : Z;
}.

Inductive EntryKind : Type := KFile | KOther.

#[local] Set Warnings "-register-all".

Inductive Tree : Type :=
| Leaf (kind : EntryKind) (st : option Stats)
| Folder (st : option Stats) (listing : option (list (string * Tree))).

Definition stat_of (t : Tree) : option Stats :=
  match t with
  | Leaf _ st => st
  | Folder st _ => st
  end.

Definition is_folder (t : Tree) : bool :=
  match t with
  | Folder _ _ => true
  | Leaf _ _ => false
  end.

Module SizeAggregator.

(** Maximum concurrent I/O operations for directory scanning *)
Definition MAX_CONCURRENT_IO : nat := 20.

(** The closures that [getDirectorySize] pushes on [tasks]: one per file
    entry ([stat], answering the size or 0) and one per directory entry
    (a recursive call). Other entries push nothing. *)
Inductive Task : Type :=
| StatTask (st : option Stats)
| DirTask (dir : Tree).

Definition tasks_of (entries : list (string * Tree)) : list Task :=
  flat_map (fun e => match snd e with
                     | Leaf KFile st => [StatTask st]
                     | Leaf KOther _ => []
                     | Folder _ _ => [DirTask (snd e)]
                     end) entries.

(** [sizes.reduce((sum, size) => sum + size, 0)] *)
Definition sum (sizes : list N) : N := fold_left N.add sizes 0%N.

(** *** The value computed *)

(** The number that [getDirectorySize] returns: every task is awaited,
    so the result is the sum of what the tasks resolve to (the size of a
    file entry, 0 when its [stat] throws; the size of a sub-directory). *)
Fixpoint getDirectorySize (dir : Tree) : N :=
  match dir with
  | Folder _ (Some entries) =>
      sum (map (fun entry : string * Tree =>
                  match snd entry with
                  | Leaf KFile (Some st) => st_size st
                  | Leaf _ _ => 0%N
                  | Folder _ _ => getDirectorySize (snd entry)
                  end) entries)
  | _ => 0%N
  end.

Definition task_value (task : Task) : N :=
  match task with
  | StatTask (Some st) => st_size st
  | StatTask None => 0%N
  | DirTask dir => getDirectorySize dir
  end.

(** *** The schedule: promises in flight

    A pending promise of the traversal.  [Stat] is a file task waiting
    for [stat]; [Opening] is a call of [getDirectorySize] waiting for
    [opendir] and the directory entries; [Pool] is such a call inside
    [runWithConcurrencyLimit], with the tasks not yet started, the set
    [executing] and the array [results]. *)
Inductive Proc : Type :=
| Stat (answer : N)
| Opening (dir : Tree)
| Pool (queue : list Task) (executing : list Proc) (results : list N).

(** [task()]: runs the closure up to its first [await]. *)
Definition start (task : Task) : Proc :=
  match task with
  | StatTask (Some st) => Stat (st_size st)
  | StatTask None => Stat 0
  | DirTask dir => Opening dir
  end.

(** The [for] loop of [runWithConcurrencyLimit], from the task it is
    about to start: start it, add it to [executing], and suspend in
    [Promise.race] when [executing.size >= concurrency]. *)
Fixpoint launch (concurrency : nat) (queue : list Task) (executing : list Proc)
  : list Task * list Proc :=
  match queue with
  | [] => ([], executing)
  | task :: rest =>
      let executing' := (executing ++ [start task])%list in
      if (concurrency <=? length executing')%nat then (rest, executing')
      else launch concurrency rest executing'
  end.

(** After the loop, [Promise.all(executing)]: the call returns once
    nothing is left. *)
Definition settle (queue : list Task) (executing : list Proc) (results : list N)
  : N + Proc :=
  match queue, executing with
  | [], [] => inl (sum results)
  | _, _ => inr (Pool queue executing results)
  end.

(** The file-system operations in flight below a promise. *)
Fixpoint inflight (p : Proc) : nat :=
  match p with
  | Stat _ => 1
  | Opening _ => 1
  | Pool _ executing _ => list_sum (map inflight executing)
  end.

Section Pick.
Variable advance : nat -> Proc -> N + Proc.

(** The started task that holds the [k]-th operation in flight, the
    tasks before and after it in [executing], and what becomes of it when
    that operation completes. *)
Fixpoint pick (k : nat) (before after : list Proc)
  : option (list Proc * (N + Proc) * list Proc) :=
  match after with
  | [] => None
  | job :: after' =>
      if (k <? inflight job)%nat then Some (before, advance k job, after')
      else pick (k - inflight job)%nat (before ++ [job])%list after'
  end.

End Pick.

Section WithConcurrency.
Variable concurrency : nat.

(** The [k]-th operation in flight (from the left) completes, and the
    program runs until every promise waits for the file system again.
    [inl n]: the promise is resolved with [n].  A task that resolves is
    removed from [executing], its result is pushed, and the loop of its
    pool goes on. *)
Fixpoint step (k : nat) (p : Proc) : N + Proc :=
  match p with
  | Stat answer => inl answer
  | Opening (Folder _ (Some entries)) =>
      let '(queue, executing) := launch concurrency (tasks_of entries) [] in
      settle queue executing []
  | Opening _ => inl 0%N
  | Pool queue executing results =>
      match pick step k [] executing with
      | None => inr p
      | Some (before, inl result, after) =>
          let '(queue', executing') :=
            launch concurrency queue (before ++ after)%list in
          settle queue' executing' (results ++ [result])%list
      | Some (before, inr job, after) =>
          inr (Pool queue (before ++ job :: after)%list results)
      end
  end.

(** A run under a schedule: which of the operations in flight completes
    next (taken modulo their number), step after step.  The trail lists
    the promise after every step. *)
Fixpoint trail (schedule : list nat) (p : Proc) : list Proc :=
  match schedule with
  | [] => []
  | k :: schedule' =>
      match step (k mod inflight p) p with
      | inl _ => []
      | inr p' => p' :: trail schedule' p'
      end
  end.

Fixpoint run (schedule : list nat) (p : Proc) : N + Proc :=
  match schedule with
  | [] => inr p
  | k :: schedule' =>
      match step (k mod inflight p) p with
      | inl n => inl n
      | inr p' => run schedule' p'
      end
  end.

(** Every pool holds at most [concurrency] started tasks (one, when
    [concurrency] is 0: the loop starts a task before it looks at the
    size of [executing]). *)
Fixpoint capped (p : Proc) : Prop :=
  match p with
  | Stat _ => True
  | Opening _ => True
  | Pool _ executing _ =>
      length executing <= Nat.max concurrency 1
      /\ fold_right (fun q rest => capped q /\ rest) True executing
  end.

End WithConcurrency.

(** The number a pending promise is going to resolve to. *)
Fixpoint value (p : Proc) : N :=
  match p with
  | Stat answer => answer
  | Opening dir => getDirectorySize dir
  | Pool queue executing results =>
      (sum results + sum (map task_value queue) + sum (map value executing))%N
  end.

(** The file-system operations that a traversal of [dir] performs: one
    listing per directory reached and one [stat] per file entry. *)
Fixpoint work (dir : Tree) : nat :=
  match dir with
  | Folder _ (Some entries) =>
      S (list_sum (map (fun entry : string * Tree =>
                          match snd entry with
                          | Leaf KFile _ => 1
                          | Leaf KOther _ => 0
                          | Folder _ _ => work (snd entry)
                          end) entries))
  | _ => 1
  end.

Definition task_work (task : Task) : nat :=
  match task with
  | StatTask _ => 1
  | DirTask dir => work dir
  end.

(** The operations still to complete below a pending promise. *)
Fixpoint remaining (p : Proc) : nat :=
  match p with
  | Stat _ => 1
  | Opening dir => work dir
  | Pool queue executing _ =>
      list_sum (map task_work queue) + list_sum (map remaining executing)
  end.

(** A pending promise waits for the file system: every pool has a task
    in [executing]. *)
Fixpoint alive (p : Proc) : Prop :=
  match p with
  | Stat _ => True
  | Opening _ => True
  | Pool _ executing _ =>
      executing <> [] /\ fold_right (fun q rest => alive q /\ rest) True executing
  end.

Definition is_stat_task (task : Task) : Prop :=
  match task with
  | StatTask _ => True
  | DirTask _ => False
  end.

Definition is_stat (p : Proc) : Prop :=
  match p with
  | Stat _ => True
  | _ => False
  end.

(** A call on a directory that has no sub-directory: its tasks are all
    [stat] calls. *)
Definition shallow (p : Proc) : Prop :=
  match p with
  | Stat _ => True
  | Opening (Folder _ (Some entries)) =>
      Forall (fun entry => is_folder (snd entry) = false) entries
  | Opening _ => True
  | Pool queue executing _ => Forall is_stat_task queue /\ Forall is_stat executing
  end.

(** The largest number of operations in flight along a run of
    [getDirectorySize(dir)]. *)
Definition peak (schedule : list nat) (dir : Tree) : nat :=
  fold_right Nat.max 1
    (map inflight (trail MAX_CONCURRENT_IO schedule (Opening dir))).

(** [n] files of one byte each. *)
Definition files (n : nat) : list (string * Tree) :=
  repeat ("f", Leaf KFile (Some (mkStats 1 0))) n.

Definition folder (entries : list (string * Tree)) : Tree :=
  Folder (Some (mkStats 0 0)) (Some entries).

(** A directory with two sub-directories of eleven files each. *)
Definition two_by_eleven : Tree :=
  folder [("a", folder (files 11)); ("b", folder (files 11))].

End SizeAggregator.

(** ** [src/utils/fs.ts]: the item enumerator *)

Module Enumerator.

Record Options : Type := mkOptions {
  recursive : option bool;
  minAge : option Q;
  minSize : option Q;
  maxDepth : option Q;
}.

(** [options = {}] *)
Definition no_options : Options := mkOptions None None None None.

Definition msPerDay : Z := 1000 * 60 * 60 * 24.

(** [(Date.now() - stats.mtime.getTime()) / (1000 * 60 * 60 * 24)] *)
Definition daysOld (now mtime : Z) : Q :=
  inject_Z (now - mtime) / inject_Z msPerDay.

Section WithOptions.
Context `{NodePath}.
Variable now : Z.                 (* the clock, frozen for one call *)
Variable recursive_ : bool.
Variables minAge_ minSize_ : option Q.
Variable maxDepth_ : Q.

Definition too_new (stats : Stats) : bool :=
  match minAge_ with
  | Some m => truthy minAge_ && less (daysOld now (st_mtime stats)) m
  | None => false
  end.

Definition too_small (size : Q) : bool :=
  match minSize_ with
  | Some m => truthy minSize_ && less size m
  | None => false
  end.

(** [processDir(currentPath, depth)], where [node] is what the snapshot
    holds at [currentPath]; the result is [items] after the call.  The
    [for] loop over [entries] is a left fold that threads [items]. *)
Fixpoint processDir (currentPath : string) (node : Tree) (depth : Z)
  (items : list CleanableItem) : list CleanableItem :=
  if less maxDepth_ (inject_Z depth) then items
  else
    match node with
    | Folder _ (Some entries) =>
        fold_left
          (fun (items : list CleanableItem) (entry : string * Tree) =>
             let '(entryName, child) := entry in
             let fullPath := join currentPath entryName in
             match stat_of child with
             | None => items
             | Some stats =>
                 if too_new stats then items
                 else
                   let size :=
                     if is_folder child
                     then inject_Z (Z.of_N (SizeAggregator.getDirectorySize child))
                     else inject_Z (Z.of_N (st_size stats)) in
                   if too_small size then items
                   else
                     let pushed :=
                       (items ++ [mkItem fullPath size entryName (is_folder child)
                                    (Some (st_mtime stats))])%list in
                     if recursive_ && is_folder child
                     then processDir fullPath child (depth + 1) pushed
                     else pushed
             end)
          entries items
    | _ => items
    end.

End WithOptions.

Definition getItems `{NodePath} (now : Z) (root : Tree) (dirPath : string)
  (options : Options) : list CleanableItem :=
  processDir now
    (default false (recursive options))
    (minAge options) (minSize options)
    (default 10%Q (maxDepth options))
    dirPath root 0 [].

(** The path reached from [root] through the entries [names]. *)
Definition descend `{NodePath} (root : string) (names : list string) : string :=
  fold_left join names root.

(** [names] are entry names of the snapshot that lead from [node] down
    to [child]: [node] lists the first of them, the entry so named lists
    the second, and so on. *)
Fixpoint leads (names : list string) (node child : Tree) : Prop :=
  match names with
  | [] => node = child
  | entryName :: rest =>
      match node with
      | Folder _ (Some entries) =>
          exists next, In (entryName, next) entries /\ leads rest next child
      | _ => False
      end
  end.

(** The item that [processDir] pushes for the entry [entryName], which
    is [child] in the snapshot and for which [stat] answers [stats]. *)
Definition item_of (fullPath entryName : string) (child : Tree) (stats : Stats)
  : CleanableItem :=
  mkItem fullPath
    (if is_folder child
     then inject_Z (Z.of_N (SizeAggregator.getDirectorySize child))
     else inject_Z (Z.of_N (st_size stats)))
    entryName (is_folder child) (Some (st_mtime stats)).

(** [item] is the item of an entry of the snapshot [node], which is at
    [root] and at depth [base]: entry names [names] lead from [node] to
    the entry, so that the directory that lists it is [length names - 1]
    levels below [node], and that directory is not deeper than
    [maxDepth]. *)
Definition listed_within `{NodePath} (node : Tree) (root : string) (base : Z)
  (maxDepth : Q) (item : CleanableItem) : Prop :=
  exists names child stats,
    names <> []
    /\ leads names node child
    /\ stat_of child = Some stats
    /\ item = item_of (descend root names) (List.last names "") child stats
    /\ (inject_Z (base + Z.of_nat (length names) - 1) <= maxDepth)%Q.

(** The age of the item is at least [minAge] days. *)
Definition old_enough (now : Z) (minAge : option Q) (item : CleanableItem) : Prop :=
  match minAge with
  | Some m =>
      match modifiedAt item with
      | Some t => (m <= daysOld now t)%Q
      | None => False
      end
  | None => True
  end.

(** The size of the item is at least [minSize] bytes. *)
Definition large_enough (minSize : option Q) (item : CleanableItem) : Prop :=
  match minSize with
  | Some m => (m <= size item)%Q
  | None => True
  end.

(** The limits as the specification words them, for a call on the
    snapshot [node] at [dirPath]. *)
Definition meets_limits `{NodePath} (now : Z) (node : Tree) (dirPath : string)
  (options : Options) (item : CleanableItem) : Prop :=
  listed_within node dirPath 0 (default 10%Q (maxDepth options)) item
  /\ old_enough now (minAge options) item
  /\ large_enough (minSize options) item.

(** The limits as [processDir] applies them: the age filter runs under
    [if (minAge)], so a [minAge] of zero filters nothing. *)
Definition meets_applied_limits `{NodePath} (now : Z) (node : Tree) (root : string)
  (base : Z) (minAge minSize : option Q) (maxDepth : Q) (item : CleanableItem) : Prop :=
  listed_within node root base maxDepth item
  /\ (if truthy minAge then old_enough now minAge item else True)
  /\ large_enough minSize item.

(** A download folder holding one file stamped a day ahead of the clock. *)
Definition clock : Z := 1700000000000.

Definition future_file : Tree :=
  Leaf KFile (Some (mkStats 10 (clock + msPerDay))).

Definition downloads : Tree :=
  Folder (Some (mkStats 0 clock)) (Some [("future.bin", future_file)]).

(** A small tree: two files, one of them in a sub-directory. *)
Definition photos : Tree :=
  Folder (Some (mkStats 0 (clock - 40 * msPerDay)))
    (Some [ ("a.jpg", Leaf KFile (Some (mkStats 3000 (clock - 40 * msPerDay))));
            ("2019", Folder (Some (mkStats 0 (clock - 90 * msPerDay)))
                       (Some [("b.jpg", Leaf KFile (Some (mkStats 5000 (clock - 90 * msPerDay))))]));
            ("lost", Leaf KFile None) ]).

End Enumerator.

(** ** [src/scanners/*.ts]: the probes *)

Inductive SafetyLevel : Type := safe | moderate | risky.

Record Category : Type := mkCategory {
  id : string;
  categoryName : string;
  group : string;
  safetyLevel : SafetyLevel;
  safetyNote : option string;
}.

Record ScanResult : Type := mkScanResult {
  category : Category;
  items : list CleanableItem;
  totalSize : Q;
  error : option string;
}.

(** What a probe reads: the process environment, the snapshot of the
    disk by absolute path ([None]: nothing that [access] and [stat] can
    reach), the output of [docker system df] (or the exception of
    [execAsync]) and the table [CATEGORIES] of [src/types.ts]. *)
Class ProbeEnv : Type := {
  env : string -> option string;
  disk : string -> option Tree;
  docker_df : Outcome string;
  CATEGORIES : string -> Category;
}.

Module Scanners.
Section WithEnv.
Context `{NodePath} `{ProbeEnv}.

(** [process.env.X || fallback] *)
Definition env_or (var fallback : string) : string :=
  match env var with
  | Some v => if String.eqb v "" then fallback else v
  | None => fallback
  end.

(** The entries of [PATHS] that the probes below read. *)
Definition LOCALAPPDATA : string :=
  env_or "LOCALAPPDATA" (join (join HOME "AppData") "Local").

Definition WINDIR : string := env_or "WINDIR" "C:\Windows".

Definition PATHS_systemTemp : string := join WINDIR "Temp".
Definition PATHS_userTemp : string := env_or "TEMP" (join LOCALAPPDATA "Temp").
Definition PATHS_userLogs : string := join LOCALAPPDATA "CrashDumps".
Definition PATHS_systemLogs : string := join WINDIR "Logs".
Definition PATHS_windowsUpdate : string :=
  join (join WINDIR "SoftwareDistribution") "Download".

(** [exists] of [fs.ts] *)
Definition exists_ (p : string) : bool :=
  match disk p with
  | Some _ => true
  | None => false
  end.

(** [getSize] of [fs.ts] *)
Definition getSize (p : string) : Q :=
  match disk p with
  | Some (Leaf KFile (Some stats)) => inject_Z (Z.of_N (st_size stats))
  | Some (Folder (Some _) _ as dir) =>
      inject_Z (Z.of_N (SizeAggregator.getDirectorySize dir))
  | _ => 0
  end.

(** [stat] of [fs/promises]; [None]: it throws. *)
Definition stat (p : string) : option Stats :=
  match disk p with
  | Some node => stat_of node
  | None => None
  end.

(** Modelled from the spec: [BaseScanner.createResult] of
    [src/scanners/base-scanner.ts], which is not among the sources.  The
    data model has [ScanResult] carry the category, the items, their
    summed size as [totalSize] and an optional [error]. *)
Definition createResult (cat : Category) (found : list CleanableItem) : ScanResult :=
  mkScanResult cat found (Fs.sum_sizes found) None.

(** The block that the three directory probes repeat: if the directory
    exists and its size is positive, push one item for it. *)
Definition probe (p label : string) (found : list CleanableItem)
  : list CleanableItem :=
  if exists_ p then
    let size := getSize p in
    if less 0 size then
      match stat p with
      | Some stats => (found ++ [mkItem p size label true (Some (st_mtime stats))])%list
      | None => found
      end
    else found
  else found.

Definition TempFilesScanner_scan : ScanResult :=
  createResult (CATEGORIES "temp-files")
    (probe PATHS_systemTemp "Windows Temp" (probe PATHS_userTemp "User Temp" [])).

Definition SystemLogsScanner_scan : ScanResult :=
  createResult (CATEGORIES "system-logs")
    (probe PATHS_systemLogs "Windows Logs" (probe PATHS_userLogs "User Crash Dumps" [])).

Definition WindowsUpdateScanner_scan : ScanResult :=
  createResult (CATEGORIES "windows-update")
    (probe PATHS_windowsUpdate "Windows Update Download Cache" []).

(** *** [DockerScanner] *)

Definition is_digit_or_dot (c : ascii) : bool := is_digit c || Ascii.eqb c ".".

Definition same_letter (c d : ascii) : bool :=
  Ascii.eqb (lower_ascii c) (lower_ascii d).

(** The alternation [(B|kB|KB|MB|GB|TB)] under the flag [i], at the start
    of [s]: the text it matches. *)
Definition unit_at (s : string) : option string :=
  match s with
  | String c rest =>
      if same_letter c "b" then Some (String c "")
      else
        match rest with
        | String d _ =>
            if (same_letter c "k" || same_letter c "m" || same_letter c "g"
                || same_letter c "t") && same_letter d "b"
            then Some (String c (String d ""))
            else None
        | EmptyString => None
        end
  | EmptyString => None
  end.

(** [sizeStr.match(/([\d.]+)\s*(B|kB|KB|MB|GB|TB)/i)]: the two groups of
    the leftmost match. *)
Fixpoint size_match (s : string) : option (string * string) :=
  match s with
  | EmptyString => None
  | String c rest =>
      if is_digit_or_dot c then
        match unit_at (dropWhile is_space (dropWhile is_digit_or_dot s)) with
        | Some unit => Some (takeWhile is_digit_or_dot s, unit)
        | None => size_match rest
        end
      else size_match rest
  end.

Definition multipliers : list (string * Q) :=
  [ ("B", 1); ("b", 1);
    ("kB", 1000); ("KB", 1024); ("kb", 1000);
    ("MB", 1000 * 1000); ("mb", 1000 * 1000);
    ("GB", 1000 * 1000 * 1000); ("gb", 1000 * 1000 * 1000);
    ("TB", 1000 * 1000 * 1000 * 1000); ("tb", 1000 * 1000 * 1000 * 1000) ]%Q.

(** [multipliers[unit] || 1] *)
Definition multiplier (unit : string) : Q :=
  match List.find (fun entry => String.eqb (fst entry) unit) multipliers with
  | Some entry => snd entry
  | None => 1
  end.

(** [parseDockerSize]; [None] is [NaN]. *)
Definition parseDockerSize (sizeStr : string) : option Q :=
  match size_match sizeStr with
  | None => Some 0%Q
  | Some (digits, unit) =>
      match parseFloat digits with
      | Some value => Some (value * multiplier unit)%Q
      | None => None
      end
  end.

(** The [for] loop over the lines.  A line with fewer than three fields
    leaves [reclaimable] undefined, [sizeStr.match] throws, and the
    [catch] around the loop ends it with the items pushed so far. *)
Fixpoint docker_lines (lines : list string) (found : list CleanableItem)
  : list CleanableItem :=
  match lines with
  | [] => found
  | line :: lines' =>
      let fields := split tab line in
      let type := nth 0 fields "" in
      match nth_error fields 2 with
      | None => found
      | Some reclaimable =>
          docker_lines lines'
            (match parseDockerSize reclaimable with
             | Some reclaimableBytes =>
                 if less 0 reclaimableBytes
                 then (found ++ [mkItem ("docker:" ++ toLowerCase type) reclaimableBytes
                                   ("Docker " ++ type) false None])%list
                 else found
             | None => found
             end)
      end
  end.

Definition DockerScanner_scan : ScanResult :=
  createResult (CATEGORIES "docker")
    (match docker_df with
     | Ok stdout => docker_lines (split newline (trim stdout)) []
     | Threw _ => []
     end).

End WithEnv.
End Scanners.

(** ** The scanner harness *)

Module Harness.

(** The open options object of [scan]. *)
Record ScannerOptions : Type := mkScannerOptions {
  daysOld : option Q;
  minSize : option Q;
  searchPaths : option (list string);
  maxDepth : option Q;
}.

(** The scanner contract: a static category and [scan(options?)], which
    returns a [ScanResult] or throws. *)
Record Scanner : Type := mkScanner {
  scanner_category : Category;
  scan : option ScannerOptions -> Outcome ScanResult;
}.

Record ScanSummary : Type := mkSummary {
  results : list ScanResult;
  summary_totalSize : Q;
  summary_totalItems : nat;
}.

(** One call of [onProgress(completed, total, category)]. *)
Record ProgressCall : Type := mkProgress {
  completed : nat;
  total : nat;
  finished : Category;
}.

Definition error_text (e : Thrown) : string :=
  match e with
  | JsError _ msg => msg
  | NonError text => text
  end.

(** Modelled from the spec: the conversion of a failed scan by
    [runScans] ([src/scanners/index.ts] is not among the sources).  "Each
    scan's failure is caught and converted into an empty [ScanResult]
    carrying the category and an [error] string." *)
Definition failed_result (cat : Category) (e : Thrown) : ScanResult :=
  mkScanResult cat [] 0 (Some (error_text e)).

Section WithOptions.
Variable concurrency : nat.
Variable optionsForScanner : Scanner -> option ScannerOptions.

(** What the harness records for a scanner once its scan has completed. *)
Definition outcome_of (scanner : Scanner) : ScanResult :=
  match scan scanner (optionsForScanner scanner) with
  | Ok result => result
  | Threw e => failed_result (scanner_category scanner) e
  end.

(** Modelled from the spec: the bounded worker pool of [runScans].  The
    scans wait in request order with their index, at most [concurrency]
    are in flight, every result is stored at the index of its request,
    and [onProgress] is called after every completion. *)
Record Pool : Type := mkPool {
  queued : list (nat * Scanner);
  running : list (nat * Scanner);
  slots : list (option ScanResult);
  progress : list ProgressCall;
}.

(** Modelled from the spec: admission. "At most N scans in flight at
    once; when one completes, the next queued scan is admitted." *)
Fixpoint fill (waiting inFlight : list (nat * Scanner))
  : list (nat * Scanner) * list (nat * Scanner) :=
  match waiting with
  | [] => ([], inFlight)
  | next :: waiting' =>
      if (length inFlight <? concurrency)%nat
      then fill waiting' (inFlight ++ [next])%list
      else (waiting, inFlight)
  end.

(** Modelled from the spec: the [k]-th scan in flight completes.  Its
    outcome goes to the slot of its request, [onProgress] is called "with
    the running completed-count, total count, and the category just
    finished", and the freed capacity is filled from the queue. *)
Definition finish (k : nat) (pool : Pool) : Pool :=
  match running pool !! k with
  | None => pool
  | Some (i, scanner) =>
      let '(waiting, inFlight) := fill (queued pool) (delete k (running pool)) in
      mkPool waiting inFlight
        (<[i := Some (outcome_of scanner)]> (slots pool))
        (progress pool
           ++ [mkProgress (S (length (progress pool))) (length (slots pool))
                 (scanner_category scanner)])%list
  end.

(** A schedule of completions: at each step, which of the scans in
    flight finishes first (taken modulo their number; the oldest one once
    the schedule is used up).  One step per requested scan. *)
Fixpoint drain (steps : nat) (schedule : list nat) (pool : Pool) : Pool :=
  match steps with
  | O => pool
  | S steps' =>
      match running pool with
      | [] => pool
      | _ :: _ =>
          drain steps' (tail schedule)
            (finish (hd 0%nat schedule mod length (running pool)) pool)
      end
  end.

Definition opened (scanners : list Scanner) : Pool :=
  let '(waiting, inFlight) := fill (imap (fun i scanner => (i, scanner)) scanners) [] in
  mkPool waiting inFlight (replicate (length scanners) None) [].

Definition pending (pool : Pool) : list (nat * Scanner) :=
  (queued pool ++ running pool)%list.

(** The state of the pool while the scans run: every requested index is
    either pending, with an empty slot, or holds the outcome of its own
    scanner. *)
Definition consistent (scanners : list Scanner) (pool : Pool) : Prop :=
  length (slots pool) = length scanners
  /\ NoDup (pending pool).*1
  /\ (forall i scanner, (i, scanner) ∈ pending pool -> scanners !! i = Some scanner)
  /\ (forall i scanner, scanners !! i = Some scanner ->
        slots pool !! i
        = Some (if decide (i ∈ (pending pool).*1) then None
                else Some (outcome_of scanner)))
  /\ ((1 <= concurrency)%nat -> queued pool <> [] -> running pool <> [])
  /\ (length (running pool) <= concurrency)%nat.

Definition closed (scanners : list Scanner) (schedule : list nat) : Pool :=
  drain (length scanners) schedule (opened scanners).

Definition summarize (found : list ScanResult) : ScanSummary :=
  mkSummary found
    (fold_left (fun sum result => (sum + totalSize result)%Q) found 0%Q)
    (fold_left (fun sum result => (sum + length (items result))%nat) found 0%nat).

(** Modelled from the spec: [runScans(categoryIds, options)] of
    [src/scanners/index.ts], which is not among the sources.  One scanner
    is looked up per requested id, the scans run in the pool, and the
    results are assembled in the order of the request. *)
Definition runScans (registry : string -> Scanner) (categoryIds : list string)
  (schedule : list nat) : ScanSummary :=
  summarize (omap (fun slot => slot) (slots (closed (map registry categoryIds) schedule))).

(** The categories in the order in which their scans completed, as
    [onProgress] saw them. *)
Definition completion_order (registry : string -> Scanner)
  (categoryIds : list string) (schedule : list nat) : list string :=
  map (fun call => id (finished call))
    (progress (closed (map registry categoryIds) schedule)).

End WithOptions.

(** Three probes for the examples: [a] finds two items, [b] throws, [c]
    finds nothing. *)
Definition demo_category (name : string) : Category :=
  mkCategory name name "Demo" safe None.

Definition demo_registry (name : string) : Scanner :=
  mkScanner (demo_category name)
    (fun _ =>
       if String.eqb name "a"
       then Ok (mkScanResult (demo_category name)
                  [ mkItem "D:\a\1" 100 "1" false None;
                    mkItem "D:\a\2" 200 "2" false None ] (0 + 100 + 200) None)
       else if String.eqb name "b"
       then Threw (JsError (Some "EACCES") "EACCES: permission denied, scandir")
       else Ok (mkScanResult (demo_category name) [] 0 None)).

End Harness.

(** ** The duplicate detector *)

Module Duplicates.

Record DuplicateGroup : Type := mkGroup {
  members : list CleanableItem;
  keptItem : CleanableItem;
  reclaimable : list CleanableItem;
}.

Record Detection : Type := mkDetection {
  groups : list DuplicateGroup;
  partial : bool;
}.

(** [a] is more recent than [b].  An item without [modifiedAt] is older
    than every dated one. *)
Definition newer (a b : option Z) : bool :=
  match a, b with
  | Some x, Some y => (y <? x)%Z
  | Some _, None => true
  | None, _ => false
  end.

(** Modelled from the spec: the retention order of the duplicate
    detector ([src/scanners/duplicates.ts] is not among the sources, only
    its test is).  "Within a group, the item with the most recent
    [modifiedAt] is [keptItem]. Equal timestamps break ties by
    lexicographic path order": [a] is kept rather than [b]. *)
Definition prefer (a b : CleanableItem) : bool :=
  newer (modifiedAt a) (modifiedAt b)
  || (negb (newer (modifiedAt b) (modifiedAt a)) && String.ltb (path a) (path b)).

(** Modelled from the spec: one pass over a group, keeping the preferred
    item and collecting "all others" as reclaimable. *)
Fixpoint select (kept : CleanableItem) (others : list CleanableItem)
  : CleanableItem * list CleanableItem :=
  match others with
  | [] => (kept, [])
  | next :: others' =>
      if prefer next kept
      then let '(best, rest) := select next others' in (best, kept :: rest)
      else let '(best, rest) := select kept others' in (best, next :: rest)
  end.

(** Modelled from the spec: "a sub-group with at least 2 files is a
    confirmed [DuplicateGroup]". *)
Definition retain (files : list CleanableItem) : option DuplicateGroup :=
  match files with
  | first :: (_ :: _) as others =>
      let '(best, rest) := select first others in
      Some (mkGroup files best rest)
  | _ => None
  end.

Section Buckets.
Context {A K : Type}.
Variable same : K -> K -> bool.
Variable key : A -> K.

Fixpoint add_to (k : K) (x : A) (buckets : list (K * list A)) : list (K * list A) :=
  match buckets with
  | [] => [(k, [x])]
  | (k', xs) :: rest =>
      if same k k' then (k', (xs ++ [x])%list) :: rest
      else (k', xs) :: add_to k x rest
  end.

(** Buckets by key, in the order in which the keys are met. *)
Definition bucket_by (l : list A) : list (K * list A) :=
  fold_left (fun buckets x => add_to (key x) x buckets) l [].

End Buckets.

(** Modelled from the spec: [findDuplicates] over the enumerated entries
    ([hashOf] is the streaming content hash of a path, [None] when the
    file has vanished or cannot be read).  Phase 1 keeps the files of at
    least [minSizeBytes], at most [maxFiles] of them, and buckets them by
    exact size, dropping the buckets of one; phase 2 groups each bucket
    by content hash; the groups of two or more are retained. *)
Definition findDuplicates (hashOf : string -> option string) (minSizeBytes : Q)
  (maxFiles : nat) (enumerated : list CleanableItem) : Detection :=
  let candidates :=
    List.filter (fun f => negb (isDirectory f) && Qle_bool minSizeBytes (size f))
      enumerated in
  let considered := take maxFiles candidates in
  let bySize :=
    List.filter (fun bucket => (2 <=? length (snd bucket))%nat)
      (bucket_by Qeq_bool size considered) in
  let byHash :=
    flat_map
      (fun bucket =>
         map (fun sub => map snd (snd sub))
           (bucket_by String.eqb fst
              (omap (fun f => option_map (fun h => (h, f)) (hashOf (path f)))
                 (snd bucket))))
      bySize in
  mkDetection (omap retain byHash) (maxFiles <? length candidates)%nat.

(** [other] is not more recent than [kept] and, when both are equally
    recent, the path of [kept] comes first. *)
Definition stamp_le (a b : option Z) : Prop :=
  match a, b with
  | Some x, Some y => (x <= y)%Z
  | None, _ => True
  | Some _, None => False
  end.

Definition kept_over (kept other : CleanableItem) : Prop :=
  stamp_le (modifiedAt other) (modifiedAt kept)
  /\ (modifiedAt other = modifiedAt kept -> String.leb (path kept) (path other) = true).

(** The retention decision as the specification words it: a group has
    two members at least, [keptItem] is one of them, none of them is
    preferred to it, and [reclaimable] holds the others. *)
Definition retention_ok (g : DuplicateGroup) : Prop :=
  2 <= length (members g)
  /\ keptItem g ∈ members g
  /\ (keptItem g :: reclaimable g) ≡ₚ members g
  /\ Forall (kept_over (keptItem g)) (members g).

(** [f] is a file of at least [minSizeBytes], of the size of [original]
    and with the content hash [h]. *)
Definition copy_of (hashOf : string -> option string) (minSizeBytes : Q)
  (original : CleanableItem) (h : string) (f : CleanableItem) : Prop :=
  isDirectory f = false
  /\ Qle_bool minSizeBytes (size f) = true
  /\ Qeq_bool (size f) (size original) = true
  /\ hashOf (path f) = Some h.

(** Three copies of one report, modified at T1 < T2 < T3, and a file of
    the same size with another content. *)
Definition copy1 : CleanableItem :=
  mkItem "D:\docs\report.pdf" 2048 "report.pdf" false (Some 1000%Z).
Definition copy2 : CleanableItem :=
  mkItem "D:\docs\report (1).pdf" 2048 "report (1).pdf" false (Some 2000%Z).
Definition copy3 : CleanableItem :=
  mkItem "D:\backup\report.pdf" 2048 "report.pdf" false (Some 3000%Z).
Definition other2048 : CleanableItem :=
  mkItem "D:\docs\notes.txt" 2048 "notes.txt" false (Some 4000%Z).

Definition demo_hash (p : string) : option string :=
  if String.eqb p "D:\docs\notes.txt" then Some "9f86d081" else Some "2c26b46b".

End Duplicates.

(** ** Concrete environments, for running the definitions *)

(** Paths that are already absolute and normalised: Node's [normalize]
    and [resolve] return them unchanged, and [join] adds a separator. *)
Definition literal_paths : NodePath :=
  {| normalize := fun p => p;
     resolve := fun p => p;
     join := fun dir entry => dir ++ "\" ++ entry;
     HOME := "C:\Users\me" |}.

(** A file system that answers the successive [rm] calls from a script:
    [None] lets the call succeed, [Some e] makes it throw [e]. *)
Definition scripted_fs : NodeFs :=
  {| World := list (option Thrown);
     fs_rm := fun _ script =>
       match script with
       | [] => (None, [])
       | answer :: script' => (answer, script')
       end |}.

(** Two items to run the executor on: one inside the Windows
    directory, one in a user's download folder. *)
Definition system32_item : CleanableItem :=
  mkItem "C:\Windows\System32\x" 4096 "x" false None.

Definition report_item : CleanableItem :=
  mkItem "D:\Downloads\report.pdf" 2048 "report.pdf" false (Some 1700000000000%Z).

Definition eacces : Thrown := JsError (Some "EACCES") "EACCES: permission denied, rm".

Definition ebusy : Thrown := JsError (Some "EBUSY") "EBUSY: resource busy or locked, rm".

(** A reading of the result that would list the class of every failed
    removal: [errors_of] recovers, from what [removeItems] returns, the
    taxonomy codes of the exceptions its [rm] calls raised. *)
Definition reports_failure_classes
  (errors_of : Fs.RemoveCounts -> list Errors.ErrorCode)
  (script : list (option Thrown)) (items : list CleanableItem) : Prop :=
  let run := @Fs.removeItems literal_paths scripted_fs items false None
               (@Fs.mkRun scripted_fs script []) in
  match fst run with
  | Ok res =>
      errors_of res
      = map (fun e => Errors.code (Errors.classifyError e None))
          (Fs.rm_failures (@Fs.events scripted_fs (snd run)))
  | Threw _ => False
  end.

(** A machine for the probes: no environment variable set, a Windows
    temp directory with two files, Docker installed. *)
Definition docker_df_output : string :=
  String.concat (String newline "")
    (map (String.concat (String tab ""))
       [ ["Images"; "1.5GB"; "1.2GB (80%)"];
         ["Containers"; "12kB"; "0B (0%)"];
         ["Build Cache"; "2.5MB"; "2.5MB"] ])
  ++ String newline "".

Definition demo_machine : ProbeEnv :=
  {| env := fun _ => None;
     disk := fun p =>
       if String.eqb p "C:\Windows\Temp"
       then Some (SizeAggregator.folder
                    [("a.tmp", Leaf KFile (Some (mkStats 700 5)));
                     ("b.tmp", Leaf KFile (Some (mkStats 300 6)))])
       else None;
     docker_df := Ok docker_df_output;
     CATEGORIES := fun id => mkCategory id id "" safe None |}.

(** ** [src/utils/fs.ts]: the flat listing *)

Module Listing.

(** [stat(fullPath)] answers. *)
Definition statable (node : Tree) : bool :=
  match stat_of node with
  | Some _ => true
  | None => false
  end.

(** [getDirectoryItems(dirPath)], where [node] is what the snapshot holds
    at [dirPath]: one item per entry whose [stat] answers; a directory
    that cannot be listed gives no item. *)
Definition getDirectoryItems `{NodePath} (node : Tree) (dirPath : string)
  : list CleanableItem :=
  match node with
  | Folder _ (Some entries) =>
      fold_left
        (fun (items : list CleanableItem) (entry : string * Tree) =>
           let '(entryName, child) := entry in
           let fullPath := join dirPath entryName in
           match stat_of child with
           | None => items
           | Some stats =>
               let size :=
                 if is_folder child
                 then inject_Z (Z.of_N (SizeAggregator.getDirectorySize child))
                 else inject_Z (Z.of_N (st_size stats)) in
               (items ++ [mkItem fullPath size entryName (is_folder child)
                            (Some (st_mtime stats))])%list
           end)
        entries []
  | _ => []
  end.

End Listing.

(** ** [src/utils/fs.ts]: emptying a directory *)

(** [readdir(dirPath)]: the names of the entries, or an exception.  With
    [withFileTypes] the entries are [Dirent]s, of which [emptyDirectory]
    reads the name only. *)
Class NodeDir (F : NodeFs) : Type := {
  fs_readdir : string -> @World F -> Outcome (list string);
}.

Module Emptying.

(** The [onProgress] callback of [emptyDirectory], invoked with
    [(current, total, entryName)]: the caller's code, which returns or
    throws. *)
Definition NameCallback : Type := nat -> nat -> string -> option Thrown.

Record EmptyCounts : Type := mkEmptied {
  removed : nat;       (* [success] *)
  kept : nat;          (* [failed] *)
}.

Section WithEnv.
Context `{NodePath} {F : NodeFs} `{!NodeDir F}.

Definition readdir (dirPath : string) : Fs.M (list string) :=
  fun r => (fs_readdir dirPath (Fs.world r), r).

(** [onProgress?.(i + 1, total, entry.name)] *)
Definition notify (onProgress : option NameCallback) (current total : nat)
  (entryName : string) : Fs.M unit :=
  match onProgress with
  | None => Fs.ret tt
  | Some cb =>
      fun r => match cb current total entryName with
               | None => (Ok tt, r)
               | Some e => (Threw e, r)
               end
  end.

(** The [for] loop over [entries], from index [i] on. *)
Fixpoint empty_from (dirPath : string) (rest : list string) (i total : nat)
  (onProgress : option NameCallback) (acc : EmptyCounts) : Fs.M EmptyCounts :=
  match rest with
  | [] => Fs.ret acc
  | entryName :: rest' =>
      Fs.bind (notify onProgress (i + 1) total entryName) (fun _ =>
      Fs.bind
        (Fs.try_catch
           (Fs.bind (Fs.rm (join dirPath entryName))
              (fun _ => Fs.ret (mkEmptied (S (removed acc)) (kept acc))))
           (fun _ => Fs.ret (mkEmptied (removed acc) (S (kept acc)))))
        (fun acc' => empty_from dirPath rest' (S i) total onProgress acc'))
  end.

Definition emptyDirectory (dirPath : string) (dryRun : bool)
  (onProgress : option NameCallback) : Fs.M EmptyCounts :=
  if dryRun then
    Fs.try_catch
      (Fs.bind (readdir dirPath)
         (fun entries => Fs.ret (mkEmptied (length entries) 0)))
      (fun _ => Fs.ret (mkEmptied 0 0))
  else
    Fs.try_catch
      (Fs.bind (readdir dirPath)
         (fun entries =>
            empty_from dirPath entries 0 (length entries) onProgress (mkEmptied 0 0)))
      (fun _ => Fs.ret (mkEmptied 0 0)).

(** A caller whose progress callback, when there is one, returns. *)
Definition quiet (onProgress : option NameCallback) : Prop :=
  match onProgress with
  | None => True
  | Some cb => forall current total entryName, cb current total entryName = None
  end.

End WithEnv.
End Emptying.

(** A directory listing for [scripted_fs]: [D:\cache] holds three
    entries, nothing else can be listed. *)
Definition scripted_dir : NodeDir scripted_fs :=
  {| fs_readdir := fun p _ =>
       if String.eqb p "D:\cache"
       then Ok ["a.tmp"; "b.tmp"; "c.tmp"]
       else Threw (JsError (Some "ENOENT") "ENOENT: no such file or directory, scandir") |}.


(** A callback that throws at [b.tmp]. *)
Definition stop_at_b : Emptying.NameCallback :=
  fun _ _ entryName =>
    if String.eqb entryName "b.tmp" then Some (NonError "stop") else None.

(** ** [src/scanners/*.ts]: cleaning *)

(** What [getSize] sees of the file system in a given state: the node
    that [stat] and the traversal reach at an absolute path. *)
Class NodeStat (F : NodeFs) : Type := {
  fs_disk : @World F -> string -> option Tree;
}.

(** [child_process.exec], promisified: a command transforms the machine
    and answers its standard output, or fails. *)
Class Shell : Type := {
  Machine : Type;
  sh_exec : string -> Machine -> Outcome string * Machine;
}.

Record CleanResult : Type := mkCleanResult {
  cleanedCategory : Category;
  cleanedItems : nat;
  reclaimed : Q;               (* [freedSpace] *)
  errors : list string;
}.

Module Cleaning.

(** [`${n}`] for a count. *)
Definition show_nat (n : nat) : string := NilEmpty.string_of_uint (Nat.to_uint n).

(** [error instanceof Error ? error.message : String(error)] *)
Definition message_of (e : Thrown) : string :=
  match e with
  | JsError _ msg => msg
  | NonError text => text
  end.

(** [String(error)], as a template literal renders it; an [Error] that
    [exec] rejects with is named [Error]. *)
Definition String_ (e : Thrown) : string :=
  match e with
  | JsError _ msg => if String.eqb msg "" then "Error" else "Error: " ++ msg
  | NonError text => text
  end.

(** [Math.max(a, b)] *)
Definition Math_max (a b : Q) : Q := if less a b then b else a.

(** [errors.push(text)] *)
Definition push (errors : list string) (text : string) : list string :=
  (errors ++ [text])%list.

(** The three counters of [clean]. *)
Record Tally : Type := mkTally {
  cleaned : nat;
  freed : Q;
  reported : list string;
}.

Section WithEnv.
Context `{NodePath} {F : NodeFs} `{!NodeDir F} `{!NodeStat F} `{ProbeEnv}.

(** [getSize] of [fs.ts] on the file system as it is now; it never
    throws. *)
Definition getSize (p : string) : Fs.M Q :=
  fun r =>
    (Ok (match fs_disk (Fs.world r) p with
         | Some (Leaf KFile (Some stats)) => inject_Z (Z.of_N (st_size stats))
         | Some (Folder (Some _) _ as dir) =>
             inject_Z (Z.of_N (SizeAggregator.getDirectorySize dir))
         | _ => 0%Q
         end), r).

(** One turn of the [for] loop of [clean], as [TempFilesScanner],
    [SystemLogsScanner] and [WindowsUpdateScanner] have it. *)
Definition clean_item (dryRun : bool) (acc : Tally) (item : CleanableItem)
  : Fs.M Tally :=
  Fs.try_catch
    (Fs.bind (if truthy (Some (size item)) then Fs.ret (size item)
              else getSize (path item)) (fun sizeBefore =>
     Fs.bind (Emptying.emptyDirectory (path item) dryRun None) (fun result =>
     Fs.bind (if dryRun then Fs.ret sizeBefore else getSize (path item)) (fun sizeAfter =>
     Fs.ret
       (mkTally
          (cleaned acc + Emptying.removed result)
          (freed acc + Math_max 0 (sizeBefore - sizeAfter))%Q
          (if (0 <? Emptying.kept result)%nat
           then push (reported acc)
                  ("Failed to remove " ++ show_nat (Emptying.kept result)
                   ++ " entries from " ++ name item)
           else reported acc))))))
    (fun error =>
       Fs.ret
         (mkTally (cleaned acc) (freed acc)
            (push (reported acc)
               ("Failed to clean " ++ name item ++ ": " ++ message_of error)))).

Fixpoint clean_from (dryRun : bool) (rest : list CleanableItem) (acc : Tally)
  : Fs.M Tally :=
  match rest with
  | [] => Fs.ret acc
  | item :: rest' =>
      Fs.bind (clean_item dryRun acc item) (fun acc' => clean_from dryRun rest' acc')
  end.

Definition directory_clean (cat : Category) (items : list CleanableItem)
  (dryRun : bool) : Fs.M CleanResult :=
  Fs.bind (clean_from dryRun items (mkTally 0 0%Q []))
    (fun t => Fs.ret (mkCleanResult cat (cleaned t) (freed t) (reported t))).

Definition TempFilesScanner_clean := directory_clean (CATEGORIES "temp-files").
Definition SystemLogsScanner_clean := directory_clean (CATEGORIES "system-logs").
Definition WindowsUpdateScanner_clean := directory_clean (CATEGORIES "windows-update").

(** The number of entries that [readdir] lists at [p], 0 when it throws. *)
Definition entries_at (w : World) (p : string) : nat :=
  match fs_readdir p w with
  | Ok entries => length entries
  | Threw _ => 0
  end.

End WithEnv.

Section WithShell.
Context `{Shell} `{ProbeEnv}.

Definition prune : string := "docker system prune -af --volumes".

(** [DockerScanner.clean]: the result, the machine afterwards and the
    commands that were run. *)
Definition DockerScanner_clean (items : list CleanableItem) (dryRun : bool)
  (m : Machine) : CleanResult * Machine * list string :=
  if dryRun then
    (mkCleanResult (CATEGORIES "docker") (length items) (Fs.sum_sizes items) [], m, [])
  else
    let beforeSize := Fs.sum_sizes items in
    match sh_exec prune m with
    | (Ok _, m') =>
        (mkCleanResult (CATEGORIES "docker") (length items) beforeSize [], m', [prune])
    | (Threw error, m') =>
        (mkCleanResult (CATEGORIES "docker") 0 0%Q
           (push [] ("Docker cleanup failed: " ++ String_ error)), m', [prune])
    end.

End WithShell.
End Cleaning.

(** What [getSize] sees after the scripted removals: nothing is left
    once the script is used up. *)
Definition scripted_view (script : list (option Thrown)) (p : string) : option Tree :=
  match script with
  | [] => None
  | _ :: _ =>
      if String.eqb p "D:\cache"
      then Some (SizeAggregator.folder (SizeAggregator.files 3))
      else None
  end.

Definition scripted_stat : NodeStat scripted_fs :=
  {| fs_disk := scripted_view : @World scripted_fs -> string -> option Tree |}.

(** A machine on which Docker answers, or does not. *)
Definition docker_machine : Shell :=
  {| Machine := bool;
     sh_exec := fun _ running =>
       if running then (Ok "Total reclaimed space: 1.2GB", running)
       else (Threw (JsError None "Command failed: docker system prune -af --volumes"),
             running) |}.

Definition cache_item : CleanableItem :=
  mkItem "D:\cache" 3 "Cache" true (Some 0%Z).


(** ** Strings, for stating what the parsers accept *)

Module Text.

(** The number of occurrences of [c] in [s]. *)
Fixpoint occurrences (c : ascii) (s : string) : nat :=
  match s with
  | EmptyString => 0
  | String d rest => (if Ascii.eqb d c then 1 else 0) + occurrences c rest
  end.

(** Every character of [s] satisfies [f]. *)
Fixpoint all_chars (f : ascii -> bool) (s : string) : bool :=
  match s with
  | EmptyString => true
  | String c rest => f c && all_chars f rest
  end.

End Text.


(** The shape of what [DockerScanner.scan] pushes. *)
Definition docker_item (item : CleanableItem) : Prop :=
  (0 < size item)%Q
  /\ isDirectory item = false
  /\ modifiedAt item = None
  /\ exists type, path item = "docker:" ++ toLowerCase type /\ name item = "Docker " ++ type.

(** ** [src/utils/paths.ts]: safe directories *)

Module SafePaths.
Section WithEnv.
Context `{NodePath} `{ProbeEnv}.

(** [process.env.X || ''] *)
Definition or_empty (var : string) : string :=
  match env var with
  | Some v => v
  | None => ""
  end.

(** The roots before [.filter(Boolean)]. *)
Definition roots : list string :=
  [ HOME; or_empty "TEMP"; or_empty "TMP"; or_empty "LOCALAPPDATA"; or_empty "APPDATA" ].

Definition safePaths : list string :=
  List.filter (fun root => negb (String.eqb root "")) roots.

Definition isSafePath (targetPath : string) : bool :=
  let normalized := toLowerCase (normalize targetPath) in
  if Paths.isSystemPath normalized then false
  else existsb (fun safe_ => startsWith normalized (toLowerCase (normalize safe_))) safePaths.

End WithEnv.
End SafePaths.

(** ** [src/utils/config.ts]: the suggestion for a classified error *)

Module Suggestions.
Import Errors.

(** [error.path ?? fallback] *)
Definition subject (error : ScannerError) (fallback : string) : string :=
  match errPath error with
  | Some p => p
  | None => fallback
  end.

Definition getErrorSuggestion (error : ScannerError) : string :=
  match code error with
  | PERMISSION_DENIED =>
      subject error "File" ++ " - Access denied. Try running as administrator."
  | FILE_NOT_FOUND =>
      subject error "File" ++ " - Not found. It may have been moved or deleted."
  | FILE_LOCKED =>
      subject error "File" ++ " - In use. Close related applications and try again."
  | PATH_TOO_LONG =>
      subject error "File" ++ " - Path too long. Try moving to a shorter path."
  | DISK_FULL =>
      subject error "File" ++ " - Disk full. Free up space and try again."
  | TIMEOUT =>
      subject error "Operation" ++ " - Timed out. Try again or check system resources."
  | UNKNOWN =>
      subject error "Operation" ++ " - " ++ message error
  end.

(** The codes of Node that [isRecoverableError] accepts once classified. *)
Definition retryable_codes : list string := ["EBUSY"; "ENOTEMPTY"; "ETIMEDOUT"].

End Suggestions.


(** ** [src/utils/config.ts]: configuration and profiles *)

Module Settings.

Record ExtraPaths : Type := mkExtraPaths {
  nodeModules : option (list string);
  projects : option (list string);
}.

(** [Config]; an absent key is [None]. *)
Record Config : Type := mkConfig {
  defaultCategories : option (list string);
  excludeCategories : option (list string);
  downloadsDaysOld : option Q;
  largeFilesMinSize : option Q;
  parallelScans : option bool;
  concurrency : option Q;
  extraPaths : option ExtraPaths;
}.

Definition DEFAULT_CONFIG : Config :=
  mkConfig None None (Some 30%Q) (Some (500 * 1024 * 1024)%Q) (Some true) (Some 4%Q) None.

(** One key of [{ ...base, ...over }]. *)
Definition over_ {A} (base over : option A) : option A :=
  match over with
  | Some v => Some v
  | None => base
  end.

(** [{ ...base, ...over }] *)
Definition spread (base over : Config) : Config :=
  mkConfig
    (over_ (defaultCategories base) (defaultCategories over))
    (over_ (excludeCategories base) (excludeCategories over))
    (over_ (downloadsDaysOld base) (downloadsDaysOld over))
    (over_ (largeFilesMinSize base) (largeFilesMinSize over))
    (over_ (parallelScans base) (parallelScans over))
    (over_ (concurrency base) (concurrency over))
    (over_ (extraPaths base) (extraPaths over)).

Record ProfileOptions : Type := mkProfileOptions {
  includeRisky : option bool;
}.

(** [CleaningProfile] of [src/types.ts], as the sources build and read it. *)
Record CleaningProfile : Type := mkProfile {
  profileId : string;
  profileName : string;
  profileDescription : string;
  profileCategories : list string;
  profileOptions : option ProfileOptions;
}.

Definition quick : CleaningProfile :=
  mkProfile "quick" "Quick Clean"
    "Browser cache, temp files, recycle bin - fast and safe"
    ["browser-cache"; "temp-files"; "recycle-bin"; "system-cache"] None.

Definition developer : CleaningProfile :=
  mkProfile "developer" "Developer Clean"
    "Dev caches, node_modules, Docker - free up dev space"
    ["dev-cache"; "node-modules"; "docker"; "chocolatey"] None.

Definition full : CleaningProfile :=
  mkProfile "full" "Full Clean"
    "All safe and moderate categories - thorough cleanup"
    [ "browser-cache"; "temp-files"; "recycle-bin"; "system-cache"; "system-logs";
      "dev-cache"; "node-modules"; "windows-update"; "prefetch"; "docker";
      "chocolatey" ] None.

Definition BUILTIN_PROFILES : gmap string CleaningProfile :=
  list_to_map [("quick", quick); ("developer", developer); ("full", full)].

(** *** Objects used as maps

    A [Record<string, CleaningProfile>] is a JavaScript object: its own
    properties, and a prototype.  The prototype is [Object.prototype]
    unless an assignment to [__proto__] has put a profile object in
    between. *)
Definition object_prototype_keys : list string :=
  [ "constructor"; "__defineGetter__"; "__defineSetter__"; "hasOwnProperty";
    "__lookupGetter__"; "__lookupSetter__"; "isPrototypeOf";
    "propertyIsEnumerable"; "toString"; "valueOf"; "__proto__"; "toLocaleString" ].

Record Obj : Type := mkObj {
  own : gmap string CleaningProfile;
  proto : option CleaningProfile;
}.

(** The keys of a profile object. *)
Definition profile_keys (p : CleaningProfile) : list string :=
  ["id"; "name"; "description"; "categories"]
  ++ match profileOptions p with
     | Some _ => ["options"]
     | None => []
     end.

Definition inherited (o : Obj) (k : string) : bool :=
  match proto o with
  | Some p => bool_decide (k ∈ profile_keys p) || bool_decide (k ∈ object_prototype_keys)
  | None => bool_decide (k ∈ object_prototype_keys)
  end.

(** [k in o] *)
Definition has (o : Obj) (k : string) : bool :=
  bool_decide (is_Some (own o !! k)) || inherited o k.

(** What [o[k]] evaluates to: a profile, something else (a member of a
    prototype), or [undefined]. *)
Inductive Lookup : Type :=
| Found (p : CleaningProfile)
| Other
| Undefined.

(** [o[k]] *)
Definition get (o : Obj) (k : string) : Lookup :=
  match own o !! k with
  | Some p => Found p
  | None =>
      if String.eqb k "__proto__" then
        match proto o with
        | Some p => Found p
        | None => Other
        end
      else if inherited o k then Other
      else Undefined
  end.

(** [o[k] = p], for a key that [Object.prototype] does not define. *)
Definition set (o : Obj) (k : string) (p : CleaningProfile) : Obj :=
  mkObj (<[k := p]> (own o)) (proto o).

(** [delete o[k]] *)
Definition remove (o : Obj) (k : string) : Obj :=
  mkObj (delete k (own o)) (proto o).

(** [Object.assign(o, src)]: every own key of [src] is assigned; the
    assignment to [__proto__] goes to the setter of [Object.prototype],
    which replaces the prototype. *)
Definition assign (o : Obj) (src : gmap string CleaningProfile) : Obj :=
  mkObj (delete "__proto__" src ∪ own o)
    (match src !! "__proto__" with
     | Some p => Some p
     | None => proto o
     end).

(** [{ ...BUILTIN_PROFILES }] *)
Definition builtins : Obj := mkObj BUILTIN_PROFILES None.

(** [id in BUILTIN_PROFILES] *)
Definition is_builtin (k : string) : bool := has builtins k.

(** The loop that keeps the profiles to save:
    [if (!(id in BUILTIN_PROFILES)) customProfiles[id] = p]. *)
Definition customProfiles (o : Obj) : gmap string CleaningProfile :=
  filter (fun entry => is_builtin (fst entry) = false) (own o).

(** *** The files *)

(** What is handed to [writeFile], before [JSON.stringify]. *)
Inductive Content : Type :=
| ConfigJson (config : Config)
| ProfilesJson (profiles : gmap string CleaningProfile).

(** [fs/promises] and [path.dirname], as the configuration code uses
    them.  [read_config] and [read_profiles] are [readFile] followed by
    [JSON.parse], [None] when either throws; what they answer is the file
    seen at the type that the code casts it to ([Partial<Config>],
    [Record<string, CleaningProfile>]), so a file whose values are not of
    that type has no counterpart here. *)
Class ConfigFs : Type := {
  Disk : Type;
  fs_access : string -> Disk -> bool;
  read_config : string -> Disk -> option Config;
  read_profiles : string -> Disk -> option (gmap string CleaningProfile);
  fs_mkdir : string -> Disk -> option Thrown * Disk;
  fs_writeFile : string -> Content -> Disk -> option Thrown * Disk;
  dirname : string -> string;
}.

Section WithEnv.
Context `{NodePath} `{ProbeEnv} `{ConfigFs}.

Inductive Call : Type :=
| MkdirCall (target : string) (thrown : option Thrown)
| WriteCall (target : string) (content : Content) (thrown : option Thrown).

(** The module state ([cachedConfig], [cachedProfiles]), the disk, and
    the calls that changed the disk so far. *)
Record State : Type := mkState {
  drive : Disk;
  cachedConfig : option Config;
  cachedProfiles : option Obj;
  journal : list Call;
}.

Definition M (A : Type) : Type := State -> Outcome A * State.

Definition ret {A} (a : A) : M A := fun s => (Ok a, s).

Definition bind {A B} (c : M A) (k : A -> M B) : M B :=
  fun s => match c s with
           | (Ok a, s') => k a s'
           | (Threw e, s') => (Threw e, s')
           end.

Definition throw {A} (e : Thrown) : M A := fun s => (Threw e, s).

Definition mkdir (target : string) : M unit :=
  fun s =>
    let '(thrown, d) := fs_mkdir target (drive s) in
    let s' := mkState d (cachedConfig s) (cachedProfiles s)
                (journal s ++ [MkdirCall target thrown]) in
    match thrown with
    | None => (Ok tt, s')
    | Some e => (Threw e, s')
    end.

Definition writeFile (target : string) (content : Content) : M unit :=
  fun s =>
    let '(thrown, d) := fs_writeFile target content (drive s) in
    let s' := mkState d (cachedConfig s) (cachedProfiles s)
                (journal s ++ [WriteCall target content thrown]) in
    match thrown with
    | None => (Ok tt, s')
    | Some e => (Threw e, s')
    end.

Definition set_cachedConfig (c : option Config) : M unit :=
  fun s => (Ok tt, mkState (drive s) c (cachedProfiles s) (journal s)).

Definition set_cachedProfiles (o : option Obj) : M unit :=
  fun s => (Ok tt, mkState (drive s) (cachedConfig s) o (journal s)).

Definition APPDATA : string :=
  Scanners.env_or "APPDATA" (join (join HOME "AppData") "Roaming").

Definition CONFIG_PATH_0 : string := join HOME ".windowscleanerrc".

Definition CONFIG_PATHS : list string :=
  [ CONFIG_PATH_0; join (join APPDATA "windows-cleaner-cli") "config.json" ].

Definition PROFILES_FILE : string := join (join APPDATA "windows-cleaner-cli") "profiles.json".

(** A string in a condition: [undefined] and [''] are falsy. *)
Definition given (p : option string) : bool :=
  match p with
  | Some v => negb (String.eqb v "")
  | None => false
  end.

(** The [for] loop of [loadConfig]: the parsed content of the first path
    that can be accessed, read and parsed. *)
Fixpoint first_readable (paths : list string) (d : Disk) : option Config :=
  match paths with
  | [] => None
  | p :: rest =>
      if fs_access p d then
        match read_config p d with
        | Some parsed => Some parsed
        | None => first_readable rest d
        end
      else first_readable rest d
  end.

Definition loadConfig (configPath : option string) : M Config :=
  fun s =>
    match cachedConfig s, given configPath with
    | Some cached, false => (Ok cached, s)
    | _, _ =>
        let paths := if given configPath then [default "" configPath] else CONFIG_PATHS in
        let loaded :=
          match first_readable paths (drive s) with
          | Some parsed => spread DEFAULT_CONFIG parsed
          | None => DEFAULT_CONFIG
          end in
        (Ok loaded, mkState (drive s) (Some loaded) (cachedProfiles s) (journal s))
    end.

Definition saveConfig (config : Config) (configPath : option string) : M unit :=
  let target := default CONFIG_PATH_0 configPath in
  bind (mkdir (dirname target)) (fun _ =>
  bind (writeFile target (ConfigJson config)) (fun _ =>
  set_cachedConfig (Some config))).

(** [{ ...DEFAULT_CONFIG }] *)
Definition getDefaultConfig : Config := DEFAULT_CONFIG.

Definition configExists (d : Disk) : bool := existsb (fun p => fs_access p d) CONFIG_PATHS.

Definition clearConfigCache : M unit := set_cachedConfig None.

Definition loadProfiles : M Obj :=
  fun s =>
    match cachedProfiles s with
    | Some cached => (Ok cached, s)
    | None =>
        let profiles :=
          if fs_access PROFILES_FILE (drive s) then
            match read_profiles PROFILES_FILE (drive s) with
            | Some custom => assign builtins custom
            | None => builtins
            end
          else builtins in
        (Ok profiles, mkState (drive s) (cachedConfig s) (Some profiles) (journal s))
    end.

(** The tail shared by [saveProfile] and [deleteProfile]. *)
Definition persist (profiles : Obj) : M unit :=
  bind (mkdir (dirname PROFILES_FILE)) (fun _ =>
  bind (writeFile PROFILES_FILE (ProfilesJson (customProfiles profiles))) (fun _ =>
  set_cachedProfiles (Some profiles))).

(** [saveProfile].  [profiles] is the cached object itself: the
    assignment [profiles[profile.id] = profile] changes the cache before
    anything is written. *)
Definition saveProfile (profile : CleaningProfile) : M unit :=
  bind loadProfiles (fun profiles =>
  if is_builtin (profileId profile)
  then throw (JsError None ("Cannot overwrite built-in profile: " ++ profileId profile))
  else
    let profiles' := set profiles (profileId profile) profile in
    bind (set_cachedProfiles (Some profiles')) (fun _ => persist profiles')).

Definition deleteProfile (k : string) : M unit :=
  if is_builtin k
  then throw (JsError None ("Cannot delete built-in profile: " ++ k))
  else
    bind loadProfiles (fun profiles =>
    if negb (has profiles k)
    then throw (JsError None ("Profile not found: " ++ k))
    else
      let profiles' := remove profiles k in
      bind (set_cachedProfiles (Some profiles')) (fun _ => persist profiles')).

Definition getProfile (k : string) (s : State) : Lookup :=
  match cachedProfiles s with
  | Some cached => if has cached k then get cached k else get builtins k
  | None => get builtins k
  end.

Definition clearProfilesCache : M unit := set_cachedProfiles None.

(** Among some calls, every [writeFile] writes [m] to the profiles file. *)
Definition writes_only (m : gmap string CleaningProfile) (calls : list Call) : Prop :=
  Forall (fun call =>
            match call with
            | WriteCall target content _ =>
                target = PROFILES_FILE /\ content = ProfilesJson m
            | MkdirCall _ _ => True
            end) calls.

End WithEnv.
End Settings.

(** A disk that holds at most one profiles file and one configuration
    file, on which every call succeeds and directories need not be made. *)
Definition memory_disk : Settings.ConfigFs :=
  {| Settings.Disk :=
       (option Settings.Config * option (gmap string Settings.CleaningProfile))%type;
     Settings.fs_access := fun p d =>
       if String.eqb p "C:\Users\me\.windowscleanerrc" then bool_decide (is_Some (fst d))
       else if String.eqb p "C:\Users\me\AppData\Roaming\windows-cleaner-cli\profiles.json"
       then bool_decide (is_Some (snd d))
       else false;
     Settings.read_config := fun p d =>
       if String.eqb p "C:\Users\me\.windowscleanerrc" then fst d else None;
     Settings.read_profiles := fun p d =>
       if String.eqb p "C:\Users\me\AppData\Roaming\windows-cleaner-cli\profiles.json"
       then snd d else None;
     Settings.fs_mkdir := fun _ d => (None, d);
     Settings.fs_writeFile := fun p content d =>
       (None,
        match content with
        | Settings.ConfigJson c =>
            if String.eqb p "C:\Users\me\.windowscleanerrc" then (Some c, snd d) else d
        | Settings.ProfilesJson m =>
            if String.eqb p "C:\Users\me\AppData\Roaming\windows-cleaner-cli\profiles.json"
            then (fst d, Some m) else d
        end);
     Settings.dirname := fun p => p |}.

Definition weekly : Settings.CleaningProfile :=
  Settings.mkProfile "weekly" "Weekly" "Temp files and logs"
    ["temp-files"; "system-logs"] None.


(** ** [src/commands/clean.ts]: what is scanned and what is offered *)

Module CleanCommand.
Import Settings.

(** The options object that [optionsForScanner] builds. *)
Inductive ScanOptions : Type :=
| DaysOld (daysOld : Q)
| MinSize (minSize : Q)
| SearchPaths (searchPaths : list string).

(** [config.extraPaths?.nodeModules] *)
Definition nodeModules_of (config : Config) : option (list string) :=
  match extraPaths config with
  | Some extra => nodeModules extra
  | None => None
  end.

Section WithPath.
Context `{NodePath}.

(** [paths.map(expandPath)]: the first path that [expandPath] rejects
    ends the call. *)
Fixpoint map_expandPath (paths : list string) : Outcome (list string) :=
  match paths with
  | [] => Ok []
  | p :: rest =>
      match Paths.expandPath p with
      | Threw e => Threw e
      | Ok expanded =>
          match map_expandPath rest with
          | Ok others => Ok (expanded :: others)
          | Threw e => Threw e
          end
      end
  end.

(** The function [optionsForScanner] of [cleanCommand], applied to the
    category id of a scanner; [Ok None] is [undefined]. *)
Definition optionsForScanner (config : Config) (categoryId : string)
  : Outcome (option ScanOptions) :=
  match String.eqb categoryId "downloads", downloadsDaysOld config with
  | true, Some days => Ok (Some (DaysOld days))
  | _, _ =>
      match String.eqb categoryId "large-files", largeFilesMinSize config with
      | true, Some bytes => Ok (Some (MinSize bytes))
      | _, _ =>
          match String.eqb categoryId "node-modules", nodeModules_of config with
          | true, Some (p :: rest) =>
              match map_expandPath (p :: rest) with
              | Ok expanded => Ok (Some (SearchPaths expanded))
              | Threw e => Threw e
              end
          | _, _ => Ok None
          end
      end
  end.

End WithPath.

Definition is_risky (result : ScanResult) : bool :=
  match safetyLevel (category result) with
  | risky => true
  | _ => false
  end.

(** [new Set(config.excludeCategories ?? [])] *)
Definition excluded (config : Config) : list string :=
  default [] (excludeCategories config).

(** The results that [cleanCommand] goes on with, from [summary.results]:
    those with items, not excluded by the configuration and, unless
    [options.includeRisky] is set, not risky. *)
Definition offered (config : Config) (includeRisky : option bool)
  (results : list ScanResult) : list ScanResult :=
  let resultsWithItems :=
    List.filter (fun r => negb (bool_decide (id (category r) ∈ excluded config)))
      (List.filter (fun r => (0 <? length (items r))%nat) results) in
  let riskyResults := List.filter is_risky resultsWithItems in
  let safeResults := List.filter (fun r => negb (is_risky r)) resultsWithItems in
  if negb (default false includeRisky) && (0 <? length riskyResults)%nat
  then safeResults
  else resultsWithItems.

(** [selectedItems] under [--all]: every offered result, whole. *)
Definition selectedItems (config : Config) (includeRisky : option bool)
  (results : list ScanResult) : list (string * list CleanableItem) :=
  map (fun r => (id (category r), items r)) (offered config includeRisky results).

End CleanCommand.


(* ================================================================== *)
(** * Part II: properties                                              *)
(* ================================================================== *)

Module PathsSpec.
Import Paths.
Section WithPath.
Context `{NodePath}.

Lemma expandPath_cases (inputPath : string) :
  let p := normalize (resolve (tildeExpand inputPath)) in
  (isSystemPath p = true /\ expandPath inputPath = Threw (unsafe_path_error inputPath))
  \/ (isSystemPath p = false /\ expandPath inputPath = Ok p).
Proof.
  intros p. unfold expandPath. fold p.
  destruct (isSystemPath p) eqn:E; [left | right]; split; reflexivity.
Qed.

(** C10. [expandPath] throws exactly when the tilde-expanded, resolved
    and normalised input is on the system-path denylist; otherwise it
    returns that normalised path, which [isSystemPath] rejects.  So no
    path that [expandPath] returns is a protected system path. *)
Theorem expandPath_rejects_system_paths (inputPath : string) :
  let target := normalize (resolve (tildeExpand inputPath)) in
  match expandPath inputPath with
  | Threw e => isSystemPath target = true /\ e = unsafe_path_error inputPath
  | Ok p => p = target /\ isSystemPath target = false /\ isSystemPath p = false
  end.
Proof.
  intros target.
  destruct (expandPath_cases inputPath) as [[Hs He] | [Hs He]];
    fold target in Hs, He; rewrite He; auto.
Qed.

End WithPath.

(** The cases of [paths.test.ts], on literal paths. *)
Example isSystemPath_windows :
  @isSystemPath literal_paths "C:\Windows\System32\test" = true
  /\ @isSystemPath literal_paths "C:\Windows\SysWOW64\test" = true
  /\ @isSystemPath literal_paths "c:\windows\system32\test" = true
  /\ @isSystemPath literal_paths "C:\WINDOWS\SYSTEM32\TEST" = true.
Proof. repeat split; reflexivity. Qed.

Example isSystemPath_user_paths :
  @isSystemPath literal_paths "C:\Users\test" = false
  /\ @isSystemPath literal_paths "D:\Projects\test" = false.
Proof. split; reflexivity. Qed.

Example expandPath_tilde :
  @expandPath literal_paths "~\test" = Ok "C:\Users\me\test".
Proof. reflexivity. Qed.

Example expandPath_plain :
  @expandPath literal_paths "C:\Users\test" = Ok "C:\Users\test".
Proof. reflexivity. Qed.

Example expandPath_throws :
  @expandPath literal_paths "C:\Windows\System32"
    = Threw (@unsafe_path_error "C:\Windows\System32")
  /\ @expandPath literal_paths "C:\Program Files"
    = Threw (@unsafe_path_error "C:\Program Files").
Proof. split; reflexivity. Qed.

End PathsSpec.

Module FsSpec.
Import Fs.
Section WithEnv.
Context `{NodePath} `{NodeFs}.

Lemma removeItem_spec (target : string) (dryRun : bool) (r : Run) :
  removeItem target dryRun r =
  if Paths.isSystemPath target
  then (Ok false, emit r (ConsoleWarn ("Skipping protected system path: " ++ target)))
  else if dryRun then (Ok true, r)
  else (Ok (match fst (fs_rm target (world r)) with None => true | Some _ => false end),
        mkRun (snd (fs_rm target (world r)))
              (events r ++ [RmCall target (fst (fs_rm target (world r)))])).
Proof.
  unfold removeItem.
  destruct (Paths.isSystemPath target); [reflexivity |].
  destruct dryRun; [reflexivity |].
  unfold try_catch, bind, rm, ret.
  destruct (fs_rm target (world r)) as [[e |] w]; reflexivity.
Qed.

Lemma removeItems_from_cons item rest i total dryRun cb acc (r : Run) :
  removeItems_from (item :: rest) i total dryRun cb acc r =
  match notify cb (i + 1) total item r with
  | (Ok _, r1) =>
      match removeItem (path item) dryRun r1 with
      | (Ok removed, r2) =>
          removeItems_from rest (S i) total dryRun cb (count acc item removed) r2
      | (Threw e, r2) => (Threw e, r2)
      end
  | (Threw e, r1) => (Threw e, r1)
  end.
Proof. reflexivity. Qed.

(** The callback leaves the file system alone and issues no [rm]. *)
Lemma notify_spec cb current total item (r : Run) :
  exists evs,
    snd (notify cb current total item r) = mkRun (world r) (events r ++ evs)
    /\ rm_targets evs = [] /\ rm_failures evs = []
    /\ (quiet cb -> fst (notify cb current total item r) = Ok tt).
Proof.
  destruct cb as [cb |]; cbn.
  - exists [ProgressCall current total item].
    destruct (cb current total item) eqn:E; cbn; repeat split; auto.
    intros Q. rewrite Q in E. discriminate.
  - exists []. rewrite app_nil_r. destruct r; cbn. repeat split; auto.
Qed.

Lemma rm_targets_app (a b : list Event) :
  rm_targets (a ++ b) = (rm_targets a ++ rm_targets b)%list.
Proof. apply flat_map_app. Qed.

Lemma rm_failures_app (a b : list Event) :
  rm_failures (a ++ b) = (rm_failures a ++ rm_failures b)%list.
Proof. apply flat_map_app. Qed.

Ltac use_IH IH evs cleaned He Hf Hd Ht Hok :=
  match goal with
  | |- context [removeItems_from ?rest ?i ?t ?d ?c ?a ?r] =>
      destruct (IH i t d c a r) as (evs & cleaned & He & Hf & Hd & Ht & Hok)
  end.

(** What one run of the loop does, from any index and any counters:
    [evs] are the events it adds and [cleaned] the items it counted. *)
Lemma removeItems_from_run rest :
  forall i total dryRun cb acc (r : Run),
  exists evs cleaned,
    let run := removeItems_from rest i total dryRun cb acc r in
    events (snd run) = (events r ++ evs)%list
    /\ Forall (fun t => Paths.isSystemPath t = false) (rm_targets evs)
    /\ (dryRun = true -> world (snd run) = world r /\ rm_targets evs = [])
    /\ (quiet cb -> exists res, fst run = Ok res)
    /\ (forall res, fst run = Ok res ->
          sublist cleaned (List.filter offDenylist rest)
          /\ (dryRun = true -> cleaned = List.filter offDenylist rest)
          /\ success res = (success acc + length cleaned)%nat
          /\ freedSpace res
             = fold_left (fun sum item => (sum + size item)%Q) cleaned (freedSpace acc)
          /\ failed res
             = (failed acc + length (List.filter onDenylist rest)
                + length (rm_failures evs))%nat
          /\ length rest
             = (length cleaned + length (List.filter onDenylist rest)
                + length (rm_failures evs))%nat).
Proof.
  induction rest as [| item rest IH]; intros i total dryRun cb acc r.
  - exists [], []. cbn. rewrite app_nil_r.
    split; [reflexivity |]. split; [constructor |].
    split; [auto |]. split; [eauto |].
    intros res [= <-]. cbn.
    repeat split; auto; try lia.
  - rewrite removeItems_from_cons.
    destruct (notify_spec cb (i + 1) total item r) as (pe & Hsnd & Hpt & Hpf & Hq).
    destruct (notify cb (i + 1) total item r) as [[[] | e] r1] eqn:En;
      cbn [fst snd] in Hsnd, Hq; subst r1.
    2:{ exists pe, []. cbn [fst snd events world].
        rewrite Hpt. repeat split; auto; try discriminate.
        intros Q. specialize (Hq Q). discriminate. }
    rewrite removeItem_spec.
    unfold onDenylist, offDenylist in *. cbn [List.filter].
    destruct (Paths.isSystemPath (path item)) eqn:Es; cbn [negb].
    + (* on the denylist: skipped *)
      use_IH IH evs cleaned He Hf Hd Ht Hok.
      exists (pe ++ [ConsoleWarn ("Skipping protected system path: " ++ path item)]
                 ++ evs)%list, cleaned.
      cbn [emit world events] in *. cbv zeta in *.
      rewrite !rm_targets_app, !rm_failures_app, Hpt, Hpf.
      cbn [rm_targets rm_failures flat_map app].
      split; [rewrite He, <- !app_assoc; reflexivity |].
      split; [assumption |]. split; [assumption |]. split; [assumption |].
      intros res Hres. destruct (Hok res Hres) as (Hsub & Hall & Hs & Hfs & Hfl & Hlen).
      cbn [count success failed freedSpace length] in *.
      repeat split; auto; lia.
    + destruct dryRun.
      * (* simulated *)
        use_IH IH evs cleaned He Hf Hd Ht Hok.
        exists (pe ++ evs)%list, (item :: cleaned).
        cbn [emit world events] in *. cbv zeta in *.
        rewrite !rm_targets_app, !rm_failures_app, Hpt, Hpf. cbn [app].
        split; [rewrite He, <- !app_assoc; reflexivity |].
        split; [assumption |]. split; [assumption |]. split; [assumption |].
        intros res Hres. destruct (Hok res Hres) as (Hsub & Hall & Hs & Hfs & Hfl & Hlen).
        cbn [count success failed freedSpace length fold_left] in *.
        repeat split; auto; try lia.
        -- apply sublist_skip; assumption.
        -- intros _. f_equal. auto.
      * (* a real removal *)
        cbn [world events].
        destruct (fs_rm (path item) (world r)) as [thrown w] eqn:Erm.
        cbn [fst snd].
        use_IH IH evs cleaned He Hf Hd Ht Hok.
        cbn [emit world events] in *. cbv zeta in *.
        exists (pe ++ [RmCall (path item) thrown] ++ evs)%list,
          (match thrown with None => item :: cleaned | Some _ => cleaned end).
        rewrite !rm_targets_app, !rm_failures_app, Hpt, Hpf.
        cbn [rm_targets flat_map app].
        split; [rewrite He, <- !app_assoc; reflexivity |].
        split; [constructor; assumption |].
        split; [discriminate |]. split; [assumption |].
        intros res Hres. destruct (Hok res Hres) as (Hsub & Hall & Hs & Hfs & Hfl & Hlen).
        destruct thrown as [e |];
          cbn [rm_failures count success failed freedSpace length fold_left flat_map app] in *;
          fold (rm_failures evs) in *;
          repeat split; auto; try lia; try discriminate.
        -- apply sublist_cons; assumption.
        -- apply sublist_skip; assumption.
Qed.

Lemma removeItems_run items dryRun cb (r : Run) :
  exists evs cleaned,
    let run := removeItems items dryRun cb r in
    events (snd run) = (events r ++ evs)%list
    /\ Forall (fun t => Paths.isSystemPath t = false) (rm_targets evs)
    /\ (dryRun = true -> world (snd run) = world r /\ rm_targets evs = [])
    /\ (quiet cb -> exists res, fst run = Ok res)
    /\ (forall res, fst run = Ok res ->
          sublist cleaned (List.filter offDenylist items)
          /\ (dryRun = true -> cleaned = List.filter offDenylist items)
          /\ success res = length cleaned
          /\ freedSpace res = sum_sizes cleaned
          /\ failed res
             = (length (List.filter onDenylist items) + length (rm_failures evs))%nat
          /\ length items
             = (length cleaned + length (List.filter onDenylist items)
                + length (rm_failures evs))%nat).
Proof.
  destruct (removeItems_from_run items 0 (length items) dryRun cb (mkCounts 0 0 0) r)
    as (evs & cleaned & H1).
  exists evs, cleaned. exact H1.
Qed.

(** C1. Whatever the items and whatever [dryRun], every [rm] that
    [removeItems] issues targets a path off the system-path denylist, and
    the items it counts as cleaned ([success], [freedSpace]) are taken
    among the items off the denylist: an item on the denylist is never
    deleted and never counted. *)
Theorem removeItems_spares_system_paths
  (items : list CleanableItem) (dryRun : bool) (onProgress : option Callback)
  (r : Run) :
  let run := removeItems items dryRun onProgress r in
  exists evs,
    events (snd run) = (events r ++ evs)%list
    /\ Forall (fun target => Paths.isSystemPath target = false) (rm_targets evs)
    /\ match fst run with
       | Ok res =>
           exists cleaned,
             sublist cleaned (List.filter offDenylist items)
             /\ success res = length cleaned
             /\ freedSpace res = sum_sizes cleaned
       | Threw _ => True
       end.
Proof.
  destruct (removeItems_run items dryRun onProgress r)
    as (evs & cleaned & He & Hf & _ & _ & Hok).
  cbv zeta in *. exists evs. repeat split; try assumption.
  destruct (fst (removeItems items dryRun onProgress r)) as [res |]; [| exact I].
  destruct (Hok res eq_refl) as (Hsub & _ & Hs & Hfs & _).
  exists cleaned. auto.
Qed.

(** C2. A dry run leaves the file system as it was and issues no [rm];
    every item off the denylist is counted as removed, so [success] is
    their number and [freedSpace] the sum of their recorded sizes.  (The
    run can only throw if the caller's progress callback throws.) *)
Theorem removeItems_dry_run
  (items : list CleanableItem) (onProgress : option Callback) (r : Run) :
  let run := removeItems items true onProgress r in
  world (snd run) = world r
  /\ (exists evs, events (snd run) = (events r ++ evs)%list /\ rm_targets evs = [])
  /\ match fst run with
     | Ok res =>
         success res = length (List.filter offDenylist items)
         /\ freedSpace res = sum_sizes (List.filter offDenylist items)
         /\ failed res = length (List.filter onDenylist items)
     | Threw _ => ~ quiet onProgress
     end.
Proof.
  destruct (removeItems_run items true onProgress r)
    as (evs & cleaned & He & _ & Hd & Ht & Hok).
  cbv zeta in *. destruct (Hd eq_refl) as [Hw Hnone].
  split; [assumption |]. split; [exists evs; auto |].
  destruct (fst (removeItems items true onProgress r)) as [res | e] eqn:E.
  - destruct (Hok res eq_refl) as (_ & Hall & Hs & Hfs & Hfl & _).
    rewrite (Hall eq_refl) in Hs, Hfs. repeat split; try assumption.
    rewrite Hfl. assert (Hno : rm_failures evs = []).
    { clear - Hnone. induction evs as [| [m | t [x |] | c n i] evs IH];
        cbn in *; auto; discriminate. }
    rewrite Hno. cbn. lia.
  - intros Q. destruct (Ht Q) as [res Hres]. discriminate.
Qed.

(** C7, as the code has it. With a progress callback that returns (or
    none), [removeItems] runs to the end of the list and returns: each
    item is either counted in [success] or in [failed], the failures
    being the items skipped for the denylist and the [rm] calls that
    threw.  The exception itself is dropped by the [catch]. *)
Theorem removeItems_completes
  (items : list CleanableItem) (dryRun : bool) (onProgress : option Callback)
  (r : Run) :
  quiet onProgress ->
  let run := removeItems items dryRun onProgress r in
  exists res evs,
    fst run = Ok res
    /\ events (snd run) = (events r ++ evs)%list
    /\ (success res + failed res = length items)%nat
    /\ failed res
       = (length (List.filter onDenylist items) + length (rm_failures evs))%nat.
Proof.
  intros Q.
  destruct (removeItems_run items dryRun onProgress r)
    as (evs & cleaned & He & _ & _ & Ht & Hok).
  cbv zeta in *. destruct (Ht Q) as [res Hres].
  destruct (Hok res Hres) as (_ & _ & Hs & _ & Hfl & Hlen).
  exists res, evs. repeat split; try assumption. lia.
Qed.

End WithEnv.

(** The system-path guard on the spec's example: nothing is deleted and
    the item is reported as failed, not as cleaned. *)
Example removeItems_system32 :
  @removeItems literal_paths scripted_fs [system32_item] false None
    (@mkRun scripted_fs [] [])
  = (Ok (mkCounts 0 1 0),
     @mkRun scripted_fs []
       [ConsoleWarn "Skipping protected system path: C:\Windows\System32\x"]).
Proof. reflexivity. Qed.

(** A removal that throws is counted, the next item is still processed. *)
Example removeItems_goes_on :
  fst (@removeItems literal_paths scripted_fs
         [report_item; system32_item; report_item] false None
         (@mkRun scripted_fs [Some ebusy; None] []))
  = Ok (mkCounts 1 2 2048).
Proof. reflexivity. Qed.

Lemma removeItems_completes_witness :
  exists res evs,
    fst (@removeItems literal_paths scripted_fs [report_item; system32_item] false None
           (@mkRun scripted_fs [Some eacces] [])) = Ok res
    /\ @events scripted_fs
         (snd (@removeItems literal_paths scripted_fs [report_item; system32_item]
                 false None (@mkRun scripted_fs [Some eacces] [])))
       = ([] ++ evs)%list
    /\ (success res + failed res = 2)%nat
    /\ failed res
       = (length (List.filter (@onDenylist literal_paths) [report_item; system32_item])
          + length (rm_failures evs))%nat.
Proof.
  apply (@removeItems_completes literal_paths scripted_fs
           [report_item; system32_item] false None (@mkRun scripted_fs [Some eacces] [])).
  exact I.
Defined.

(** C7 as stated fails: two removals that fail for different reasons
    ([EACCES], class PERMISSION_DENIED, and [EBUSY], class FILE_LOCKED)
    return the same result, so nothing in the result is a classified
    error list. *)
Lemma removeItems_drops_failure_class :
  ~ exists errors_of,
      reports_failure_classes errors_of [Some eacces] [report_item]
      /\ reports_failure_classes errors_of [Some ebusy] [report_item].
Proof.
  intros (errors_of & H1 & H2).
  unfold reports_failure_classes in H1, H2. vm_compute in H1, H2.
  rewrite H1 in H2. discriminate.
Qed.

End FsSpec.

(** Induction over a snapshot, with the hypothesis for every entry of a
    listing. *)
Lemma Tree_induction (P : Tree -> Prop) :
  (forall kind st, P (Leaf kind st)) ->
  (forall st, P (Folder st None)) ->
  (forall st entries,
      Forall (fun entry => P (snd entry)) entries -> P (Folder st (Some entries))) ->
  forall t, P t.
Proof.
  intros Hleaf Hnone Hsome. fix IH 1. intros [kind st | st [entries |]].
  - apply Hleaf.
  - apply Hsome. induction entries as [| [entryName child] es IHes].
    + constructor.
    + constructor; [apply IH | exact IHes].
  - apply Hnone.
Qed.

Module EnumeratorSpec.
Import Enumerator.

Lemma less_false (a b : Q) : less a b = false -> (b <= a)%Q.
Proof.
  unfold less. intros E. apply negb_false_iff in E. apply Qle_bool_iff in E. exact E.
Qed.

Lemma size_nonneg (n : N) : (0 <= inject_Z (Z.of_N n))%Q.
Proof. change 0%Q with (inject_Z 0). rewrite <- Zle_Qle. lia. Qed.

Section WithOptions.
Context `{NodePath}.
Variable now : Z.
Variable recursive_ : bool.
Variables minAge_ minSize_ : option Q.
Variable maxDepth_ : Q.

#[local] Abbreviation ok := (meets_applied_limits now).

Lemma too_new_false stats item :
  too_new now minAge_ stats = false ->
  modifiedAt item = Some (st_mtime stats) ->
  if truthy minAge_ then old_enough now minAge_ item else True.
Proof.
  unfold too_new, old_enough. intros E Hm.
  destruct minAge_ as [m |]; [| reflexivity].
  destruct (truthy (Some m)); [| exact I].
  rewrite Hm. cbn in E. apply less_false. exact E.
Qed.

Lemma too_small_false (n : N) item :
  too_small minSize_ (inject_Z (Z.of_N n)) = false ->
  size item = inject_Z (Z.of_N n) ->
  large_enough minSize_ item.
Proof.
  unfold too_small, large_enough, truthy. intros E Hs.
  destruct minSize_ as [m |]; [| exact I].
  rewrite Hs. destruct (Qeq_bool m 0) eqn:Z0; cbn in E.
  - apply Qeq_bool_iff in Z0. rewrite Z0. apply size_nonneg.
  - apply less_false. exact E.
Qed.

(** An entry of a sub-directory, seen from the directory above. *)
Lemma listed_within_up st entries root entryName child base item :
  In (entryName, child) entries ->
  listed_within child (join root entryName) (base + 1) maxDepth_ item ->
  listed_within (Folder st (Some entries)) root base maxDepth_ item.
Proof.
  intros Hin (names & reached & stats & Hne & Hl & Hs & -> & Hd).
  exists (entryName :: names), reached, stats.
  split; [discriminate |].
  split; [cbn [leads]; exists child; auto |].
  split; [exact Hs |].
  split.
  - destruct names as [| n names']; [done | reflexivity].
  - cbn [length]. replace (base + Z.of_nat (S (length names)) - 1)%Z
      with (base + 1 + Z.of_nat (length names) - 1)%Z by lia.
    exact Hd.
Qed.

Lemma processDir_adds :
  forall node currentPath depth items,
  exists added,
    processDir now recursive_ minAge_ minSize_ maxDepth_ currentPath node depth items
    = (items ++ added)%list
    /\ Forall (ok node currentPath depth minAge_ minSize_ maxDepth_) added.
Proof.
  induction node as [kind st | st | st entries IH] using Tree_induction;
    intros currentPath depth items.
  - exists []. cbn. rewrite app_nil_r. destruct (less _ _); auto.
  - exists []. cbn. rewrite app_nil_r. destruct (less _ _); auto.
  - cbn [processDir].
    destruct (less maxDepth_ (inject_Z depth)) eqn:Hdepth.
    { exists []. rewrite app_nil_r. auto. }
    apply less_false in Hdepth.
    rewrite Forall_forall in IH.
    (* the loop over a part [es] of the listing *)
    assert (Hloop : forall es,
               (forall entry, In entry es -> In entry entries) ->
               forall items,
               exists added,
                 fold_left
                   (fun (items : list CleanableItem) (entry : string * Tree) =>
                      let '(entryName, child) := entry in
                      let fullPath := join currentPath entryName in
                      match stat_of child with
                      | None => items
                      | Some stats =>
                          if too_new now minAge_ stats then items
                          else
                            let size :=
                              if is_folder child
                              then inject_Z (Z.of_N (SizeAggregator.getDirectorySize child))
                              else inject_Z (Z.of_N (st_size stats)) in
                            if too_small minSize_ size then items
                            else
                              let pushed :=
                                (items ++ [mkItem fullPath size entryName (is_folder child)
                                             (Some (st_mtime stats))])%list in
                              if recursive_ && is_folder child
                              then processDir now recursive_ minAge_ minSize_ maxDepth_
                                     fullPath child (depth + 1) pushed
                              else pushed
                      end)
                   es items
                 = (items ++ added)%list
                 /\ Forall (ok (Folder st (Some entries)) currentPath depth
                              minAge_ minSize_ maxDepth_) added);
      [| apply Hloop; auto].
    induction es as [| [entryName child] es IHes]; intros Hpart items'.
    { exists []. cbn. rewrite app_nil_r. auto. }
    assert (Hin : In (entryName, child) entries) by (apply Hpart; by left).
    assert (IHchild := IH (entryName, child) ltac:(by apply list_elem_of_In)).
    cbn [snd] in IHchild.
    specialize (IHes (fun entry Hentry => Hpart entry (or_intror Hentry))).
    cbn [fold_left].
    (* the first entry adds [first], the loop goes on from there *)
    match goal with
    | |- context [fold_left ?body es ?after] =>
        assert (Hfirst : exists first,
                   after = (items' ++ first)%list
                   /\ Forall (ok (Folder st (Some entries)) currentPath depth
                                minAge_ minSize_ maxDepth_) first)
    end.
    { destruct (stat_of child) as [stats |] eqn:Hstat;
        [| exists []; rewrite app_nil_r; auto].
      destruct (too_new now minAge_ stats) eqn:Hage;
        [exists []; rewrite app_nil_r; auto |].
      set (bytes := if is_folder child
                    then SizeAggregator.getDirectorySize child else st_size stats).
      assert (Hsize : (if is_folder child
                       then inject_Z (Z.of_N (SizeAggregator.getDirectorySize child))
                       else inject_Z (Z.of_N (st_size stats)))
                      = inject_Z (Z.of_N bytes))
        by (unfold bytes; destruct (is_folder child); reflexivity).
      rewrite Hsize.
      destruct (too_small minSize_ (inject_Z (Z.of_N bytes))) eqn:Hsmall;
        [exists []; rewrite app_nil_r; auto |].
      set (item := mkItem (join currentPath entryName) (inject_Z (Z.of_N bytes))
                     entryName (is_folder child) (Some (st_mtime stats))).
      assert (Hitem : ok (Folder st (Some entries)) currentPath depth
                        minAge_ minSize_ maxDepth_ item).
      { split; [| split].
        - exists [entryName], child, stats. split; [discriminate |].
          split; [cbn [leads]; exists child; auto |].
          split; [exact Hstat |].
          split; [unfold item, item_of; rewrite Hsize; reflexivity |].
          cbn [length]. replace (depth + Z.of_nat 1 - 1)%Z with depth by lia.
          exact Hdepth.
        - apply (too_new_false stats); [exact Hage | reflexivity].
        - apply (too_small_false bytes); [exact Hsmall | reflexivity]. }
      destruct (recursive_ && is_folder child).
      - destruct (IHchild (join currentPath entryName) (depth + 1)%Z (items' ++ [item])%list)
          as (below & Hbelow & Hok).
        exists (item :: below). rewrite Hbelow, <- app_assoc. split; [reflexivity |].
        constructor; [exact Hitem |].
        eapply Forall_impl; [exact Hok |].
        intros x (Hl & Ha & Hs). split; [| split]; auto.
        apply listed_within_up with (entryName := entryName) (child := child);
          [exact Hin | exact Hl].
      - exists [item]. auto. }
    destruct Hfirst as (first & -> & Hfirst).
    destruct (IHes (items' ++ first)%list) as (more & Hgoes & Hmore).
    exists (first ++ more)%list.
    split; [etransitivity; [exact Hgoes | by rewrite <- app_assoc] |].
    apply Forall_app. auto.
Qed.

End WithOptions.

(** C9, as the code has it. Every item that [getItems] returns is the
    item of an entry of the tree below [dirPath] whose directory is at
    most [maxDepth] (default 10) levels below [dirPath]; its computed
    size is at least [minSize], and its age is at least [minAge] days
    whenever [minAge] is not zero. *)
Theorem getItems_respects_limits `{NodePath}
  (now : Z) (root : Tree) (dirPath : string) (options : Options) :
  Forall
    (meets_applied_limits now root dirPath 0 (minAge options) (minSize options)
       (default 10%Q (maxDepth options)))
    (getItems now root dirPath options).
Proof.
  unfold getItems.
  destruct (processDir_adds now (default false (recursive options))
              (minAge options) (minSize options) (default 10%Q (maxDepth options))
              root dirPath 0%Z [])
    as (added & -> & Hok).
  exact Hok.
Qed.

(** C9 as stated fails for a recursive call with [minAge = 0]: a file
    stamped one day ahead of the clock is returned although its age, -1
    day, is below 0. *)
Lemma getItems_future_file :
  ~ Forall (@meets_limits literal_paths clock downloads "D:\Downloads"
              (mkOptions (Some true) (Some 0%Q) None None))
      (@getItems literal_paths clock downloads "D:\Downloads"
         (mkOptions (Some true) (Some 0%Q) None None)).
Proof.
  assert (E : @getItems literal_paths clock downloads "D:\Downloads"
                (mkOptions (Some true) (Some 0%Q) None None)
              = [mkItem "D:\Downloads\future.bin" 10 "future.bin" false
                   (Some (clock + msPerDay)%Z)])
    by (vm_compute; reflexivity).
  rewrite E. intros Hall. apply Forall_cons_1 in Hall.
  destruct Hall as [(_ & Hold & _) _].
  unfold old_enough in Hold. cbn [minAge modifiedAt] in Hold.
  revert Hold. vm_compute. intros Hold. apply Hold. reflexivity.
Qed.

(** Without [recursive] only the entries of [dirPath] are returned; a
    directory entry carries the size of its subtree, and an entry whose
    [stat] throws is skipped. *)
Example getItems_flat :
  map (fun item => (path item, size item, isDirectory item))
    (@getItems literal_paths clock photos "D:\Photos" no_options)
  = [ ("D:\Photos\a.jpg", 3000%Q, false); ("D:\Photos\2019", 5000%Q, true) ].
Proof. reflexivity. Qed.

Example getItems_recursive :
  map path
    (@getItems literal_paths clock photos "D:\Photos"
       (mkOptions (Some true) None None None))
  = [ "D:\Photos\a.jpg"; "D:\Photos\2019"; "D:\Photos\2019\b.jpg" ].
Proof. reflexivity. Qed.

(** [maxDepth = 0] stops below the first level, [minAge = 60] and
    [minSize = 4000] drop the newer and the smaller entries. *)
Example getItems_limits :
  map path
    (@getItems literal_paths clock photos "D:\Photos"
       (mkOptions (Some true) None None (Some 0%Q)))
  = [ "D:\Photos\a.jpg"; "D:\Photos\2019" ]
  /\ map path
       (@getItems literal_paths clock photos "D:\Photos"
          (mkOptions (Some true) (Some 60%Q) None None))
     = [ "D:\Photos\2019"; "D:\Photos\2019\b.jpg" ]
  /\ map path
       (@getItems literal_paths clock photos "D:\Photos"
          (mkOptions (Some true) None (Some 4000%Q) None))
     = [ "D:\Photos\2019"; "D:\Photos\2019\b.jpg" ].
Proof. repeat split; reflexivity. Qed.

End EnumeratorSpec.

Module SizeAggregatorSpec.
Import SizeAggregator.

Lemma Proc_induction (P : Proc -> Prop) :
  (forall answer, P (Stat answer)) ->
  (forall dir, P (Opening dir)) ->
  (forall queue executing results,
      Forall P executing -> P (Pool queue executing results)) ->
  forall p, P p.
Proof.
  intros Hstat Hopen Hpool. fix IH 1. intros [answer | dir | queue executing results].
  - apply Hstat.
  - apply Hopen.
  - apply Hpool. induction executing as [| job jobs IHjobs].
    + constructor.
    + constructor; [apply IH | exact IHjobs].
Qed.

Lemma sum_from (l : list N) (a : N) : fold_left N.add l a = (a + sum l)%N.
Proof.
  unfold sum. revert a. induction l as [| x l IH]; intros a; cbn.
  - lia.
  - rewrite (IH (a + x)%N), (IH (0 + x)%N). lia.
Qed.

Lemma sum_cons (x : N) (l : list N) : sum (x :: l) = (x + sum l)%N.
Proof. unfold sum at 1. cbn. apply sum_from. Qed.

Lemma sum_app (a b : list N) : sum (a ++ b) = (sum a + sum b)%N.
Proof.
  induction a as [| x a IH]; [reflexivity |].
  cbn [app]. rewrite !sum_cons, IH. lia.
Qed.

Lemma all_Forall {A} (P : A -> Prop) (l : list A) :
  fold_right (fun x rest => P x /\ rest) True l <-> Forall P l.
Proof.
  induction l as [| x l IH]; cbn.
  - split; [constructor | trivial].
  - rewrite Forall_cons, IH. reflexivity.
Qed.

(** *** The loop of [runWithConcurrencyLimit] *)

Lemma launch_spec (c : nat) (queue : list Task) :
  forall executing queue' executing',
    launch c queue executing = (queue', executing') ->
    exists started,
      queue = (started ++ queue')%list
      /\ executing' = (executing ++ map start started)%list
      /\ (queue <> [] -> started <> [])
      /\ (length executing + 1 <= Nat.max c 1 -> length executing' <= Nat.max c 1).
Proof.
  induction queue as [| task rest IH]; intros executing queue' executing' E;
    cbn [launch] in E.
  - injection E as <- <-. exists []. cbn [map app]. rewrite app_nil_r.
    split; [reflexivity |]. split; [reflexivity |]. split; [auto | lia].
  - destruct (c <=? length (executing ++ [start task]))%nat eqn:Ec.
    + injection E as <- <-. exists [task].
      split; [reflexivity |]. split; [reflexivity |]. split; [discriminate |].
      rewrite length_app. cbn. lia.
    + apply IH in E as (started & -> & -> & _ & Hcap).
      exists (task :: started). cbn [map app]. rewrite <- app_assoc.
      split; [reflexivity |]. split; [reflexivity |]. split; [discriminate |].
      intros Hroom. rewrite app_assoc. apply Hcap. apply Nat.leb_gt in Ec.
      rewrite length_app in *. cbn in *. lia.
Qed.

Lemma start_value (task : Task) : value (start task) = task_value task.
Proof. destruct task as [[st |] | dir]; reflexivity. Qed.

Lemma start_remaining (task : Task) : remaining (start task) = task_work task.
Proof. destruct task as [[st |] | dir]; reflexivity. Qed.

Lemma start_alive (task : Task) : alive (start task).
Proof. destruct task as [[st |] | dir]; exact I. Qed.

Lemma start_capped (c : nat) (task : Task) : capped c (start task).
Proof. destruct task as [[st |] | dir]; exact I. Qed.

Lemma tasks_value (st : option Stats) (entries : list (string * Tree)) :
  sum (map task_value (tasks_of entries)) = getDirectorySize (Folder st (Some entries)).
Proof.
  cbn [getDirectorySize]. unfold tasks_of.
  induction entries as [| [entryName [[|] [stats |] | st' listing]] entries IH];
    cbn [flat_map map app snd]; rewrite ?sum_cons, ?IH; cbn [task_value]; reflexivity.
Qed.

Lemma tasks_work (st : option Stats) (entries : list (string * Tree)) :
  S (list_sum (map task_work (tasks_of entries))) = work (Folder st (Some entries)).
Proof.
  cbn [work]. f_equal. unfold tasks_of, list_sum.
  induction entries as [| [entryName [[|] stats | st' listing]] entries IH];
    cbn [flat_map map app snd fold_right task_work]; rewrite ?IH; reflexivity.
Qed.

Lemma pick_spec (f : nat -> Proc -> N + Proc) (after : list Proc) :
  forall k before,
    match pick f k before after with
    | Some (b, r, a) =>
        exists mid job k',
          after = (mid ++ job :: a)%list
          /\ b = (before ++ mid)%list
          /\ r = f k' job
          /\ k' < inflight job
          /\ k = list_sum (map inflight mid) + k'
    | None => list_sum (map inflight after) <= k
    end.
Proof.
  induction after as [| job after IH]; intros k before; cbn [pick].
  - cbn. lia.
  - destruct (k <? inflight job)%nat eqn:Ek.
    + apply Nat.ltb_lt in Ek. exists [], job, k. rewrite app_nil_r. cbn.
      split; [reflexivity |]. split; [reflexivity |]. split; [reflexivity |].
      split; [exact Ek | reflexivity].
    + apply Nat.ltb_ge in Ek.
      specialize (IH (k - inflight job) (before ++ [job])%list).
      destruct (pick f (k - inflight job) (before ++ [job]) after) as [[[b r] a] |].
      * destruct IH as (mid & j & k' & -> & -> & -> & Hk' & Hk).
        exists (job :: mid), j, k'. rewrite <- app_assoc.
        unfold list_sum in *. cbn [map fold_right app] in *.
        split; [reflexivity |]. split; [reflexivity |]. split; [reflexivity |].
        split; [exact Hk' | lia].
      * unfold list_sum in *. cbn [map fold_right] in *. lia.
Qed.

Section WithConcurrency.
Variable c : nat.

Lemma settle_value queue executing results :
  match settle queue executing results with
  | inl n => n = value (Pool queue executing results)
  | inr p => p = Pool queue executing results
  end.
Proof.
  destruct queue, executing; cbn [settle value map]; auto.
  unfold sum. cbn [fold_left]. lia.
Qed.

Lemma launch_value queue executing queue' executing' :
  launch c queue executing = (queue', executing') ->
  (sum (map task_value queue') + sum (map value executing')
   = sum (map task_value queue) + sum (map value executing))%N.
Proof.
  intros E. apply launch_spec in E as (started & -> & -> & _).
  rewrite !map_app, !sum_app, map_map.
  rewrite (map_ext _ _ start_value). lia.
Qed.

Lemma launch_remaining queue executing queue' executing' :
  launch c queue executing = (queue', executing') ->
  list_sum (map task_work queue') + list_sum (map remaining executing')
  = list_sum (map task_work queue) + list_sum (map remaining executing).
Proof.
  intros E. apply launch_spec in E as (started & -> & -> & _).
  rewrite !map_app, !list_sum_app, map_map.
  rewrite (map_ext _ _ start_remaining). lia.
Qed.

(** The value that a call is going to return does not depend on which
    operation completes next. *)
Lemma step_value :
  forall p k,
    match step c k p with
    | inl n => n = value p
    | inr p' => value p' = value p
    end.
Proof.
  induction p as [answer | dir | queue executing results IH] using Proc_induction;
    intros k.
  - reflexivity.
  - destruct dir as [kind st | st [entries |]]; try reflexivity.
    cbn [step]. destruct (launch c (tasks_of entries) []) as [q ex] eqn:E.
    apply launch_value in E. pose proof (settle_value q ex []) as Hs.
    cbn [value]. rewrite <- (tasks_value st).
    destruct (settle q ex []) as [n | p']; subst; cbn [value];
      unfold sum at 1; cbn [fold_left]; cbn [map] in E; unfold sum at 4 in E;
      cbn [fold_left] in E; lia.
  - cbn [step]. pose proof (pick_spec (step c) executing k []) as Hp.
    destruct (pick (step c) k [] executing) as [[[b r] a] |]; [| reflexivity].
    destruct Hp as (mid & job & k' & -> & -> & -> & Hk' & Hk).
    apply Forall_app in IH as [_ IH]. apply Forall_cons_1 in IH as [IHjob _].
    specialize (IHjob k'). cbn [app].
    destruct (step c k' job) as [result | job'].
    + destruct (launch c queue (mid ++ a)) as [q ex] eqn:E.
      apply launch_value in E. pose proof (settle_value q ex (results ++ [result])) as Hs.
      destruct (settle q ex (results ++ [result])) as [n | p']; subst; cbn [value];
        rewrite !map_app, !sum_app in *; cbn [map]; rewrite !sum_cons;
        unfold sum at 2; cbn [fold_left]; lia.
    + cbn [value]. rewrite !map_app, !sum_app. cbn [map]. rewrite !sum_cons. lia.
Qed.

Lemma inflight_le_remaining : forall p, inflight p <= remaining p.
Proof.
  induction p as [answer | dir | queue executing results IH] using Proc_induction.
  - cbn. lia.
  - destruct dir as [kind st | st [entries |]]; cbn; lia.
  - cbn [inflight remaining].
    assert (list_sum (map inflight executing) <= list_sum (map remaining executing)).
    { unfold list_sum.
      induction IH as [| job jobs Hjob _ IHjobs]; cbn [map fold_right]; lia. }
    lia.
Qed.

(** Every completion brings the call closer to its end. *)
Lemma step_remaining :
  forall p k,
    k < inflight p ->
    match step c k p with
    | inl _ => True
    | inr p' => remaining p' < remaining p
    end.
Proof.
  induction p as [answer | dir | queue executing results IH] using Proc_induction;
    intros k Hk.
  - exact I.
  - destruct dir as [kind st | st [entries |]]; try exact I.
    cbn [step]. destruct (launch c (tasks_of entries) []) as [q ex] eqn:E.
    apply launch_remaining in E. pose proof (settle_value q ex []) as Hs.
    cbn [remaining]. rewrite <- (tasks_work st).
    destruct (settle q ex []) as [n | p']; [exact I |]. subst. cbn [remaining].
    cbn in E. lia.
  - cbn [step]. pose proof (pick_spec (step c) executing k []) as Hp.
    destruct (pick (step c) k [] executing) as [[[b r] a] |].
    2:{ cbn [inflight] in Hk. lia. }
    destruct Hp as (mid & job & k' & -> & -> & -> & Hk' & Hkk).
    apply Forall_app in IH as [_ IH]. apply Forall_cons_1 in IH as [IHjob _].
    specialize (IHjob k' Hk'). cbn [app].
    pose proof (inflight_le_remaining job) as Hjob.
    destruct (step c k' job) as [result | job'].
    + destruct (launch c queue (mid ++ a)) as [q ex] eqn:E.
      apply launch_remaining in E.
      pose proof (settle_value q ex (results ++ [result])) as Hs.
      destruct (settle q ex (results ++ [result])) as [n | p']; [exact I |]. subst.
      cbn [remaining]. rewrite !map_app, !list_sum_app in *. cbn [map list_sum].
      unfold list_sum in *. cbn [fold_right] in *. lia.
    + cbn [remaining]. rewrite !map_app, !list_sum_app.
      unfold list_sum in *. cbn [map fold_right] in *. lia.
Qed.

Lemma launch_alive queue executing queue' executing' results :
  launch c queue executing = (queue', executing') ->
  Forall alive executing ->
  match settle queue' executing' results with
  | inl _ => True
  | inr p => alive p
  end.
Proof.
  intros E Hall. apply launch_spec in E as (started & -> & -> & Hne & _).
  unfold settle.
  destruct queue' as [| t q'], (executing ++ map start started)%list as [| j ex] eqn:Ex;
    try exact I; cbn [alive].
  - split; [discriminate |]. apply all_Forall. rewrite <- Ex.
    apply Forall_app. split; [exact Hall |].
    apply Forall_forall. intros x Hx. apply list_elem_of_In, in_map_iff in Hx as (t & <- & _).
    apply start_alive.
  - apply app_eq_nil in Ex as [_ Hs]. apply map_eq_nil in Hs. subst started.
    exfalso. apply Hne; [discriminate | reflexivity].
  - split; [discriminate |]. apply all_Forall. rewrite <- Ex.
    apply Forall_app. split; [exact Hall |].
    apply Forall_forall. intros x Hx. apply list_elem_of_In, in_map_iff in Hx as (t' & <- & _).
    apply start_alive.
Qed.

(** A call that is not over always waits for the file system. *)
Lemma step_alive :
  forall p k,
    alive p ->
    match step c k p with
    | inl _ => True
    | inr p' => alive p'
    end.
Proof.
  induction p as [answer | dir | queue executing results IH] using Proc_induction;
    intros k Ha.
  - exact I.
  - destruct dir as [kind st | st [entries |]]; try exact I.
    cbn [step]. destruct (launch c (tasks_of entries) []) as [q ex] eqn:E.
    eapply launch_alive; [exact E | constructor].
  - cbn [step]. pose proof (pick_spec (step c) executing k []) as Hp.
    destruct (pick (step c) k [] executing) as [[[b r] a] |]; [| exact Ha].
    destruct Hp as (mid & job & k' & -> & -> & -> & Hk' & Hkk).
    cbn [alive] in Ha. destruct Ha as [_ Ha]. apply all_Forall in Ha.
    apply Forall_app in Ha as [Hmid Ha]. apply Forall_cons_1 in Ha as [Hjob Ha].
    apply Forall_app in IH as [_ IH]. apply Forall_cons_1 in IH as [IHjob _].
    specialize (IHjob k' Hjob). cbn [app].
    destruct (step c k' job) as [result | job'].
    + destruct (launch c queue (mid ++ a)) as [q ex] eqn:E.
      eapply launch_alive; [exact E |]. apply Forall_app. auto.
    + cbn [alive]. split; [by destruct mid |]. apply all_Forall.
      apply Forall_app. split; [exact Hmid |]. constructor; assumption.
Qed.

Lemma alive_inflight : forall p, alive p -> 1 <= inflight p.
Proof.
  induction p as [answer | dir | queue executing results IH] using Proc_induction;
    intros Ha; cbn; try lia.
  destruct Ha as [Hne Ha]. apply all_Forall in Ha.
  destruct executing as [| job jobs]; [done |].
  apply Forall_cons_1 in IH as [IHjob _]. apply Forall_cons_1 in Ha as [Hjob _].
  specialize (IHjob Hjob). cbn. lia.
Qed.

(** Under every schedule the call returns, and returns the same number. *)
Lemma run_completes (schedule : list nat) :
  forall p,
    alive p -> remaining p <= length schedule ->
    run c schedule p = inl (value p).
Proof.
  induction schedule as [| k schedule IH]; intros p Ha Hr.
  - pose proof (alive_inflight p Ha). pose proof (inflight_le_remaining p).
    cbn in Hr. lia.
  - cbn [run].
    assert (Hk : k mod inflight p < inflight p).
    { apply Nat.mod_upper_bound. pose proof (alive_inflight p Ha). lia. }
    pose proof (step_value p (k mod inflight p)) as Hv.
    pose proof (step_remaining p (k mod inflight p) Hk) as Hd.
    pose proof (step_alive p (k mod inflight p) Ha) as Hl.
    destruct (step c (k mod inflight p) p) as [n | p']; [by subst |].
    rewrite <- Hv. apply IH; [exact Hl |]. cbn in Hr. lia.
Qed.

Lemma launch_capped queue executing queue' executing' results :
  launch c queue executing = (queue', executing') ->
  length executing + 1 <= Nat.max c 1 ->
  Forall (capped c) executing ->
  match settle queue' executing' results with
  | inl _ => True
  | inr p => capped c p
  end.
Proof.
  intros E Hroom Hall. apply launch_spec in E as (started & -> & -> & _ & Hcap).
  specialize (Hcap Hroom). unfold settle.
  assert (Hex : Forall (capped c) (executing ++ map start started)).
  { apply Forall_app. split; [exact Hall |].
    apply Forall_forall. intros x Hx.
    apply list_elem_of_In, in_map_iff in Hx as (t & <- & _). apply start_capped. }
  destruct queue' as [| t q'], (executing ++ map start started)%list as [| j ex];
    try exact I; cbn [capped]; (split; [exact Hcap | by apply all_Forall]).
Qed.

(** No pool ever holds more started tasks than its capacity. *)
Lemma step_capped :
  forall p k,
    capped c p ->
    match step c k p with
    | inl _ => True
    | inr p' => capped c p'
    end.
Proof.
  induction p as [answer | dir | queue executing results IH] using Proc_induction;
    intros k Hc.
  - exact I.
  - destruct dir as [kind st | st [entries |]]; try exact I.
    cbn [step]. destruct (launch c (tasks_of entries) []) as [q ex] eqn:E.
    eapply launch_capped; [exact E | cbn; lia | constructor].
  - cbn [step]. pose proof (pick_spec (step c) executing k []) as Hp.
    destruct (pick (step c) k [] executing) as [[[b r] a] |]; [| exact Hc].
    destruct Hp as (mid & job & k' & -> & -> & -> & Hk' & Hkk).
    cbn [capped] in Hc. destruct Hc as [Hlen Hc]. apply all_Forall in Hc.
    apply Forall_app in Hc as [Hmid Hc]. apply Forall_cons_1 in Hc as [Hjob Hc].
    apply Forall_app in IH as [_ IH]. apply Forall_cons_1 in IH as [IHjob _].
    specialize (IHjob k' Hjob). cbn [app].
    rewrite length_app in Hlen. cbn [length] in Hlen.
    destruct (step c k' job) as [result | job'].
    + destruct (launch c queue (mid ++ a)) as [q ex] eqn:E.
      eapply launch_capped; [exact E | rewrite length_app; lia |].
      apply Forall_app. auto.
    + cbn [capped]. split; [rewrite length_app; cbn [length]; lia |].
      apply all_Forall. apply Forall_app. split; [exact Hmid |]. constructor; assumption.
Qed.

Lemma trail_capped (schedule : list nat) :
  forall p, capped c p -> Forall (capped c) (trail c schedule p).
Proof.
  induction schedule as [| k schedule IH]; intros p Hc; cbn [trail].
  - constructor.
  - pose proof (step_capped p (k mod inflight p) Hc) as Hs.
    destruct (step c (k mod inflight p) p) as [n | p']; constructor; auto.
Qed.

End WithConcurrency.

(** X1. [getDirectorySize] terminates and its result does not depend on
    the order in which the file-system operations complete: for every
    directory, every pool capacity and every schedule long enough to let
    every operation complete, the call returns the sum of the sizes of
    the files below the directory (0 for what cannot be listed or
    [stat]ed). *)
Theorem getDirectorySize_returns (c : nat) (dir : Tree) (schedule : list nat) :
  work dir <= length schedule ->
  run c schedule (Opening dir) = inl (getDirectorySize dir).
Proof. intros Hw. apply (run_completes c schedule (Opening dir)); [exact I | exact Hw]. Qed.

(** X2. Within one pool the cap holds: along every run of
    [getDirectorySize], under every schedule, no [executing] set of
    [runWithConcurrencyLimit] grows beyond [MAX_CONCURRENT_IO]. *)
Theorem pool_cap (dir : Tree) (schedule : list nat) :
  Forall (capped MAX_CONCURRENT_IO) (trail MAX_CONCURRENT_IO schedule (Opening dir)).
Proof. apply trail_capped. exact I. Qed.


(** *** A directory without sub-directories: one pool *)

Lemma tasks_of_flat (entries : list (string * Tree)) :
  Forall (fun entry => is_folder (snd entry) = false) entries ->
  Forall is_stat_task (tasks_of entries).
Proof.
  intros Hflat. unfold tasks_of.
  induction Hflat as [| [entryName [[|] st | st listing]] entries Hentry _ IH];
    cbn [flat_map snd app]; try discriminate; auto.
  constructor; [exact I | exact IH].
Qed.

Lemma launch_shallow (c : nat) queue executing queue' executing' results :
  launch c queue executing = (queue', executing') ->
  Forall is_stat_task queue -> Forall is_stat executing ->
  match settle queue' executing' results with
  | inl _ => True
  | inr p => shallow p
  end.
Proof.
  intros E Hq He. apply launch_spec in E as (started & -> & -> & _).
  apply Forall_app in Hq as [Hs Hq].
  assert (Hex : Forall is_stat (executing ++ map start started)).
  { apply Forall_app. split; [exact He |].
    clear - Hs. induction Hs as [| [[st |] | dir] started Ht _ IH]; cbn [map];
      constructor; auto; try exact I. }
  unfold settle.
  destruct queue' as [| t q'], (executing ++ map start started)%list as [| j ex];
    try exact I; cbn [shallow]; auto.
Qed.

Lemma step_shallow (c : nat) (p : Proc) (k : nat) :
  shallow p ->
  match step c k p with
  | inl _ => True
  | inr p' => shallow p'
  end.
Proof.
  destruct p as [answer | dir | queue executing results]; intros Hs.
  - exact I.
  - destruct dir as [kind st | st [entries |]]; try exact I.
    cbn [step]. destruct (launch c (tasks_of entries) []) as [q ex] eqn:E.
    eapply launch_shallow; [exact E | | constructor].
    apply tasks_of_flat. exact Hs.
  - cbn [step]. pose proof (pick_spec (step c) executing k []) as Hp.
    destruct (pick (step c) k [] executing) as [[[b r] a] |]; [| exact Hs].
    destruct Hp as (mid & job & k' & -> & -> & -> & Hk' & Hkk).
    destruct Hs as [Hq He].
    apply Forall_app in He as [Hmid He]. apply Forall_cons_1 in He as [Hjob He].
    destruct job as [answer | dir | q ex res]; try destruct Hjob.
    cbn [step app]. destruct (launch c queue (mid ++ a)) as [q ex] eqn:E.
    eapply launch_shallow; [exact E | exact Hq |]. apply Forall_app. auto.
Qed.

Lemma shallow_inflight (c : nat) (p : Proc) :
  shallow p -> capped c p -> inflight p <= Nat.max c 1.
Proof.
  destruct p as [answer | dir | queue executing results]; intros Hs Hc; cbn; try lia.
  destruct Hs as [_ He]. destruct Hc as [Hlen _].
  assert (list_sum (map inflight executing) = length executing) as ->.
  { clear - He. unfold list_sum.
    induction He as [| [answer | dir | q ex res] jobs Hjob _ IH];
      cbn [map fold_right length inflight]; try destruct Hjob; lia. }
  exact Hlen.
Qed.

(** X3. The concurrency cap respected: along every run over a directory
    that has no sub-directory, at most [concurrency] operations (one when
    [concurrency] is 0) are in flight. *)
Theorem one_pool_respects_cap (c : nat) (dir : Tree) (schedule : list nat) :
  shallow (Opening dir) ->
  Forall (fun p => inflight p <= Nat.max c 1) (trail c schedule (Opening dir)).
Proof.
  assert (Hgen : forall p, shallow p -> capped c p ->
                   Forall (fun p' => inflight p' <= Nat.max c 1) (trail c schedule p)).
  { induction schedule as [| k schedule IH]; intros p Hs Hc; cbn [trail].
    - constructor.
    - pose proof (step_shallow c p (k mod inflight p) Hs) as Hs'.
      pose proof (step_capped c p (k mod inflight p) Hc) as Hc'.
      destruct (step c (k mod inflight p) p) as [n | p']; constructor; auto.
      by apply shallow_inflight. }
  intros Hs. apply Hgen; [exact Hs | exact I].
Qed.

Lemma getDirectorySize_returns_witness :
  run MAX_CONCURRENT_IO (repeat 0 25) (Opening two_by_eleven)
  = inl (getDirectorySize two_by_eleven).
Proof.
  apply (getDirectorySize_returns MAX_CONCURRENT_IO two_by_eleven (repeat 0 25)).
  vm_compute. lia.
Defined.

Lemma one_pool_respects_cap_witness :
  Forall (fun p => inflight p <= Nat.max 2 1)
    (trail 2 [0; 1; 1; 0; 0] (Opening (folder (files 5)))).
Proof.
  apply (one_pool_respects_cap 2 (folder (files 5)) [0; 1; 1; 0; 0]).
  repeat constructor.
Defined.

(** Five files under a cap of two: never more than two [stat] calls in
    flight, whichever completes first. *)
Example five_files_cap_two :
  map inflight (trail 2 [0; 1; 1; 0; 0] (Opening (folder (files 5)))) = [2; 2; 2; 2; 1].
Proof. reflexivity. Qed.

(** The array [results] of a pool is filled in the order of completion. *)
Example results_in_completion_order :
  trail 20 [0; 2; 0]
    (Opening (folder [ ("a", Leaf KFile (Some (mkStats 1 0)));
                       ("b", Leaf KFile (Some (mkStats 2 0)));
                       ("c", Leaf KFile (Some (mkStats 3 0))) ]))
  = [ Pool [] [Stat 1; Stat 2; Stat 3] [];
      Pool [] [Stat 1; Stat 2] [3%N];
      Pool [] [Stat 2] [3%N; 1%N] ].
Proof. reflexivity. Qed.


(** C6 fails on the code. Each call of [getDirectorySize] opens a pool of
    its own: once the root and its two sub-directories are listed, the
    eleven [stat] calls of each sub-directory are all in flight, 22
    operations against a ceiling of 20. *)
Theorem getDirectorySize_exceeds_ceiling :
  map inflight (trail MAX_CONCURRENT_IO [0; 0; 11] (Opening two_by_eleven))
  = [2; 12; 22]
  /\ peak [0; 0; 11] two_by_eleven = 22
  /\ MAX_CONCURRENT_IO < peak [0; 0; 11] two_by_eleven.
Proof. vm_compute. repeat split; lia. Qed.

End SizeAggregatorSpec.

Module ScannersSpec.
Import Scanners.
Section WithEnv.
Context `{NodePath} `{ProbeEnv}.

Lemma createResult_totalSize (cat : Category) (found : list CleanableItem) :
  totalSize (createResult cat found) = Fs.sum_sizes (items (createResult cat found)).
Proof. reflexivity. Qed.

(** C5. The result of [scan], for each probe of the sources (Docker,
    temp files, system logs, Windows Update), carries as [totalSize] the
    sum of the sizes of its items. *)
Theorem scan_totalSize_is_sum :
  Forall (fun result => totalSize result = Fs.sum_sizes (items result))
    [ DockerScanner_scan; TempFilesScanner_scan; SystemLogsScanner_scan;
      WindowsUpdateScanner_scan ].
Proof. repeat constructor. Qed.

(** The probes only push what has a positive size. *)
Lemma probe_positive (p label : string) (found : list CleanableItem) :
  Forall (fun item => (0 < size item)%Q) found ->
  Forall (fun item => (0 < size item)%Q) (probe p label found).
Proof.
  intros Hfound. unfold probe.
  destruct (exists_ p); [| exact Hfound].
  destruct (less 0 (getSize p)) eqn:Hpos; [| exact Hfound].
  destruct (stat p); [| exact Hfound].
  apply Forall_app. split; [exact Hfound |]. constructor; [| constructor].
  cbn. unfold less in Hpos. apply negb_true_iff in Hpos.
  apply Qnot_le_lt. intros Hle. apply Qle_bool_iff in Hle. congruence.
Qed.

End WithEnv.

Example parseDockerSize_cases :
  parseDockerSize "1.2GB (80%)" = Some (1.2 * (1000 * 1000 * 1000))%Q
  /\ parseDockerSize "12kB" = Some (12 * 1000)%Q
  /\ parseDockerSize "12KB" = Some (12 * 1024)%Q
  /\ parseDockerSize "3 Mb" = Some (3 * 1)%Q
  /\ parseDockerSize "n/a" = Some 0%Q
  /\ parseDockerSize ".GB" = None.
Proof. repeat split; reflexivity. Qed.

Example docker_scan_demo :
  map (fun item => (path item, size item))
    (items (@DockerScanner_scan demo_machine))
  = [ ("docker:images", (1.2 * (1000 * 1000 * 1000))%Q);
      ("docker:build cache", (2.5 * (1000 * 1000))%Q) ].
Proof. reflexivity. Qed.

Example temp_scan_demo :
  @TempFilesScanner_scan literal_paths demo_machine
  = mkScanResult (mkCategory "temp-files" "temp-files" "" safe None)
      [mkItem "C:\Windows\Temp" 1000 "Windows Temp" true (Some 0%Z)]
      1000 None.
Proof. reflexivity. Qed.

End ScannersSpec.

Module HarnessSpec.
Import Harness.

Section WithOptions.
Variable concurrency : nat.
Variable optionsForScanner : Scanner -> option ScannerOptions.

#[local] Abbreviation fill' := (fill concurrency).
#[local] Abbreviation finish' := (finish concurrency optionsForScanner).
#[local] Abbreviation drain' := (drain concurrency optionsForScanner).
#[local] Abbreviation opened' := (opened concurrency).
#[local] Abbreviation outcome := (outcome_of optionsForScanner).

(** Admission moves scans from the queue to the pool, and loses none. *)
Lemma fill_perm waiting inFlight :
  forall waiting' inFlight',
    fill' waiting inFlight = (waiting', inFlight') ->
    (waiting' ++ inFlight')%list ≡ₚ (waiting ++ inFlight)%list.
Proof.
  revert inFlight.
  induction waiting as [| next waiting IH]; intros inFlight waiting' inFlight' E;
    cbn [fill] in E.
  - injection E as <- <-. done.
  - destruct (length inFlight <? concurrency)%nat.
    + apply IH in E. rewrite E. cbn. rewrite app_assoc.
      symmetry. apply Permutation_cons_append.
    + injection E as <- <-. done.
Qed.

(** With room for one scan at least, a scan waits only while another is
    in flight. *)
Lemma fill_live waiting inFlight waiting' inFlight' :
  (1 <= concurrency)%nat ->
  fill' waiting inFlight = (waiting', inFlight') ->
  waiting' <> [] -> inFlight' <> [].
Proof.
  intros Hc. revert inFlight waiting' inFlight'.
  induction waiting as [| next waiting IH]; intros inFlight waiting' inFlight' E Hw;
    cbn [fill] in E.
  - injection E as <- <-. done.
  - destruct (length inFlight <? concurrency)%nat eqn:El.
    + eapply IH; eauto.
    + injection E as <- <-. apply Nat.ltb_ge in El.
      destruct inFlight; cbn in *; [lia | done].
Qed.

(** The capacity is never exceeded. *)
Lemma fill_capacity waiting inFlight waiting' inFlight' :
  fill' waiting inFlight = (waiting', inFlight') ->
  (length inFlight <= concurrency)%nat ->
  (length inFlight' <= concurrency)%nat.
Proof.
  revert inFlight waiting' inFlight'.
  induction waiting as [| next waiting IH]; intros inFlight waiting' inFlight' E Hl;
    cbn [fill] in E.
  - injection E as <- <-. done.
  - destruct (length inFlight <? concurrency)%nat eqn:El.
    + eapply IH; eauto. rewrite length_app. cbn. apply Nat.ltb_lt in El. lia.
    + injection E as <- <-. done.
Qed.

Variable scanners : list Scanner.

#[local] Abbreviation consistent := (consistent concurrency optionsForScanner scanners).

Lemma consistent_opened : consistent (opened' scanners).
Proof.
  unfold opened.
  destruct (fill' (imap (fun i scanner => (i, scanner)) scanners) []) as [q r] eqn:E.
  pose proof (fill_perm _ _ _ _ E) as Hp. rewrite app_nil_r in Hp.
  assert (Hfst : (imap (fun i scanner => (i, scanner)) scanners).*1
                 = seq 0 (length scanners)).
  { apply list_eq. intros i. rewrite list_lookup_fmap, list_lookup_imap.
    destruct (scanners !! i) as [scanner |] eqn:Es; cbn.
    - symmetry. apply lookup_seq. split; [done |]. by eapply lookup_lt_Some.
    - symmetry. apply lookup_ge_None. rewrite length_seq. by apply lookup_ge_None. }
  unfold consistent, pending. cbn [queued running slots].
  split; [by rewrite length_replicate |].
  split; [rewrite Hp, Hfst; apply NoDup_seq |].
  split.
  { intros i scanner Hin. rewrite Hp in Hin.
    apply list_elem_of_lookup in Hin as [j Hj].
    rewrite list_lookup_imap in Hj.
    destruct (scanners !! j) eqn:Ej; cbn in Hj; [| done].
    by injection Hj as <- <-. }
  split.
  { intros i scanner Hs. rewrite lookup_replicate_2 by (by eapply lookup_lt_Some).
    rewrite decide_True; [done |]. rewrite Hp, Hfst. apply elem_of_seq.
    split; [lia |]. cbn. by eapply lookup_lt_Some. }
  split; [intros Hc; by eapply fill_live |].
  eapply fill_capacity; [exact E |]. cbn. lia.
Qed.

Lemma consistent_finish k pool :
  consistent pool -> (k < length (running pool))%nat ->
  consistent (finish' k pool)
  /\ length (pending (finish' k pool)) = pred (length (pending pool)).
Proof.
  intros (Hlen & Hnd & Hin & Hslot & Hlive & Hcap) Hk.
  unfold finish. destruct (running pool !! k) as [[i scanner] |] eqn:Ek.
  2:{ apply lookup_ge_None in Ek. lia. }
  destruct (fill' (queued pool) (delete k (running pool))) as [q r] eqn:E.
  pose proof (fill_perm _ _ _ _ E) as Hp.
  pose proof (delete_Permutation _ _ _ Ek) as Hd.
  assert (Hpend : pending pool ≡ₚ (i, scanner) :: (q ++ r)%list).
  { unfold pending. rewrite Hp, Permutation_middle. f_equiv. exact Hd. }
  unfold consistent, pending at 1 2 3 4 5. cbn [queued running slots].
  rewrite Hpend in Hnd. cbn in Hnd. apply NoDup_cons in Hnd as [Hfresh Hnd].
  split; [split; [| split; [| split; [| split; [| split]]]] |].
  - by rewrite length_insert.
  - done.
  - intros j t Hj. apply Hin. rewrite Hpend. by right.
  - intros j t Hj. destruct (decide (j = i)) as [-> | Hne].
    + rewrite list_lookup_insert_eq.
      2:{ rewrite Hlen. by eapply lookup_lt_Some. }
      rewrite decide_False by done.
      assert (scanners !! i = Some scanner) as Hs
        by (apply Hin; rewrite Hpend; by left).
      congruence.
    + rewrite list_lookup_insert_ne by done. rewrite (Hslot j t Hj).
      assert (Hiff : j ∈ (pending pool).*1 <-> j ∈ ((q ++ r)%list).*1).
      { rewrite Hpend. cbn. rewrite elem_of_cons. tauto. }
      unfold pending in Hiff. repeat case_decide; tauto.
  - intros Hc. by eapply fill_live.
  - eapply fill_capacity; [exact E |]. rewrite length_delete by eauto. lia.
  - unfold pending. rewrite Hpend. cbn. by rewrite length_app.
Qed.

Lemma drain_done steps :
  forall schedule pool,
    consistent pool -> (1 <= concurrency)%nat ->
    (length (pending pool) <= steps)%nat ->
    consistent (drain' steps schedule pool)
    /\ pending (drain' steps schedule pool) = [].
Proof.
  induction steps as [| steps IH]; intros schedule pool Hc H1 Hsteps.
  - cbn. split; [done |]. destruct (pending pool); [done | cbn in Hsteps; lia].
  - cbn [drain]. destruct (running pool) as [| x inFlight] eqn:Er.
    + split; [done |]. unfold pending. rewrite Er.
      destruct Hc as (_ & _ & _ & _ & Hlive & _).
      destruct (queued pool) eqn:Eq; [done |]. exfalso. by apply Hlive.
    + set (k := (hd 0 schedule mod length (x :: inFlight))%nat).
      assert (Hk : (k < length (running pool))%nat).
      { rewrite Er. apply Nat.mod_upper_bound. done. }
      destruct (consistent_finish k pool Hc Hk) as [Hc' Hlen'].
      apply IH; [done | done | lia].
Qed.

Lemma drain_consistent steps :
  forall schedule pool,
    consistent pool -> consistent (drain' steps schedule pool).
Proof.
  induction steps as [| steps IH]; intros schedule pool Hc; cbn [drain]; [done |].
  destruct (running pool) as [| x inFlight] eqn:Er; [done |].
  apply IH. apply consistent_finish; [done |].
  rewrite Er. apply Nat.mod_upper_bound. done.
Qed.

End WithOptions.

(** At most [concurrency] scans are in flight, at every point of every
    schedule. *)
Lemma pool_within_capacity concurrency optionsForScanner scanners steps schedule :
  (length (running (drain concurrency optionsForScanner steps schedule
                      (opened concurrency scanners))) <= concurrency)%nat.
Proof.
  destruct (drain_consistent concurrency optionsForScanner scanners steps schedule
              (opened concurrency scanners)) as (_ & _ & _ & _ & _ & Hcap).
  - apply consistent_opened.
  - exact Hcap.
Qed.

(** Whatever the order of completion, the slot of every request ends up
    with the outcome of its own scanner. *)
Lemma closed_slots concurrency optionsForScanner scanners schedule :
  (1 <= concurrency)%nat ->
  slots (closed concurrency optionsForScanner scanners schedule)
  = map (fun scanner => Some (outcome_of optionsForScanner scanner)) scanners.
Proof.
  intros H1. unfold closed.
  destruct (drain_done concurrency optionsForScanner scanners (length scanners)
              schedule (opened concurrency scanners)) as [Hc Hnil].
  - apply consistent_opened.
  - done.
  - unfold opened, pending.
    destruct (fill concurrency (imap (fun i scanner => (i, scanner)) scanners) [])
      as [q r] eqn:E.
    cbn. apply fill_perm in E. rewrite E, app_nil_r, length_imap. done.
  - destruct Hc as (Hlen & _ & _ & Hslot & _).
    apply list_eq. intros i. rewrite list_lookup_fmap.
    destruct (scanners !! i) as [scanner |] eqn:Es; cbn.
    + rewrite (Hslot i scanner Es), Hnil. done.
    + apply lookup_ge_None. rewrite Hlen. by apply lookup_ge_None.
Qed.

Lemma runScans_results concurrency optionsForScanner registry categoryIds schedule :
  (1 <= concurrency)%nat ->
  results (runScans concurrency optionsForScanner registry categoryIds schedule)
  = map (fun name => outcome_of optionsForScanner (registry name)) categoryIds.
Proof.
  intros H1. unfold runScans, summarize. cbn [results].
  rewrite closed_slots by done.
  induction categoryIds as [| name names IH]; [done |].
  cbn. by rewrite IH.
Qed.

(** C3. For every requested list of category ids and every schedule of
    completions, the results of [runScans] are, position by position, the
    outcomes of the requested scanners in the order of the request; the
    order in which the scans complete has no influence. *)
Theorem runScans_request_order
  concurrency optionsForScanner registry (categoryIds : list string)
  (schedule : list nat) :
  (1 <= concurrency)%nat ->
  results (runScans concurrency optionsForScanner registry categoryIds schedule)
  = map (fun name => outcome_of optionsForScanner (registry name)) categoryIds
  /\ forall other : list nat,
       runScans concurrency optionsForScanner registry categoryIds other
       = runScans concurrency optionsForScanner registry categoryIds schedule.
Proof.
  intros H1. split; [by apply runScans_results |].
  intros other. unfold runScans. by rewrite !closed_slots.
Qed.

Lemma runScans_request_order_witness :
  results (runScans 2 (fun _ => None) demo_registry ["a"; "b"; "c"] [1; 1; 0])
  = map (fun name => outcome_of (fun _ => None) (demo_registry name)) ["a"; "b"; "c"]
  /\ forall other : list nat,
       runScans 2 (fun _ => None) demo_registry ["a"; "b"; "c"] other
       = runScans 2 (fun _ => None) demo_registry ["a"; "b"; "c"] [1; 1; 0].
Proof.
  apply (runScans_request_order 2 (fun _ => None) demo_registry ["a"; "b"; "c"] [1; 1; 0]).
  lia.
Defined.

(** The scans of [a], [b], [c] completing in the order b, c, a, and
    those of [c], [b], [a] in the order b, a, c (each time the younger of
    the two scans in flight finishes first): the results follow each
    request. *)
Example runScans_staggered :
  completion_order 2 (fun _ => None) demo_registry ["a"; "b"; "c"] [1; 1; 0]
  = ["b"; "c"; "a"]
  /\ map (fun result => id (category result))
       (results (runScans 2 (fun _ => None) demo_registry ["a"; "b"; "c"] [1; 1; 0]))
     = ["a"; "b"; "c"]
  /\ completion_order 2 (fun _ => None) demo_registry ["c"; "b"; "a"] [1; 1; 0]
     = ["b"; "a"; "c"]
  /\ map (fun result => id (category result))
       (results (runScans 2 (fun _ => None) demo_registry ["c"; "b"; "a"] [1; 1; 0]))
     = ["c"; "b"; "a"].
Proof. repeat split; reflexivity. Qed.

(** C4. The summary holds one entry per requested category.  The entry
    of a scanner whose [scan] throws is the empty result of its category
    with the error text; the entry of every other scanner is the result
    that its [scan] returned. *)
Theorem runScans_isolates_failures
  concurrency optionsForScanner registry (categoryIds : list string)
  (schedule : list nat) :
  (1 <= concurrency)%nat ->
  let found :=
    results (runScans concurrency optionsForScanner registry categoryIds schedule) in
  length found = length categoryIds
  /\ forall i name,
       categoryIds !! i = Some name ->
       found !! i
       = Some (match scan (registry name) (optionsForScanner (registry name)) with
               | Ok result => result
               | Threw e =>
                   mkScanResult (scanner_category (registry name)) [] 0
                     (Some (error_text e))
               end).
Proof.
  intros H1 found. unfold found. rewrite runScans_results by done.
  split; [by rewrite length_map |].
  intros i name Hi. change (map ?f ?l) with (f <$> l).
  rewrite list_lookup_fmap, Hi. reflexivity.
Qed.

Lemma runScans_isolates_failures_witness :
  let found := results (runScans 2 (fun _ => None) demo_registry ["a"; "b"; "c"] [0; 1]) in
  length found = 3
  /\ forall i name,
       ["a"; "b"; "c"] !! i = Some name ->
       found !! i
       = Some (match scan (demo_registry name) None with
               | Ok result => result
               | Threw e =>
                   mkScanResult (scanner_category (demo_registry name)) [] 0
                     (Some (error_text e))
               end).
Proof.
  apply (runScans_isolates_failures 2 (fun _ => None) demo_registry ["a"; "b"; "c"] [0; 1]).
  lia.
Defined.

(** The harness keeps the size invariant: if the scanners return results
    whose [totalSize] is the sum of their item sizes, so is every entry
    of the summary (the converted failures are empty, with size 0). *)
Lemma runScans_keeps_size_invariant
  concurrency optionsForScanner registry (categoryIds : list string)
  (schedule : list nat) :
  (1 <= concurrency)%nat ->
  (forall name result,
      scan (registry name) (optionsForScanner (registry name)) = Ok result ->
      totalSize result = Fs.sum_sizes (items result)) ->
  Forall (fun result => totalSize result = Fs.sum_sizes (items result))
    (results (runScans concurrency optionsForScanner registry categoryIds schedule)).
Proof.
  intros H1 Hscan. rewrite runScans_results by done.
  apply Forall_forall. intros result Hin.
  apply list_elem_of_In, in_map_iff in Hin as (name & <- & _).
  unfold outcome_of.
  destruct (scan (registry name) (optionsForScanner (registry name))) as [r | e] eqn:E.
  - by apply (Hscan name).
  - reflexivity.
Qed.

(** One scanner throws, its siblings are reported as they returned. *)
Example runScans_one_failure :
  runScans 2 (fun _ => None) demo_registry ["a"; "b"; "c"] [0; 1]
  = mkSummary
      [ mkScanResult (demo_category "a")
          [ mkItem "D:\a\1" 100 "1" false None; mkItem "D:\a\2" 200 "2" false None ]
          300 None;
        mkScanResult (demo_category "b") [] 0
          (Some "EACCES: permission denied, scandir");
        mkScanResult (demo_category "c") [] 0 None ]
      300 2.
Proof. reflexivity. Qed.

End HarnessSpec.

(** Lexicographic order of strings: the facts that [String] leaves out. *)
Lemma string_compare_refl (s : string) : String.compare s s = Eq.
Proof.
  induction s as [| c s IH]; cbn; [done |].
  unfold Ascii.compare. by rewrite N.compare_refl.
Qed.

Lemma string_compare_trans (a : string) :
  forall b c,
    String.compare a b <> Gt -> String.compare b c <> Gt -> String.compare a c <> Gt.
Proof.
  induction a as [| x a IH]; intros [| y b] [| z c]; cbn; try congruence.
  unfold Ascii.compare.
  destruct (N.compare_spec (N_of_ascii x) (N_of_ascii y)) as [E1 | L1 | G1];
    destruct (N.compare_spec (N_of_ascii y) (N_of_ascii z)) as [E2 | L2 | G2];
    destruct (N.compare_spec (N_of_ascii x) (N_of_ascii z)) as [E3 | L3 | G3];
    try congruence; try lia; eauto.
Qed.

Lemma string_ltb_leb (a b : string) : String.ltb a b = negb (String.leb b a).
Proof.
  unfold String.ltb, String.leb. rewrite (String.compare_antisym b a).
  destruct (String.compare a b); reflexivity.
Qed.

Lemma string_leb_trans (a b c : string) :
  String.leb a b = true -> String.leb b c = true -> String.leb a c = true.
Proof.
  unfold String.leb. intros H1 H2.
  pose proof (string_compare_trans a b c) as H.
  destruct (String.compare a b), (String.compare b c), (String.compare a c);
    try done; exfalso; apply H; congruence.
Qed.

Module DuplicatesSpec.
Import Duplicates.

Lemma prefer_false_kept_over kept other :
  prefer other kept = false <-> kept_over kept other.
Proof.
  unfold prefer, kept_over, newer, stamp_le. rewrite string_ltb_leb.
  destruct (String.leb (path kept) (path other)) eqn:El;
    destruct (modifiedAt other) as [x |], (modifiedAt kept) as [y |]; cbn;
    try destruct (Z.ltb_spec y x); try destruct (Z.ltb_spec x y); cbn;
    (split; [intros E | intros [T P]]);
    try discriminate; try done; try lia;
    try (split; [lia || done | intros Heq; try injection Heq as ->; try lia; done]).
  all: try (exfalso; assert (x = y) as -> by lia; by specialize (P eq_refl)).
  all: try (by specialize (P eq_refl)).
Qed.

Lemma kept_over_refl a : kept_over a a.
Proof.
  split.
  - unfold stamp_le. destruct (modifiedAt a); [lia | done].
  - intros _. unfold String.leb. by rewrite string_compare_refl.
Qed.

Lemma kept_over_trans a b c : kept_over a b -> kept_over b c -> kept_over a c.
Proof.
  unfold kept_over, stamp_le. intros [T1 P1] [T2 P2].
  destruct (modifiedAt a) as [x |] eqn:Ea, (modifiedAt b) as [y |] eqn:Eb,
    (modifiedAt c) as [z |] eqn:Ec; try done.
  - split; [lia |]. intros [= ->]. assert (y = x) as -> by lia.
    eapply string_leb_trans; [apply P1 | apply P2]; done.
  - split; [done |]. intros _. eapply string_leb_trans; [apply P1 | apply P2]; done.
Qed.

Lemma prefer_kept_over a b : prefer b a = true -> kept_over b a.
Proof.
  intros Hp. apply prefer_false_kept_over. revert Hp.
  unfold prefer, newer. rewrite !string_ltb_leb.
  destruct (String.leb_total (path a) (path b)) as [L | L]; rewrite L;
    destruct (String.leb (path a) (path b)) eqn:L1;
    destruct (String.leb (path b) (path a)) eqn:L2;
    destruct (modifiedAt a) as [x |], (modifiedAt b) as [y |]; cbn;
    try destruct (Z.ltb_spec y x); try destruct (Z.ltb_spec x y); cbn;
    try discriminate; try done; try lia.
Qed.

(** One pass keeps a member that no other member beats, and sets aside
    exactly the others. *)
Lemma select_spec others :
  forall kept best rest,
    select kept others = (best, rest) ->
    best ∈ kept :: others
    /\ best :: rest ≡ₚ kept :: others
    /\ Forall (kept_over best) (kept :: others).
Proof.
  induction others as [| next others IH]; intros kept best rest E; cbn [select] in E.
  - injection E as <- <-. repeat split; [by left | done |].
    constructor; [apply kept_over_refl | constructor].
  - destruct (prefer next kept) eqn:Ep.
    + destruct (select next others) as [b r] eqn:Es. injection E as <- <-.
      destruct (IH _ _ _ Es) as (Hin & Hperm & Hall).
      split; [by right |]. split.
      * rewrite (Permutation_swap kept b r). by rewrite Hperm.
      * apply Forall_cons_1 in Hall as [Hn Ho].
        constructor; [| constructor; done].
        eapply kept_over_trans; [exact Hn |]. by apply prefer_kept_over.
    + destruct (select kept others) as [b r] eqn:Es. injection E as <- <-.
      destruct (IH _ _ _ Es) as (Hin & Hperm & Hall).
      split.
      { apply elem_of_cons in Hin as [-> | Hin]; [by left | by right; right]. }
      split.
      * rewrite (Permutation_swap next b r), Hperm. apply Permutation_swap.
      * apply Forall_cons_1 in Hall as [Hk Ho].
        constructor; [done |]. constructor; [| done].
        eapply kept_over_trans; [exact Hk |]. by apply prefer_false_kept_over.
Qed.

Lemma retain_spec files g : retain files = Some g -> retention_ok g /\ members g = files.
Proof.
  unfold retain. destruct files as [| first [| second others]]; try discriminate.
  destruct (select first (second :: others)) as [best rest] eqn:Es.
  intros [= <-]. apply select_spec in Es as (Hin & Hperm & Hall).
  unfold retention_ok. cbn [members keptItem reclaimable length].
  split; [| reflexivity]. split; [lia | auto].
Qed.

(** Three files of one size and one content are grouped together, in
    the order of the enumeration. *)
Lemma findDuplicates_three_grouped
  (hashOf : string -> option string) (minSizeBytes : Q) (maxFiles : nat)
  (x y z : CleanableItem) (h : string) :
  3 <= maxFiles ->
  Forall (copy_of hashOf minSizeBytes x h) [x; y; z] ->
  findDuplicates hashOf minSizeBytes maxFiles [x; y; z]
  = mkDetection (omap retain [[x; y; z]]) false.
Proof.
  intros Hcap Hcopies.
  apply Forall_cons_1 in Hcopies as [(Dx & Lx & _ & Hx) Hcopies].
  apply Forall_cons_1 in Hcopies as [(Dy & Ly & Sy & Hy) Hcopies].
  apply Forall_cons_1 in Hcopies as [(Dz & Lz & Sz & Hz) _].
  unfold findDuplicates. cbn [List.filter]. rewrite Dx, Dy, Dz, Lx, Ly, Lz.
  cbn [negb andb length].
  assert (take maxFiles [x; y; z] = [x; y; z]) as ->
    by (apply firstn_all2; cbn [length]; lia).
  assert ((maxFiles <? 3)%nat = false) as -> by (apply Nat.ltb_ge; lia).
  unfold bucket_by. cbn [fold_left add_to]. rewrite Sy.
  cbn [add_to app]. rewrite Sz.
  cbn [List.filter snd length app Nat.leb flat_map omap list_omap].
  rewrite Hx, Hy, Hz.
  cbn [option_map fold_left add_to fst app]. rewrite String.eqb_refl.
  cbn [add_to fst app]. rewrite String.eqb_refl.
  reflexivity.
Qed.

(** The files of [copy_of] have the size of one another. *)
Lemma copy_of_any hashOf minSizeBytes a x h f :
  copy_of hashOf minSizeBytes a h x ->
  copy_of hashOf minSizeBytes a h f ->
  copy_of hashOf minSizeBytes x h f.
Proof.
  intros (_ & _ & Sx & _) (Df & Lf & Sf & Hf). repeat split; auto.
  apply Qeq_bool_iff. apply Qeq_bool_iff in Sx, Sf.
  rewrite Sf, Sx. reflexivity.
Qed.

(** Three files of one size and one content, modified at T1 < T2 < T3,
    in whatever order they are enumerated: the detector returns one
    group, keeps the T3 file and reclaims the other two. *)
Lemma findDuplicates_newest_of_three
  (hashOf : string -> option string) (minSizeBytes : Q) (maxFiles : nat)
  (a b c : CleanableItem) (h : string) (t1 t2 t3 : Z)
  (enumerated : list CleanableItem) :
  3 <= maxFiles ->
  enumerated ≡ₚ [a; b; c] ->
  Forall (copy_of hashOf minSizeBytes a h) [a; b; c] ->
  modifiedAt a = Some t1 -> modifiedAt b = Some t2 -> modifiedAt c = Some t3 ->
  (t1 < t2 < t3)%Z ->
  exists g,
    findDuplicates hashOf minSizeBytes maxFiles enumerated = mkDetection [g] false
    /\ members g = enumerated
    /\ keptItem g = c
    /\ reclaimable g ≡ₚ [a; b].
Proof.
  intros Hcap Hperm Hcopies Ha Hb Hc Ht.
  pose proof (Permutation_length Hperm) as Hlen.
  destruct enumerated as [| x [| y [| z [| ? ?]]]]; try discriminate Hlen.
  assert (Hxyz : Forall (copy_of hashOf minSizeBytes a h) [x; y; z])
    by (rewrite Hperm; exact Hcopies).
  assert (Hx : copy_of hashOf minSizeBytes a h x)
    by (apply Forall_cons_1 in Hxyz; tauto).
  rewrite (findDuplicates_three_grouped hashOf minSizeBytes maxFiles x y z h Hcap).
  2: { eapply Forall_impl; [exact Hxyz |]. intros f. apply copy_of_any. exact Hx. }
  cbn [omap list_omap]. change (omap retain []) with (@nil DuplicateGroup).
  destruct (retain [x; y; z]) as [g |] eqn:Eg.
  2: { unfold retain in Eg. destruct (select x [y; z]). discriminate Eg. }
  apply retain_spec in Eg as [(_ & Hin & Hrest & Hall) Hmem].
  exists g. split; [reflexivity |]. split; [exact Hmem |].
  assert (Hkept : keptItem g = c).
  { rewrite Hmem, Hperm in Hin. rewrite Hmem, Hperm in Hall.
    apply Forall_cons_1 in Hall as [_ Hall].
    apply Forall_cons_1 in Hall as [_ Hall].
    apply Forall_cons_1 in Hall as [[Hnewest _] _].
    rewrite Hc in Hnewest.
    apply elem_of_cons in Hin as [E | Hin];
      [rewrite E, Ha in Hnewest; cbn in Hnewest; lia |].
    apply elem_of_cons in Hin as [E | Hin];
      [rewrite E, Hb in Hnewest; cbn in Hnewest; lia |].
    apply elem_of_cons in Hin as [E | Hin]; [exact E |].
    by apply elem_of_nil in Hin. }
  split; [exact Hkept |].
  rewrite Hmem, Hperm, Hkept in Hrest.
  apply (Permutation_cons_inv (a := c)).
  rewrite Hrest. symmetry. apply (Permutation_cons_append [a; b] c).
Qed.

(** C8. In every group that the detector returns, [keptItem] is a
    member that no member is more recent than, the member whose path
    comes first among the equally recent ones, and [reclaimable] holds
    exactly the other members.  So three files of one size and one
    content, modified at T1 < T2 < T3, come back as one group that keeps
    the T3 file and reclaims the other two. *)
Theorem findDuplicates_retention
  (hashOf : string -> option string) (minSizeBytes : Q) (maxFiles : nat) :
  (forall enumerated : list CleanableItem,
      Forall retention_ok
        (groups (findDuplicates hashOf minSizeBytes maxFiles enumerated)))
  /\ (forall (a b c : CleanableItem) (h : string) (t1 t2 t3 : Z)
        (enumerated : list CleanableItem),
         3 <= maxFiles ->
         enumerated ≡ₚ [a; b; c] ->
         Forall (copy_of hashOf minSizeBytes a h) [a; b; c] ->
         modifiedAt a = Some t1 -> modifiedAt b = Some t2 -> modifiedAt c = Some t3 ->
         (t1 < t2 < t3)%Z ->
         exists g,
           findDuplicates hashOf minSizeBytes maxFiles enumerated
           = mkDetection [g] false
           /\ members g = enumerated
           /\ keptItem g = c
           /\ reclaimable g ≡ₚ [a; b]).
Proof.
  split.
  - intros enumerated. unfold findDuplicates. cbn [groups].
    apply Forall_forall. intros g Hg.
    apply list_elem_of_omap in Hg as (files & _ & Hretain).
    by apply retain_spec in Hretain as [Hok _].
  - intros a b c h t1 t2 t3 enumerated. apply findDuplicates_newest_of_three.
Qed.

Lemma findDuplicates_retention_witness :
  Forall retention_ok
    (groups (findDuplicates demo_hash 1024 1000 [copy1; other2048; copy2; copy3]))
  /\ exists g,
       findDuplicates demo_hash 1024 1000 [copy3; copy1; copy2] = mkDetection [g] false
       /\ members g = [copy3; copy1; copy2]
       /\ keptItem g = copy3
       /\ reclaimable g ≡ₚ [copy1; copy2].
Proof.
  destruct (findDuplicates_retention demo_hash 1024 1000) as [Hall Hthree].
  split; [apply Hall |].
  apply (Hthree copy1 copy2 copy3 "2c26b46b"%string 1000%Z 2000%Z 3000%Z).
  - lia.
  - eapply perm_trans; [apply perm_swap | apply perm_skip, perm_swap].
  - repeat constructor.
  - reflexivity.
  - reflexivity.
  - reflexivity.
  - lia.
Defined.

Example findDuplicates_three_copies :
  findDuplicates demo_hash 1024 1000 [copy1; other2048; copy2; copy3]
  = mkDetection [mkGroup [copy1; copy2; copy3] copy3 [copy1; copy2]] false.
Proof. reflexivity. Qed.

(** Equal timestamps: the path that comes first is kept. *)
Example select_tie :
  select (mkItem "D:\b" 1 "b" false (Some 5%Z))
    [mkItem "D:\a" 1 "a" false (Some 5%Z); mkItem "D:\c" 1 "c" false (Some 5%Z)]
  = (mkItem "D:\a" 1 "a" false (Some 5%Z),
     [mkItem "D:\b" 1 "b" false (Some 5%Z); mkItem "D:\c" 1 "c" false (Some 5%Z)]).
Proof. reflexivity. Qed.

End DuplicatesSpec.

Module ListingSpec.
Import Listing Enumerator.

Lemma fold_left_pointwise {A B} (f g : A -> B -> A) (l : list B) :
  (forall a b, f a b = g a b) -> forall a, fold_left f l a = fold_left g l a.
Proof.
  intros Hfg. induction l as [| b l IH]; intros a; cbn; [reflexivity |].
  rewrite Hfg. apply IH.
Qed.

(** X4. Without filters and without recursion, [getItems] is
    [getDirectoryItems]: with [recursive] unset or false, [minAge] and
    [minSize] unset or zero and a [maxDepth] that is not negative, both
    return the same items in the same order, whatever the clock. *)
Theorem getItems_unfiltered_is_getDirectoryItems `{NodePath}
  (now : Z) (node : Tree) (dirPath : string) (options : Options) :
  default false (recursive options) = false ->
  truthy (minAge options) = false ->
  truthy (minSize options) = false ->
  (0 <= default 10 (maxDepth options))%Q ->
  getItems now node dirPath options = getDirectoryItems node dirPath.
Proof.
  intros Hrec Hage Hsize Hdepth. unfold getItems, getDirectoryItems.
  rewrite Hrec.
  assert (Hd : less (default 10%Q (maxDepth options)) (inject_Z 0) = false).
  { unfold less. apply negb_false_iff, Qle_bool_iff. exact Hdepth. }
  destruct node as [kind st | st [entries |]]; cbn [processDir]; rewrite Hd;
    try reflexivity.
  apply fold_left_pointwise. intros items [entryName child].
  destruct (stat_of child) as [stats |]; [| reflexivity].
  assert (too_new now (minAge options) stats = false) as ->.
  { unfold too_new. rewrite Hage. by destruct (minAge options). }
  assert (forall q, too_small (minSize options) q = false) as Hsmall.
  { intros q. unfold too_small. rewrite Hsize. by destruct (minSize options). }
  rewrite Hsmall. reflexivity.
Qed.

Lemma getItems_unfiltered_is_getDirectoryItems_witness :
  @getItems literal_paths clock photos "D:\photos" (mkOptions (Some false) (Some 0%Q) None (Some 0%Q))
  = @getDirectoryItems literal_paths photos "D:\photos".
Proof.
  apply (@getItems_unfiltered_is_getDirectoryItems literal_paths clock photos
           "D:\photos" (mkOptions (Some false) (Some 0%Q) None (Some 0%Q)));
    [reflexivity | reflexivity | reflexivity | apply Qle_refl].
Defined.

(** X30. The depth limit at its edges: with a negative [maxDepth],
    [getItems] returns nothing at all; with a [maxDepth] of zero (or below
    one) the recursion is switched off, and [recursive: true] returns
    what [recursive: false] returns. *)
Theorem getItems_maxDepth_edges `{NodePath}
  (now : Z) (node : Tree) (dirPath : string) (age bytes : option Q) (depth : Q) :
  ((depth < 0)%Q ->
   forall recursive,
     getItems now node dirPath (mkOptions recursive age bytes (Some depth)) = [])
  /\ ((0 <= depth)%Q -> (depth < 1)%Q ->
      getItems now node dirPath (mkOptions (Some true) age bytes (Some depth))
      = getItems now node dirPath (mkOptions (Some false) age bytes (Some depth))).
Proof.
  unfold getItems. cbn [recursive minAge minSize maxDepth].
  change (default 10%Q (Some depth)) with depth.
  change (default false (Some true)) with true.
  change (default false (Some false)) with false. split.
  - intros Hneg recursive.
    assert (less depth (inject_Z 0) = true) as Hd.
    { unfold less. apply negb_true_iff, not_true_is_false. intros E.
      apply Qle_bool_iff in E. change (inject_Z 0) with 0%Q in E.
      by apply (Qlt_not_le depth 0). }
    destruct node as [kind st | st [entries |]]; cbn [processDir]; by rewrite Hd.
  - intros Hlow Hhigh.
    assert (less depth (inject_Z 0) = false) as Hd0.
    { unfold less. apply negb_false_iff, Qle_bool_iff. exact Hlow. }
    assert (less depth (inject_Z (0 + 1)) = true) as Hd1.
    { unfold less. apply negb_true_iff, not_true_is_false. intros E.
      apply Qle_bool_iff in E. change (inject_Z (0 + 1)) with 1%Q in E.
      by apply (Qlt_not_le depth 1). }
    destruct node as [kind st | st [entries |]]; cbn [processDir]; rewrite Hd0;
      try reflexivity.
    apply fold_left_pointwise. intros items [entryName child].
    destruct (stat_of child) as [stats |]; [| reflexivity].
    destruct (too_new now age stats); [reflexivity |].
    destruct (too_small bytes _); [reflexivity |].
    destruct (is_folder child); [| reflexivity]. cbn [andb].
    destruct child as [kind st' | st' [entries' |]]; cbn [processDir]; by rewrite Hd1.
Qed.

Lemma getItems_maxDepth_edges_witness :
  (forall recursive,
      @getItems literal_paths clock photos "D:\photos"
        (mkOptions recursive None None (Some (-1)%Q)) = [])
  /\ @getItems literal_paths clock photos "D:\photos"
       (mkOptions (Some true) None None (Some 0%Q))
     = @getItems literal_paths clock photos "D:\photos"
         (mkOptions (Some false) None None (Some 0%Q)).
Proof.
  destruct (@getItems_maxDepth_edges literal_paths clock photos "D:\photos" None None
              (-1)%Q) as [Hnegative _].
  destruct (@getItems_maxDepth_edges literal_paths clock photos "D:\photos" None None
              0%Q) as [_ Hzero].
  split.
  - apply Hnegative. reflexivity.
  - apply Hzero; [apply Qle_refl | reflexivity].
Defined.

Section WithPath.
Context `{NodePath}.

(** The loop of [getDirectoryItems] from any list of items. *)
Lemma listing_loop (dirPath : string) (entries : list (string * Tree)) :
  forall items : list CleanableItem,
    exists added,
      fold_left
        (fun (items : list CleanableItem) (entry : string * Tree) =>
           let '(entryName, child) := entry in
           let fullPath := join dirPath entryName in
           match stat_of child with
           | None => items
           | Some stats =>
               let size :=
                 if is_folder child
                 then inject_Z (Z.of_N (SizeAggregator.getDirectorySize child))
                 else inject_Z (Z.of_N (st_size stats)) in
               (items ++ [mkItem fullPath size entryName (is_folder child)
                            (Some (st_mtime stats))])%list
           end)
        entries items
      = (items ++ added)%list
      /\ map name added = map fst (List.filter (fun e => statable (snd e)) entries)
      /\ Forall (fun item => path item = join dirPath (name item)) added.
Proof.
  induction entries as [| [entryName child] entries IH]; intros items.
  - exists []. cbn. by rewrite app_nil_r.
  - cbn [fold_left List.filter snd].
    match goal with
    | |- context [fold_left _ entries ?acc] =>
        destruct (IH acc) as (added & Hadd & Hnames & Hpaths)
    end.
    unfold statable at 1.
    destruct (stat_of child) as [stats |].
    + eexists (_ :: added).
      split; [etransitivity; [exact Hadd | by rewrite <- app_assoc] |].
      cbn [map name path fst]. split; [by rewrite Hnames |].
      constructor; [reflexivity | exact Hpaths].
    + exists added. auto.
Qed.

(** X5. [getDirectoryItems] lists the entries whose [stat] answers, one
    item each, in the order of the listing; the path of every item is the
    directory path joined with the entry name.  An entry whose [stat]
    throws is left out without ending the listing. *)
Theorem getDirectoryItems_lists_entries
  (st : option Stats) (entries : list (string * Tree)) (dirPath : string) :
  let found := getDirectoryItems (Folder st (Some entries)) dirPath in
  map name found = map fst (List.filter (fun e => statable (snd e)) entries)
  /\ Forall (fun item => path item = join dirPath (name item)) found.
Proof.
  intros found. subst found. unfold getDirectoryItems.
  destruct (listing_loop dirPath entries []) as (added & Hadd & Hnames & Hpaths).
  cbn [app] in Hadd. rewrite Hadd. auto.
Qed.

End WithPath.

Example getDirectoryItems_photos :
  map (fun item => (path item, size item, isDirectory item))
    (@getDirectoryItems literal_paths photos "D:\photos")
  = [ ("D:\photos\a.jpg", inject_Z 3000, false);
      ("D:\photos\2019", inject_Z 5000, true) ].
Proof. reflexivity. Qed.

End ListingSpec.

Module EmptyingSpec.
Import Fs Emptying.
Section WithEnv.
Context `{NodePath} {F : NodeFs} `{!NodeDir F}.

Lemma empty_from_cons (dirPath entryName : string) rest i total cb acc (r : Run) :
  empty_from dirPath (entryName :: rest) i total cb acc r =
  match Emptying.notify cb (i + 1) total entryName r with
  | (Ok _, r1) =>
      let target := join dirPath entryName in
      let thrown := fst (fs_rm target (world r1)) in
      empty_from dirPath rest (S i) total cb
        (match thrown with
         | None => mkEmptied (S (removed acc)) (kept acc)
         | Some _ => mkEmptied (removed acc) (S (kept acc))
         end)
        (mkRun (snd (fs_rm target (world r1))) (events r1 ++ [RmCall target thrown]))
  | (Threw e, r1) => (Threw e, r1)
  end.
Proof.
  cbn [empty_from]. unfold bind at 1.
  destruct (Emptying.notify cb (i + 1) total entryName r) as [[[] | e] r1]; [| reflexivity].
  unfold bind at 1. unfold try_catch, bind, rm, ret. cbn zeta.
  destruct (fs_rm (join dirPath entryName) (world r1)) as [[e |] w]; reflexivity.
Qed.

Lemma notify_run cb current total entryName (r : Run) :
  snd (Emptying.notify cb current total entryName r) = r
  /\ (Emptying.quiet cb -> fst (Emptying.notify cb current total entryName r) = Ok tt).
Proof.
  destruct cb as [cb |]; cbn; [| auto].
  destruct (cb current total entryName) eqn:E; cbn; split; auto.
  intros Q. rewrite Q in E. discriminate.
Qed.

(** What the loop does from any index and any counters: [evs] are the
    events it adds. *)
Lemma empty_from_run (dirPath : string) rest :
  forall i total cb acc (r : Run),
  exists evs,
    let run := empty_from dirPath rest i total cb acc r in
    events (snd run) = (events r ++ evs)%list
    /\ Forall (fun e => exists target thrown, e = RmCall target thrown) evs
    /\ sublist (rm_targets evs) (map (join dirPath) rest)
    /\ (forall e, fst run = Threw e ->
          exists current entryName f,
            cb = Some f /\ f current total entryName = Some e)
    /\ (forall res, fst run = Ok res ->
          rm_targets evs = map (join dirPath) rest
          /\ kept res = (kept acc + length (rm_failures evs))%nat
          /\ (removed res + kept res = removed acc + kept acc + length rest)%nat).
Proof.
  induction rest as [| entryName rest IH]; intros i total cb acc r.
  - exists []. cbn. rewrite app_nil_r.
    split; [reflexivity |]. split; [constructor |]. split; [constructor |].
    split; [discriminate |]. intros res [= <-]. repeat split; lia.
  - rewrite empty_from_cons.
    destruct (notify_run cb (i + 1) total entryName r) as [Hsnd _].
    destruct (Emptying.notify cb (i + 1) total entryName r) as [[[] | e] r1] eqn:En;
      cbn [snd] in Hsnd; subst r1.
    2:{ exists []. cbn [fst snd]. rewrite app_nil_r.
        split; [reflexivity |]. split; [constructor |].
        split; [apply sublist_nil_l |].
        split; [| discriminate].
        intros e' [= <-]. destruct cb as [f |]; [| discriminate En].
        cbn in En. exists (i + 1)%nat, entryName, f.
        destruct (f (i + 1)%nat total entryName); [| discriminate En].
        by injection En as ->. }
    cbn zeta.
    destruct (fs_rm (join dirPath entryName) (world r)) as [thrown w] eqn:Erm.
    cbn [fst snd].
    match goal with
    | |- context [empty_from ?d ?l ?j ?t ?c ?a ?s] =>
        destruct (IH j t c a s) as (evs & He & Hshape & Hsub & Hthrow & Hok)
    end.
    exists (RmCall (join dirPath entryName) thrown :: evs).
    cbn [events] in He. cbv zeta in *.
    split; [rewrite He, <- app_assoc; reflexivity |].
    split; [constructor; [eauto | exact Hshape] |].
    split; [cbn [rm_targets flat_map app map]; by apply sublist_skip |].
    split; [exact Hthrow |].
    intros res Hres. destruct (Hok res Hres) as (Ht & Hk & Hsum).
    cbn [rm_targets flat_map app map]. fold (rm_targets evs).
    split; [by rewrite Ht |].
    destruct thrown as [e |];
      cbn [rm_failures flat_map app length removed kept] in *;
      fold (rm_failures evs) in *; lia.
Qed.

(** X6. [emptyDirectory] never throws: whatever the directory, the mode,
    the progress callback and the file system do, it returns a pair of
    counts. *)
Theorem emptyDirectory_never_throws
  (dirPath : string) (dryRun : bool) (onProgress : option NameCallback) (r : Run) :
  exists counts, fst (emptyDirectory dirPath dryRun onProgress r) = Ok counts.
Proof.
  unfold emptyDirectory, try_catch, bind, readdir, ret.
  destruct dryRun; destruct (fs_readdir dirPath (world r)) as [entries | e]; eauto.
  destruct (empty_from dirPath entries 0 (length entries) onProgress (mkEmptied 0 0) r)
    as [[counts | e] r']; eauto.
Qed.

(** X7. A dry run of [emptyDirectory] leaves the file system as it was
    and issues no [rm]; it reports every entry of the directory as
    removed and none as failed, and 0 and 0 when the directory cannot be
    read. *)
Theorem emptyDirectory_dry_run
  (dirPath : string) (onProgress : option NameCallback) (r : Run) :
  emptyDirectory dirPath true onProgress r
  = (Ok (match fs_readdir dirPath (world r) with
         | Ok entries => mkEmptied (length entries) 0
         | Threw _ => mkEmptied 0 0
         end), r).
Proof.
  unfold emptyDirectory, try_catch, bind, readdir, ret.
  by destruct (fs_readdir dirPath (world r)).
Qed.

(** X8. A real run of [emptyDirectory] with a progress callback that
    returns: [rm] is called once per entry, in the order of the listing,
    on the directory path joined with the entry name, and on nothing
    else; [failed] counts the calls that threw and [success] the others,
    so that they add up to the number of entries. *)
Theorem emptyDirectory_removes_every_entry
  (dirPath : string) (onProgress : option NameCallback) (entries : list string)
  (r : Run) :
  Emptying.quiet onProgress ->
  fs_readdir dirPath (world r) = Ok entries ->
  exists counts r',
    emptyDirectory dirPath false onProgress r = (Ok counts, r')
    /\ exists evs,
         events r' = (events r ++ evs)%list
         /\ Forall (fun e => exists target thrown, e = RmCall target thrown) evs
         /\ rm_targets evs = map (join dirPath) entries
         /\ kept counts = length (rm_failures evs)
         /\ (removed counts + kept counts = length entries)%nat.
Proof.
  intros Hquiet Hdir. unfold emptyDirectory, try_catch, bind, readdir. rewrite Hdir.
  destruct (empty_from_run dirPath entries 0 (length entries) onProgress (mkEmptied 0 0) r)
    as (evs & He & Hshape & _ & Hthrow & Hok). cbv zeta in *.
  destruct (empty_from dirPath entries 0 (length entries) onProgress (mkEmptied 0 0) r)
    as [[counts | e] r'] eqn:E; cbn [fst snd] in *.
  - exists counts, r'. split; [reflexivity |]. exists evs.
    destruct (Hok counts eq_refl) as (Ht & Hk & Hsum). cbn in Hk, Hsum.
    repeat split; auto.
  - exfalso. destruct (Hthrow e eq_refl) as (current & entryName & f & -> & Hf).
    cbn in Hquiet. rewrite Hquiet in Hf. discriminate.
Qed.

(** The loop up to an entry for which the callback throws. *)
Lemma empty_from_interrupted (dirPath : string) (f : NameCallback) (e : Thrown)
  (culprit : string) (after : list string) (before : list string) :
  Forall (fun entryName => forall current total, f current total entryName = None) before ->
  (forall current total, f current total culprit = Some e) ->
  forall i total acc (r : Run),
  exists evs,
    let run := empty_from dirPath (before ++ culprit :: after) i total (Some f) acc r in
    fst run = Threw e
    /\ events (snd run) = (events r ++ evs)%list
    /\ rm_targets evs = map (join dirPath) before.
Proof.
  intros Hbefore Hculprit.
  induction Hbefore as [| entryName before Hname _ IH]; intros i total acc r.
  - exists []. cbn [app]. rewrite empty_from_cons. cbn [Emptying.notify].
    rewrite Hculprit. cbn. by rewrite app_nil_r.
  - cbn [app]. rewrite empty_from_cons. cbn [Emptying.notify].
    rewrite Hname. cbn zeta.
    destruct (fs_rm (join dirPath entryName) (world r)) as [thrown w] eqn:Erm.
    cbn [fst snd].
    match goal with
    | |- context [empty_from ?d ?l ?j ?t ?c ?a ?s] =>
        destruct (IH j t a s) as (evs & Hthrew & He & Ht)
    end.
    exists (RmCall (join dirPath entryName) thrown :: evs). cbv zeta in *.
    split; [exact Hthrew |].
    split; [rewrite He; cbn [events]; by rewrite <- app_assoc |].
    cbn [rm_targets flat_map app map]. fold (rm_targets evs). by rewrite Ht.
Qed.

(** X9. When the progress callback throws at an entry, [emptyDirectory]
    answers 0 removed and 0 failed, although it has already called [rm]
    on every entry before that one: the exception is caught by the outer
    [catch], which discards the counters. *)
Theorem emptyDirectory_callback_throws
  (dirPath : string) (f : NameCallback) (e : Thrown)
  (before : list string) (culprit : string) (after : list string) (r : Run) :
  fs_readdir dirPath (world r) = Ok (before ++ culprit :: after)%list ->
  Forall (fun entryName => forall current total, f current total entryName = None) before ->
  (forall current total, f current total culprit = Some e) ->
  exists r' evs,
    emptyDirectory dirPath false (Some f) r = (Ok (mkEmptied 0 0), r')
    /\ events r' = (events r ++ evs)%list
    /\ rm_targets evs = map (join dirPath) before.
Proof.
  intros Hdir Hbefore Hculprit.
  unfold emptyDirectory, try_catch, bind, readdir. rewrite Hdir.
  destruct (empty_from_interrupted dirPath f e culprit after before Hbefore Hculprit
              0 (length (before ++ culprit :: after)) (mkEmptied 0 0) r)
    as (evs & Hthrew & He & Ht). cbv zeta in *.
  destruct (empty_from dirPath (before ++ culprit :: after) 0
              (length (before ++ culprit :: after)) (Some f) (mkEmptied 0 0) r)
    as [[counts | e'] r'] eqn:E; cbn [fst snd] in *; [discriminate |].
  exists r', evs. auto.
Qed.

End WithEnv.

(** [D:\cache] emptied while the second entry is locked. *)
Example emptyDirectory_cache :
  @emptyDirectory literal_paths scripted_fs scripted_dir "D:\cache" false None
    (@mkRun scripted_fs [None; Some ebusy; None] [])
  = (Ok (mkEmptied 2 1),
     @mkRun scripted_fs []
       [ RmCall "D:\cache\a.tmp" None;
         RmCall "D:\cache\b.tmp" (Some ebusy);
         RmCall "D:\cache\c.tmp" None ]).
Proof. reflexivity. Qed.

Lemma emptyDirectory_removes_every_entry_witness :
  exists counts r',
    @emptyDirectory literal_paths scripted_fs scripted_dir "D:\cache" false None
      (@mkRun scripted_fs [None; Some ebusy; None] []) = (Ok counts, r')
    /\ exists evs,
         @events scripted_fs r' = ([] ++ evs)%list
         /\ Forall (fun e => exists target thrown, e = RmCall target thrown) evs
         /\ rm_targets evs
            = map (@join literal_paths "D:\cache") ["a.tmp"; "b.tmp"; "c.tmp"]
         /\ kept counts = length (rm_failures evs)
         /\ (removed counts + kept counts = 3)%nat.
Proof.
  apply (@emptyDirectory_removes_every_entry literal_paths scripted_fs scripted_dir
           "D:\cache" None ["a.tmp"; "b.tmp"; "c.tmp"]
           (@mkRun scripted_fs [None; Some ebusy; None] [])).
  - exact I.
  - reflexivity.
Defined.

Lemma emptyDirectory_callback_throws_witness :
  exists r' evs,
    @emptyDirectory literal_paths scripted_fs scripted_dir "D:\cache" false
      (Some stop_at_b) (@mkRun scripted_fs [] [])
    = (Ok (mkEmptied 0 0), r')
    /\ @events scripted_fs r' = ([] ++ evs)%list
    /\ rm_targets evs = map (@join literal_paths "D:\cache") ["a.tmp"].
Proof.
  apply (@emptyDirectory_callback_throws literal_paths scripted_fs scripted_dir
           "D:\cache" stop_at_b (NonError "stop") ["a.tmp"] "b.tmp" ["c.tmp"]
           (@mkRun scripted_fs [] [])).
  - reflexivity.
  - repeat constructor.
  - reflexivity.
Defined.

End EmptyingSpec.

Module CleaningSpec.
Import Fs Emptying Cleaning.

Lemma Math_max_nonneg (x : Q) : (0 <= Math_max 0 x)%Q.
Proof.
  unfold Math_max, less. destruct (Qle_bool x 0) eqn:E; cbn; [apply Qle_refl |].
  destruct (Qlt_le_dec 0 x) as [Hlt | Hle]; [by apply Qlt_le_weak |].
  apply Qle_bool_iff in Hle. congruence.
Qed.

Lemma Math_max_same (x : Q) : Math_max 0 (x - x) = 0%Q.
Proof.
  unfold Math_max, less.
  assert (Qle_bool (x - x) 0 = true) as ->; [| reflexivity].
  apply Qle_bool_iff, Qle_lteq. right. apply Qplus_opp_r.
Qed.

Section WithEnv.
Context `{NodePath} {F : NodeFs} `{!NodeDir F} `{!NodeStat F} `{ProbeEnv}.

(** [emptyDirectory] without a callback, in either mode. *)
Lemma emptyDirectory_run (dirPath : string) (dryRun : bool) (r : Run) :
  exists counts r' evs,
    emptyDirectory dirPath dryRun None r = (Ok counts, r')
    /\ events r' = (events r ++ evs)%list
    /\ Forall (fun target => exists entryName, target = join dirPath entryName)
         (rm_targets evs)
    /\ (dryRun = true ->
        r' = r /\ evs = [] /\ counts = mkEmptied (entries_at (world r) dirPath) 0)
    /\ (dryRun = false ->
        (removed counts + length (rm_failures evs) = length (rm_targets evs))%nat).
Proof.
  unfold emptyDirectory, try_catch, bind, readdir, ret, entries_at.
  destruct dryRun.
  - destruct (fs_readdir dirPath (world r)) as [entries | e];
      eexists _, r, []; rewrite app_nil_r; repeat split; auto; discriminate.
  - destruct (fs_readdir dirPath (world r)) as [entries | e].
    2:{ eexists _, r, []. rewrite app_nil_r. repeat split; auto; discriminate. }
    destruct (EmptyingSpec.empty_from_run dirPath entries 0 (length entries) None
                (mkEmptied 0 0) r) as (evs & He & _ & Hsub & Hthrow & Hok).
    cbv zeta in *.
    destruct (empty_from dirPath entries 0 (length entries) None (mkEmptied 0 0) r)
      as [[counts | e] r'] eqn:E; cbn [fst snd] in *.
    + destruct (Hok counts eq_refl) as (Ht & Hk & Hsum). cbn in Hk, Hsum.
      exists counts, r', evs. split; [reflexivity |]. split; [exact He |].
      split.
      * rewrite Ht. apply Forall_forall. intros t Ht'.
        apply list_elem_of_fmap in Ht' as (entryName & -> & _). eauto.
      * split; [discriminate |]. intros _. rewrite Ht, length_map. lia.
    + destruct (Hthrow e eq_refl) as (? & ? & f & Hf & _). discriminate.
Qed.

Lemma getSize_run (p : string) (r : Run) :
  exists q, getSize p r = (Ok q, r) /\ True.
Proof. unfold getSize. eauto. Qed.

(** One turn of the loop of [clean]. *)
Lemma clean_item_run (dryRun : bool) (acc : Tally) (item : CleanableItem) (r : Run) :
  exists t r' evs,
    clean_item dryRun acc item r = (Ok t, r')
    /\ events r' = (events r ++ evs)%list
    /\ Forall (fun target => exists entryName, target = join (path item) entryName)
         (rm_targets evs)
    /\ ((0 <= freed acc)%Q -> (0 <= freed t)%Q)
    /\ (length (reported t) <= S (length (reported acc)))%nat
    /\ (dryRun = true ->
        r' = r /\ evs = []
        /\ cleaned t = (cleaned acc + entries_at (world r) (path item))%nat
        /\ freed t = (freed acc + 0)%Q
        /\ reported t = reported acc)
    /\ (dryRun = false ->
        (cleaned t + length (rm_failures evs)
         = cleaned acc + length (rm_targets evs))%nat).
Proof.
  unfold clean_item, try_catch. unfold bind at 1.
  set (before := if truthy (Some (size item)) then ret (size item) else getSize (path item)).
  assert (Hb : exists q, before r = (Ok q, r)).
  { subst before. destruct (truthy (Some (size item))); unfold ret, getSize; eauto. }
  destruct Hb as (sizeBefore & ->). unfold bind at 1.
  destruct (emptyDirectory_run (path item) dryRun r)
    as (counts & r1 & evs & -> & He & Htargets & Hdry & Hreal).
  unfold bind at 1.
  set (after := if dryRun then ret sizeBefore else getSize (path item)).
  assert (Ha : exists q, after r1 = (Ok q, r1) /\ (dryRun = true -> q = sizeBefore)).
  { subst after. destruct dryRun; unfold ret, getSize; eauto.
    eexists. split; [reflexivity | discriminate]. }
  destruct Ha as (sizeAfter & -> & Hsame). unfold ret.
  eexists _, r1, evs. split; [reflexivity |]. split; [exact He |].
  split; [exact Htargets |]. cbn [cleaned freed reported].
  split.
  { intros Hacc. pose proof (Math_max_nonneg (sizeBefore - sizeAfter)) as Hm.
    apply (Qplus_le_compat 0 (freed acc) 0 _ Hacc) in Hm.
    by rewrite Qplus_0_l in Hm. }
  split.
  { destruct (0 <? kept counts)%nat; unfold push; [rewrite length_app; cbn |]; lia. }
  split.
  - intros ->. destruct (Hdry eq_refl) as (-> & -> & ->).
    rewrite (Hsame eq_refl), Math_max_same. cbn [removed kept Nat.ltb Nat.leb].
    repeat split; reflexivity.
  - intros Hd. specialize (Hreal Hd). lia.
Qed.

Lemma clean_from_run (dryRun : bool) (items : list CleanableItem) :
  forall (acc : Tally) (r : Run),
  exists t r' evs,
    clean_from dryRun items acc r = (Ok t, r')
    /\ events r' = (events r ++ evs)%list
    /\ Forall (fun target =>
                 exists item entryName,
                   item ∈ items /\ target = join (path item) entryName)
         (rm_targets evs)
    /\ ((0 <= freed acc)%Q -> (0 <= freed t)%Q)
    /\ (length (reported t) <= length (reported acc) + length items)%nat
    /\ (dryRun = true ->
        r' = r /\ evs = []
        /\ cleaned t
           = (cleaned acc
              + list_sum (map (fun item => entries_at (world r) (path item)) items))%nat
        /\ (freed t == freed acc)%Q
        /\ reported t = reported acc)
    /\ (dryRun = false ->
        (cleaned t + length (rm_failures evs)
         = cleaned acc + length (rm_targets evs))%nat).
Proof.
  induction items as [| item items IH]; intros acc r.
  - exists acc, r, []. cbn. rewrite app_nil_r.
    repeat split; auto; try lia.
  - cbn [clean_from]. unfold bind.
    destruct (clean_item_run dryRun acc item r)
      as (t1 & r1 & evs1 & -> & He1 & Ht1 & Hf1 & Hl1 & Hdry1 & Hreal1).
    destruct (IH t1 r1) as (t & r' & evs & -> & He & Ht & Hf & Hl & Hdry & Hreal).
    exists t, r', (evs1 ++ evs)%list. split; [reflexivity |].
    split; [by rewrite He, He1, <- app_assoc |].
    rewrite FsSpec.rm_targets_app, FsSpec.rm_failures_app, !length_app.
    split.
    { apply Forall_app. split.
      - eapply Forall_impl; [exact Ht1 |]. intros target (entryName & ->).
        exists item, entryName. split; [apply list_elem_of_here | reflexivity].
      - eapply Forall_impl; [exact Ht |]. intros target (it & entryName & Hin & ->).
        exists it, entryName. split; [by apply list_elem_of_further | reflexivity]. }
    split; [auto |]. split; [cbn [length]; lia |].
    split.
    + intros Hd. destruct (Hdry1 Hd) as (-> & -> & Hc1 & Hfreed1 & Hr1).
      destruct (Hdry Hd) as (-> & -> & Hc & Hfreed & Hr).
      repeat split; auto.
      * rewrite Hc, Hc1. cbn [map list_sum fold_right]. unfold list_sum. lia.
      * rewrite Hfreed, Hfreed1. apply Qplus_0_r.
      * congruence.
    + intros Hd. specialize (Hreal1 Hd). specialize (Hreal Hd). lia.
Qed.

(** X10. A dry run of the directory scanners' [clean] (temp files,
    system logs, Windows Update) leaves the file system as it was and
    issues no [rm]; it counts every entry of the item directories as
    cleaned, reports no error, and reports 0 bytes as freed: the size
    after is taken to be the size before. *)
Theorem directory_clean_dry_run
  (cat : Category) (items : list CleanableItem) (r : Run) :
  exists res,
    directory_clean cat items true r = (Ok res, r)
    /\ cleanedItems res
       = list_sum (map (fun item => entries_at (world r) (path item)) items)
    /\ (reclaimed res == 0)%Q
    /\ errors res = [].
Proof.
  unfold directory_clean, bind.
  destruct (clean_from_run true items (mkTally 0 0 []) r)
    as (t & r' & evs & -> & _ & _ & _ & _ & Hdry & _).
  destruct (Hdry eq_refl) as (-> & _ & Hc & Hf & Hr). cbn in Hc, Hf, Hr.
  eexists. split; [reflexivity |]. cbn. auto.
Qed.


End WithEnv.

(** The cache directory cleaned while its second entry is locked, and
    the same in a dry run. *)
Example directory_clean_cache :
  fst (@directory_clean literal_paths scripted_fs scripted_dir scripted_stat
         (mkCategory "cache" "Cache" "" safe None) [cache_item] false
         (@mkRun scripted_fs [None; Some ebusy; None] []))
  = Ok (mkCleanResult (mkCategory "cache" "Cache" "" safe None) 2 (0 + 3)
          ["Failed to remove 1 entries from Cache"])
  /\ fst (@directory_clean literal_paths scripted_fs scripted_dir scripted_stat
            (mkCategory "cache" "Cache" "" safe None) [cache_item] true
            (@mkRun scripted_fs [None; Some ebusy; None] []))
     = Ok (mkCleanResult (mkCategory "cache" "Cache" "" safe None) 3 (0 + 0) []).
Proof. split; reflexivity. Qed.

Section WithShell.
Context `{Shell} `{ProbeEnv}.

(** X12. [DockerScanner.clean] is all or nothing.  A dry run runs no
    command and reports every item as cleaned and the sum of their sizes
    as freed; a real run runs [docker system prune -af --volumes] once
    and reports the same when the command succeeds, and 0 items, 0 bytes
    and one error when it fails. *)
Theorem DockerScanner_clean_all_or_nothing (items : list CleanableItem) (m : Machine) :
  let simulated := mkCleanResult (CATEGORIES "docker") (length items) (sum_sizes items) [] in
  DockerScanner_clean items true m = (simulated, m, [])
  /\ match DockerScanner_clean items false m with
     | (res, m', commands) =>
         commands = [prune] /\ m' = snd (sh_exec prune m)
         /\ match fst (sh_exec prune m) with
            | Ok _ => res = simulated
            | Threw _ =>
                cleanedItems res = 0%nat /\ reclaimed res = 0%Q
                /\ length (errors res) = 1%nat
            end
     end.
Proof.
  cbn zeta. split; [reflexivity |]. unfold DockerScanner_clean.
  destruct (sh_exec prune m) as [[out | e] m']; cbn; auto.
Qed.

End WithShell.

Example DockerScanner_clean_fails :
  @DockerScanner_clean docker_machine demo_machine [cache_item] false false
  = (mkCleanResult (mkCategory "docker" "docker" "" safe None) 0 0
       ["Docker cleanup failed: Error: Command failed: docker system prune -af --volumes"],
     false, ["docker system prune -af --volumes"]).
Proof. reflexivity. Qed.

End CleaningSpec.

Module ProbesSpec.
Import Scanners Text.

Lemma sum_sizes_from (found : list CleanableItem) :
  Forall (fun item => (0 < size item)%Q) found ->
  forall acc : Q,
    (acc <= fold_left (fun sum item => (sum + size item)%Q) found acc)%Q
    /\ (found <> [] -> (acc < fold_left (fun sum item => (sum + size item)%Q) found acc)%Q).
Proof.
  induction 1 as [| item found Hitem _ IH]; intros acc; cbn [fold_left].
  - split; [apply Qle_refl | congruence].
  - destruct (IH (acc + size item)%Q) as [Hle _].
    assert (Hlt : (acc < acc + size item)%Q).
    { rewrite <- (Qplus_0_r acc) at 1. by apply Qplus_lt_r. }
    split; [| intros _]; [apply Qlt_le_weak |]; eapply Qlt_le_trans; eauto.
Qed.

(** A result built from items of positive size has a total of zero
    exactly when it has no item. *)
Lemma createResult_zero (cat : Category) (found : list CleanableItem) :
  Forall (fun item => (0 < size item)%Q) found ->
  (totalSize (createResult cat found) == 0)%Q <-> items (createResult cat found) = [].
Proof.
  intros Hpos. cbn. unfold Fs.sum_sizes. split.
  - intros Hzero. destruct found as [| item found]; [reflexivity |].
    destruct (sum_sizes_from _ Hpos 0%Q) as [_ Hlt].
    specialize (Hlt ltac:(discriminate)). rewrite Hzero in Hlt.
    by apply Qlt_irrefl in Hlt.
  - intros ->. reflexivity.
Qed.

Lemma docker_lines_items (lines : list string) :
  forall found, Forall docker_item found -> Forall docker_item (docker_lines lines found).
Proof.
  induction lines as [| line lines IH]; intros found Hfound; cbn [docker_lines];
    [exact Hfound |].
  destruct (nth_error (split tab line) 2) as [reclaimable |]; [| exact Hfound].
  apply IH. destruct (parseDockerSize reclaimable) as [bytes |]; [| exact Hfound].
  destruct (less 0 bytes) eqn:Hpos; [| exact Hfound].
  apply Forall_app. split; [exact Hfound |]. constructor; [| constructor].
  unfold docker_item. cbn. repeat split; eauto.
  unfold less in Hpos. apply negb_true_iff in Hpos.
  apply Qnot_le_lt. intros Hle. apply Qle_bool_iff in Hle. congruence.
Qed.

Lemma split_from_length (sep : ascii) (s : string) :
  forall field, length (split_from sep s field) = S (occurrences sep s).
Proof.
  induction s as [| c s IH]; intros field; cbn [split_from occurrences]; [reflexivity |].
  destruct (Ascii.eqb c sep); cbn [length]; rewrite IH; reflexivity.
Qed.

Section WithEnv.
Context `{NodePath} `{ProbeEnv}.

(** X13. No probe of the sources (Docker, temp files, system logs,
    Windows Update) reports an item of size zero, and the [totalSize] of
    its result is zero exactly when it found nothing. *)
Theorem scan_reports_positive_sizes :
  Forall (fun result =>
            Forall (fun item => (0 < size item)%Q) (items result)
            /\ ((totalSize result == 0)%Q <-> items result = []))
    [ DockerScanner_scan; TempFilesScanner_scan; SystemLogsScanner_scan;
      WindowsUpdateScanner_scan ].
Proof.
  assert (Hdocker : Forall (fun item => (0 < size item)%Q) (items DockerScanner_scan)).
  { cbn [items DockerScanner_scan createResult].
    destruct docker_df as [stdout | e]; [| constructor].
    eapply Forall_impl; [apply docker_lines_items; constructor |].
    intros item Hitem. exact (proj1 Hitem). }
  assert (Hprobe : forall p label found,
             Forall (fun item => (0 < size item)%Q) found ->
             Forall (fun item => (0 < size item)%Q) (probe p label found))
    by (intros; by apply ScannersSpec.probe_positive).
  repeat constructor; try (apply createResult_zero);
    try exact Hdocker; cbn [items createResult]; repeat apply Hprobe; constructor.
Qed.

(** X14. Every item of [DockerScanner.scan] is a pseudo-path
    [docker:<type>] in lower case, named [Docker <type>], not a
    directory, without a modification date, and of positive size. *)
Theorem DockerScanner_scan_items :
  Forall docker_item (items DockerScanner_scan).
Proof.
  cbn [items DockerScanner_scan createResult].
  destruct docker_df as [stdout | e]; [| constructor].
  apply docker_lines_items. constructor.
Qed.

End WithEnv.

(** X15. A line of [docker system df] with fewer than three
    tab-separated fields ends the scan: the items found before it are
    kept, and the lines after it are not looked at. *)
Theorem docker_lines_stop_at_short_line
  (before : list string) (short : string) (after : list string)
  (found : list CleanableItem) :
  occurrences tab short < 2 ->
  docker_lines (before ++ short :: after) found = docker_lines before found.
Proof.
  intros Hshort. revert found.
  induction before as [| line before IH]; intros found; cbn [app docker_lines].
  - assert (nth_error (split tab short) 2 = None) as ->; [| reflexivity].
    apply nth_error_None. unfold split. rewrite split_from_length. lia.
  - destruct (nth_error (split tab line) 2); [apply IH | reflexivity].
Qed.

Lemma docker_lines_stop_at_short_line_witness :
  docker_lines (["Images" ++ String tab ("1GB" ++ String tab "1GB")]
                ++ "WARNING: daemon not reachable"
                :: ["Volumes" ++ String tab ("2GB" ++ String tab "2GB")]) []
  = docker_lines ["Images" ++ String tab ("1GB" ++ String tab "1GB")] [].
Proof.
  apply (docker_lines_stop_at_short_line
           ["Images" ++ String tab ("1GB" ++ String tab "1GB")]
           "WARNING: daemon not reachable"
           ["Volumes" ++ String tab ("2GB" ++ String tab "2GB")] []).
  vm_compute. lia.
Defined.

(** *** [parseDockerSize] on a whole number and a unit *)

Lemma append_empty (s : string) : "" ++ s = s.
Proof. reflexivity. Qed.

Lemma append_String (c : ascii) (s t : string) : String c s ++ t = String c (s ++ t).
Proof. reflexivity. Qed.

Lemma takeWhile_all (f : ascii -> bool) (s rest : string) :
  all_chars f s = true ->
  match rest with String c _ => f c = false | EmptyString => True end ->
  takeWhile f (s ++ rest) = s /\ dropWhile f (s ++ rest) = rest.
Proof.
  intros Hall Hrest.
  induction s as [| c s IH]; rewrite ?append_empty, ?append_String;
    cbn [all_chars takeWhile dropWhile] in *.
  - destruct rest as [| c rest]; cbn [takeWhile dropWhile]; [auto |].
    cbv beta iota in Hrest. rewrite Hrest. auto.
  - apply andb_true_iff in Hall as [-> Hall]. destruct (IH Hall) as [-> ->]. auto.
Qed.

Lemma all_digits_or_dots (s : string) :
  all_chars is_digit s = true -> all_chars is_digit_or_dot s = true.
Proof.
  induction s as [| c s IH]; cbn; [reflexivity |].
  intros [Hc Hs]%andb_true_iff. unfold is_digit_or_dot. rewrite Hc. cbn. auto.
Qed.

Lemma parseFloat_digits (digits : string) :
  digits <> "" -> all_chars is_digit digits = true ->
  exists q, parseFloat digits = Some q /\ (q == inject_Z (digits_value digits 0))%Q.
Proof.
  intros Hne Hall. unfold parseFloat.
  assert (Ht' : takeWhile is_digit digits = digits).
  { clear - Hall. induction digits as [| c s IH]; cbn in *; [reflexivity |].
    apply andb_true_iff in Hall as [-> Hall]. by rewrite IH. }
  assert (Hd' : dropWhile is_digit digits = "").
  { clear - Hall. induction digits as [| c s IH]; cbn in *; [reflexivity |].
    apply andb_true_iff in Hall as [-> Hall]. by apply IH. }
  rewrite Ht', Hd'. destruct digits as [| c s]; [done |].
  eexists. split; [reflexivity |]. cbn [digits_value String.length Z.of_nat Z.pow].
  unfold Qdiv. rewrite Qmult_0_l, Qplus_0_r. reflexivity.
Qed.

(** X16. [parseDockerSize] on a whole number, optional white space and a
    unit of its table ([B], [kB], [KB], [MB], [GB], [TB], or one of them
    in lower case), whatever follows: the number times the multiplier of
    the unit, where [kB] counts 1000 bytes and [KB] 1024.  The product is
    taken to be at most 2^53: up to there the number read, the multiplier
    and their product are whole numbers that a double holds exactly. *)
Theorem parseDockerSize_whole_number (digits spaces unit rest : string) :
  digits <> "" ->
  all_chars is_digit digits = true ->
  all_chars is_space spaces = true ->
  In unit (map fst multipliers) ->
  (inject_Z (digits_value digits 0) * multiplier unit <= inject_Z (2 ^ 53))%Q ->
  exists q,
    parseDockerSize (digits ++ spaces ++ unit ++ rest) = Some q
    /\ (q == inject_Z (digits_value digits 0) * multiplier unit)%Q.
Proof.
  intros Hne Hdigits Hspaces Hunit _.
  assert (Hu : unit_at (unit ++ rest) = Some unit
               /\ match unit ++ rest with
                  | String c _ => is_space c = false /\ is_digit_or_dot c = false
                  | EmptyString => True
                  end).
  { cbn in Hunit.
    repeat (destruct Hunit as [<- | Hunit]; [split; [reflexivity | split; reflexivity] |]).
    destruct Hunit. }
  destruct Hu as [Hat Hfirst].
  assert (Hs : dropWhile is_space (spaces ++ unit ++ rest) = unit ++ rest).
  { apply takeWhile_all; [exact Hspaces |].
    destruct (unit ++ rest); [exact I | apply Hfirst]. }
  assert (Hd : takeWhile is_digit_or_dot (digits ++ spaces ++ unit ++ rest) = digits
               /\ dropWhile is_digit_or_dot (digits ++ spaces ++ unit ++ rest)
                  = spaces ++ unit ++ rest).
  { apply takeWhile_all; [by apply all_digits_or_dots |].
    destruct spaces as [| c spaces]; rewrite ?append_empty, ?append_String.
    - destruct (unit ++ rest); [exact I | apply Hfirst].
    - cbn in Hspaces. apply andb_true_iff in Hspaces as [Hc _].
      revert Hc. unfold is_space, is_digit_or_dot, is_digit.
      destruct c as [[] [] [] [] [] [] [] []]; vm_compute; congruence. }
  destruct Hd as [Htake Hdrop].
  unfold parseDockerSize.
  assert (size_match (digits ++ spaces ++ unit ++ rest) = Some (digits, unit)) as ->.
  { destruct digits as [| c digits]; [done |].
    rewrite append_String in *. cbn [size_match].
    cbn in Hdigits. apply andb_true_iff in Hdigits as [Hc _].
    unfold is_digit_or_dot at 1. rewrite Hc. cbn [orb].
    rewrite Hdrop, Hs, Hat, Htake. reflexivity. }
  destruct (parseFloat_digits digits Hne Hdigits) as (q & -> & Hq).
  eexists. split; [reflexivity |]. by rewrite Hq.
Qed.

Lemma parseDockerSize_whole_number_witness :
  exists q,
    parseDockerSize ("12" ++ " " ++ "kB" ++ " (40%)") = Some q
    /\ (q == inject_Z (digits_value "12" 0) * multiplier "kB")%Q.
Proof.
  apply (parseDockerSize_whole_number "12" " " "kB" " (40%)").
  - discriminate.
  - reflexivity.
  - reflexivity.
  - cbn. tauto.
  - vm_compute. discriminate.
Defined.

End ProbesSpec.

Module SafePathsSpec.
Import Paths SafePaths Text.



Section WithEnv.
Context `{NodePath} `{ProbeEnv}.


End WithEnv.


Example isSafePath_cases :
  @isSafePath literal_paths demo_machine "C:\Users\me\Downloads\a.zip" = true
  /\ @isSafePath literal_paths demo_machine "D:\Projects\a.zip" = false
  /\ @isSafePath literal_paths demo_machine "C:\Windows\Temp\a.tmp" = false.
Proof. repeat split; reflexivity. Qed.

(** *** The tilde *)

Lemma getSubstitution_plain (matched before after template : string) :
  occurrences "$" template = 0 ->
  getSubstitution matched before after template = template.
Proof.
  induction template as [| c tl IH]; cbn [getSubstitution occurrences]; [reflexivity |].
  destruct (Ascii.eqb c "$"); [discriminate |]. cbn. intros Htl. by rewrite IH.
Qed.

Lemma substring_all (s : string) : String.substring 0 (String.length s) s = s.
Proof. induction s as [| c s IH]; cbn; [reflexivity | by rewrite IH]. Qed.

Section WithPath.
Context `{NodePath}.

Lemma tildeExpand_leading (rest : string) :
  occurrences "$" HOME = 0 ->
  tildeExpand (String "~" rest) = HOME ++ rest.
Proof.
  intros Hplain. unfold tildeExpand, startsWith, Js.replace.
  cbn [String.prefix String.index String.length Nat.add Nat.sub].
  destruct (ascii_dec "~" "~") as [_ | Hne]; [| done].
  cbn [String.prefix String.substring String.length Nat.add Nat.sub].
  assert (String.prefix "" rest = true) as -> by (by destruct rest).
  cbn [String.substring Nat.add Nat.sub].
  rewrite Nat.sub_0_r, substring_all, getSubstitution_plain by exact Hplain.
  reflexivity.
Qed.

(** X18. [expandPath] puts the home directory in the place of a leading
    tilde, provided the home directory holds no dollar sign (which
    [String.prototype.replace] would read as a pattern): on [~rest] it
    returns the normalised, resolved [HOME ++ rest], or throws when that
    is a protected system path. *)
Theorem expandPath_leading_tilde (rest : string) :
  occurrences "$" HOME = 0 ->
  let target := normalize (resolve (HOME ++ rest)) in
  expandPath (String "~" rest)
  = if isSystemPath target
    then Threw (unsafe_path_error (String "~" rest))
    else Ok target.
Proof.
  intros Hplain. cbn zeta. unfold expandPath. by rewrite tildeExpand_leading.
Qed.

End WithPath.

Lemma expandPath_leading_tilde_witness :
  @expandPath literal_paths (String "~" "\Downloads")
  = if @isSystemPath literal_paths "C:\Users\me\Downloads"
    then Threw (@unsafe_path_error (String "~" "\Downloads"))
    else Ok "C:\Users\me\Downloads".
Proof.
  apply (@expandPath_leading_tilde literal_paths "\Downloads"). reflexivity.
Defined.

End SafePathsSpec.

Module SuggestionsSpec.
Import Errors Suggestions.

(** X19. A classified error is recoverable exactly when it is an [Error]
    whose [code] is [EBUSY], [ENOTEMPTY] or [ETIMEDOUT]: a value that is
    not an [Error], an [Error] without code and every other code are not
    retried. *)
Theorem isRecoverableError_classifyError (error : Thrown) (p : option string) :
  isRecoverableError (classifyError error p) = true
  <-> exists c msg, error = JsError (Some c) msg /\ In c retryable_codes.
Proof.
  split.
  - destruct error as [[c |] msg | text]; try discriminate.
    unfold isRecoverableError, classifyError, classifyCode.
    destruct (String.eqb_spec c "EACCES") as [-> | _]; [discriminate |].
    destruct (String.eqb_spec c "EPERM") as [-> | _]; [discriminate |].
    destruct (String.eqb_spec c "ENOENT") as [-> | _]; [discriminate |].
    destruct (String.eqb_spec c "EBUSY") as [-> | _];
      [intros _; exists "EBUSY", msg; cbn; auto |].
    destruct (String.eqb_spec c "ENOTEMPTY") as [-> | _];
      [intros _; exists "ENOTEMPTY", msg; cbn; auto |].
    destruct (String.eqb_spec c "ENAMETOOLONG") as [-> | _]; [discriminate |].
    destruct (String.eqb_spec c "ENOSPC") as [-> | _]; [discriminate |].
    destruct (String.eqb_spec c "ETIMEDOUT") as [-> | _];
      [intros _; exists "ETIMEDOUT", msg; cbn; auto |].
    discriminate.
  - intros (c & msg & -> & Hc). cbn in Hc.
    destruct Hc as [<- | [<- | [<- | []]]]; reflexivity.
Qed.

(** X20. The suggestion for an error classified with a path starts with
    that path, and for an error that falls outside the taxonomy it passes
    the error's own message through. *)
Theorem getErrorSuggestion_names_path (error : Thrown) (p : string) :
  exists advice,
    getErrorSuggestion (classifyError error (Some p)) = p ++ " - " ++ advice
    /\ (code (classifyError error (Some p)) = UNKNOWN ->
        advice = match error with JsError _ msg => msg | NonError text => text end).
Proof.
  unfold getErrorSuggestion, subject.
  assert (Hp : errPath (classifyError error (Some p)) = Some p).
  { destruct error as [c msg | text]; cbn; [| reflexivity].
    by destruct (classifyCode c) as [[k text] |]. }
  rewrite Hp.
  destruct (code (classifyError error (Some p))) eqn:Ecode;
    try (eexists; split; [reflexivity | discriminate]).
  exists (message (classifyError error (Some p))). split; [reflexivity |]. intros _.
  destruct error as [c msg | text]; cbn in *; [| reflexivity].
  destruct (classifyCode c) as [[k text] |] eqn:Ec; [| reflexivity].
  cbn in Ecode. subst k. exfalso. unfold classifyCode in Ec.
  destruct c as [c |]; [| discriminate].
  repeat match type of Ec with
         | (if ?b then _ else _) = _ => destruct b; [discriminate |]
         end.
  discriminate.
Qed.

Example getErrorSuggestion_cases :
  getErrorSuggestion (classifyError eacces (Some "D:\x")) 
  = "D:\x - Access denied. Try running as administrator."
  /\ getErrorSuggestion (classifyError (NonError "boom") None) = "Operation - boom"
  /\ getErrorSuggestion (classifyError ebusy None)
     = "File - In use. Close related applications and try again.".
Proof. repeat split; reflexivity. Qed.

End SuggestionsSpec.

Module SettingsSpec.
Import Settings.

Lemma is_builtin_false (k : string) :
  is_builtin k = false ->
  BUILTIN_PROFILES !! k = None /\ (k ∉ object_prototype_keys) /\ k <> "__proto__".
Proof.
  unfold is_builtin, has, inherited. cbn [own proto builtins].
  intros [Hown Hproto]%orb_false_iff.
  apply bool_decide_eq_false in Hown, Hproto.
  split; [by apply eq_None_not_Some |]. split; [exact Hproto |].
  intros ->. apply Hproto. unfold object_prototype_keys.
  repeat (apply list_elem_of_here || apply list_elem_of_further).
Qed.

Lemma get_set (o : Obj) (k : string) (p : CleaningProfile) :
  has (set o k p) k = true /\ get (set o k p) k = Found p.
Proof.
  unfold has, get, set. cbn [own]. rewrite lookup_insert_eq.
  split; [| reflexivity]. apply orb_true_iff. left. by apply bool_decide_eq_true.
Qed.

Lemma get_remove (o : Obj) (k : string) :
  k <> "__proto__" -> forall p, get (remove o k) k <> Found p.
Proof.
  intros Hk p. unfold get, remove. cbn [own proto]. rewrite lookup_delete_eq.
  apply String.eqb_neq in Hk. rewrite Hk.
  by destruct (inherited _ k).
Qed.

Lemma get_builtins_custom (k : string) :
  is_builtin k = false -> get builtins k = Undefined.
Proof.
  intros Hk. pose proof Hk as Hb.
  apply is_builtin_false in Hk as (Hown & Hproto & Hne).
  unfold get. cbn [own proto builtins]. rewrite Hown.
  apply String.eqb_neq in Hne. rewrite Hne.
  unfold is_builtin, has in Hb. apply orb_false_iff in Hb as [_ ->]. reflexivity.
Qed.

Lemma customProfiles_spec (o : Obj) (k : string) (p : CleaningProfile) :
  customProfiles o !! k = Some p <-> own o !! k = Some p /\ is_builtin k = false.
Proof. unfold customProfiles. apply map_lookup_filter_Some. Qed.

Section WithEnv.
Context `{NodePath} `{ProbeEnv} `{ConfigFs}.

Lemma loadProfiles_run (s : State) :
  exists o,
    loadProfiles s
    = (Ok o, mkState (drive s) (cachedConfig s) (Some o) (journal s))
    /\ (cachedProfiles s = None -> fs_access PROFILES_FILE (drive s) = true ->
        forall custom, read_profiles PROFILES_FILE (drive s) = Some custom ->
                       o = assign builtins custom).
Proof.
  unfold loadProfiles. destruct s as [d cc [cached |] j]; cbn [cachedProfiles drive].
  - exists cached. split; [reflexivity | discriminate].
  - eexists. split; [reflexivity |]. intros _ -> custom ->. reflexivity.
Qed.

Lemma persist_run (o : Obj) (s : State) :
  exists calls,
    journal (snd (persist o s)) = (journal s ++ calls)%list
    /\ writes_only (customProfiles o) calls
    /\ cachedConfig (snd (persist o s)) = cachedConfig s
    /\ (cachedProfiles s = Some o -> cachedProfiles (snd (persist o s)) = Some o).
Proof.
  unfold persist, bind, mkdir, writeFile, set_cachedProfiles, writes_only.
  destruct (fs_mkdir (dirname PROFILES_FILE) (drive s)) as [[e |] d1]; cbn.
  { eexists [_]. repeat split; auto. }
  destruct (fs_writeFile PROFILES_FILE (ProfilesJson (customProfiles o)) d1)
    as [[e |] d2]; cbn;
    (eexists [_; _]; rewrite <- app_assoc; repeat split; auto).
Qed.

(** X21. After [saveProfile(profile)] with an id that is not built in,
    [getProfile(profile.id)] answers that profile, also when the
    directory or the file could not be written: the profile is put into
    the cached object before anything is saved. *)
Theorem saveProfile_then_getProfile (profile : CleaningProfile) (s : State) :
  is_builtin (profileId profile) = false ->
  getProfile (profileId profile) (snd (saveProfile profile s)) = Found profile.
Proof.
  intros Hcustom. unfold saveProfile, bind at 1.
  destruct (loadProfiles_run s) as (o & -> & _). rewrite Hcustom.
  unfold bind at 1, set_cachedProfiles at 1. cbn [drive cachedConfig journal].
  match goal with
  | |- context [persist ?o' ?s'] =>
      destruct (persist_run o' s') as (calls & _ & _ & _ & Hcache)
  end.
  specialize (Hcache eq_refl). unfold getProfile. rewrite Hcache.
  destruct (get_set o (profileId profile) profile) as [-> ->]. reflexivity.
Qed.

(** X22. Built-in profiles are protected: for an id that is built in (or
    that [Object.prototype] defines), [saveProfile] and [deleteProfile]
    throw, and neither touches the disk. *)
Theorem builtin_profiles_protected (profile : CleaningProfile) (s : State) :
  is_builtin (profileId profile) = true ->
  (fst (saveProfile profile s)
   = Threw (JsError None ("Cannot overwrite built-in profile: " ++ profileId profile))
   /\ drive (snd (saveProfile profile s)) = drive s
   /\ journal (snd (saveProfile profile s)) = journal s)
  /\ deleteProfile (profileId profile) s
     = (Threw (JsError None ("Cannot delete built-in profile: " ++ profileId profile)), s).
Proof.
  intros Hbuiltin. split.
  - unfold saveProfile, bind.
    destruct (loadProfiles_run s) as (o & Hload & _). rewrite Hload, Hbuiltin.
    unfold throw. cbn. repeat split; reflexivity.
  - unfold deleteProfile. rewrite Hbuiltin. reflexivity.
Qed.

(** X23. What [saveProfile] and [deleteProfile] hand to [writeFile] is
    the profiles file with the custom profiles only: no key of it is a
    built-in id; after [saveProfile] it holds the saved profile under its
    id, after [deleteProfile] it has no entry for the deleted id. *)
Theorem profiles_file_holds_custom_only (profile : CleaningProfile) (k : string)
  (s : State) :
  (exists calls m,
      journal (snd (saveProfile profile s)) = (journal s ++ calls)%list
      /\ writes_only m calls
      /\ (forall b, is_builtin b = true -> m !! b = None)
      /\ (is_builtin (profileId profile) = false ->
          m !! profileId profile = Some profile))
  /\ (exists calls m,
      journal (snd (deleteProfile k s)) = (journal s ++ calls)%list
      /\ writes_only m calls
      /\ (forall b, is_builtin b = true -> m !! b = None)
      /\ m !! k = None).
Proof.
  assert (Hnone : forall o b, is_builtin b = true -> customProfiles o !! b = None).
  { intros o b Hb. apply eq_None_not_Some. intros [p Hp].
    apply customProfiles_spec in Hp as [_ Hp]. congruence. }
  split.
  - unfold saveProfile, bind at 1.
    destruct (loadProfiles_run s) as (o & -> & _).
    destruct (is_builtin (profileId profile)) eqn:Hb.
    + exists [], (customProfiles o). cbn. rewrite app_nil_r.
      split; [reflexivity |]. split; [constructor |]. split; [apply Hnone |].
      discriminate.
    + unfold bind at 1, set_cachedProfiles at 1. cbn [drive cachedConfig journal].
      match goal with
      | |- context [persist ?o' ?s'] =>
          destruct (persist_run o' s') as (calls & Hj & Hw & _ & _)
      end.
      exists calls, (customProfiles (set o (profileId profile) profile)).
      cbn [journal] in Hj.
      split; [exact Hj |]. split; [exact Hw |]. split; [apply Hnone |].
      intros _. apply customProfiles_spec. split; [| exact Hb].
      cbn. apply lookup_insert_eq.
  - unfold deleteProfile. destruct (is_builtin k) eqn:Hb.
    + exists [], (customProfiles builtins). cbn. rewrite app_nil_r.
      split; [reflexivity |]. split; [constructor |]. split; [apply Hnone |].
      by apply Hnone.
    + unfold bind at 1. destruct (loadProfiles_run s) as (o & -> & _).
      destruct (has o k) eqn:Hhas; cbn [negb].
      * unfold bind at 1, set_cachedProfiles at 1. cbn [drive cachedConfig journal].
        match goal with
        | |- context [persist ?o' ?s'] =>
            destruct (persist_run o' s') as (calls & Hj & Hw & _ & _)
        end.
        exists calls, (customProfiles (remove o k)).
        cbn [journal] in Hj.
        split; [exact Hj |]. split; [exact Hw |]. split; [apply Hnone |].
        apply eq_None_not_Some. intros [p Hp].
        apply customProfiles_spec in Hp as [Hp _]. cbn in Hp.
        by rewrite lookup_delete_eq in Hp.
      * exists [], (customProfiles (remove o k)). cbn. rewrite app_nil_r.
        split; [reflexivity |]. split; [constructor |]. split; [apply Hnone |].
        apply eq_None_not_Some. intros [p Hp].
        apply customProfiles_spec in Hp as [Hp _]. cbn in Hp.
        by rewrite lookup_delete_eq in Hp.
Qed.

Lemma deleteProfile_custom (k : string) (s : State) (o : Obj) :
  is_builtin k = false ->
  loadProfiles s = (Ok o, mkState (drive s) (cachedConfig s) (Some o) (journal s)) ->
  deleteProfile k s
  = if has o k
    then persist (remove o k)
           (mkState (drive s) (cachedConfig s) (Some (remove o k)) (journal s))
    else (Threw (JsError None ("Profile not found: " ++ k)),
          mkState (drive s) (cachedConfig s) (Some o) (journal s)).
Proof.
  intros Hcustom Hload. unfold deleteProfile. rewrite Hcustom.
  unfold bind at 1. rewrite Hload. destruct (has o k); reflexivity.
Qed.

(** X24. After [deleteProfile(id)] with an id that is not built in,
    [getProfile(id)] answers no profile, whether the call returned or
    threw; when the loaded profiles have no such id the call throws
    [Profile not found] and writes nothing. *)
Theorem deleteProfile_forgets (k : string) (s : State) :
  is_builtin k = false ->
  (forall p, getProfile k (snd (deleteProfile k s)) <> Found p)
  /\ (forall o, fst (loadProfiles s) = Ok o -> has o k = false ->
        fst (deleteProfile k s) = Threw (JsError None ("Profile not found: " ++ k))
        /\ drive (snd (deleteProfile k s)) = drive s
        /\ journal (snd (deleteProfile k s)) = journal s).
Proof.
  intros Hcustom.
  destruct (loadProfiles_run s) as (o & Hload & _).
  rewrite (deleteProfile_custom k s o Hcustom Hload), Hload.
  pose proof (is_builtin_false k Hcustom) as (_ & _ & Hne).
  split.
  - intros p. destruct (has o k) eqn:Hhas.
    + match goal with
      | |- context [persist ?o' ?s'] =>
          destruct (persist_run o' s') as (calls & _ & _ & _ & Hcache)
      end.
      specialize (Hcache eq_refl). unfold getProfile. rewrite Hcache.
      destruct (has (remove o k) k); [by apply get_remove |].
      by rewrite get_builtins_custom.
    + unfold getProfile. cbn [snd cachedProfiles]. rewrite Hhas.
      by rewrite get_builtins_custom.
  - intros o' [= <-] Hhas. rewrite Hhas. cbn. auto.
Qed.

(** X25. A profile of the profiles file wins over a built-in profile of
    the same id: once the file is loaded, [getProfile] answers the
    profile of the file for every key of the file (except [__proto__]). *)
Theorem custom_profile_shadows_builtin
  (custom : gmap string CleaningProfile) (k : string) (p : CleaningProfile) (s : State) :
  cachedProfiles s = None ->
  fs_access PROFILES_FILE (drive s) = true ->
  read_profiles PROFILES_FILE (drive s) = Some custom ->
  custom !! k = Some p ->
  k <> "__proto__" ->
  getProfile k (snd (loadProfiles s)) = Found p.
Proof.
  intros Hcache Haccess Hread Hk Hne.
  destruct (loadProfiles_run s) as (o & -> & Ho).
  specialize (Ho Hcache Haccess custom Hread). subst o.
  unfold getProfile. cbn [snd cachedProfiles].
  assert (Hown : own (assign builtins custom) !! k = Some p).
  { cbn. apply lookup_union_Some_l. by rewrite lookup_delete_ne. }
  unfold has, get. rewrite Hown.
  assert (bool_decide (is_Some (Some p)) = true) as -> by (by apply bool_decide_eq_true).
  reflexivity.
Qed.

Lemma first_readable_none (d : Disk) :
  configExists d = false -> first_readable CONFIG_PATHS d = None.
Proof.
  unfold configExists, CONFIG_PATHS. cbn [existsb first_readable].
  intros Hnone. apply orb_false_iff in Hnone as [Hfirst Hnone].
  apply orb_false_iff in Hnone as [Hsecond _].
  by rewrite Hfirst, Hsecond.
Qed.

(** X26. With nothing cached and no configuration file that can be
    accessed, [loadConfig()] answers the default configuration and
    caches it: the next [loadConfig()] answers the defaults again
    whatever the disk has become, so that a file created in between is
    not read before the cache is cleared. *)
Theorem loadConfig_without_file (s : State) :
  cachedConfig s = None ->
  configExists (drive s) = false ->
  loadConfig None s
  = (Ok DEFAULT_CONFIG,
     mkState (drive s) (Some DEFAULT_CONFIG) (cachedProfiles s) (journal s))
  /\ (forall d,
        loadConfig None (mkState d (Some DEFAULT_CONFIG) (cachedProfiles s) (journal s))
        = (Ok DEFAULT_CONFIG,
           mkState d (Some DEFAULT_CONFIG) (cachedProfiles s) (journal s))).
Proof.
  intros Hcache Hnone. unfold loadConfig. rewrite Hcache. cbn [given].
  rewrite (first_readable_none _ Hnone). split; reflexivity.
Qed.

(** X27. [loadConfig()] after a [saveConfig(config)] that returned
    answers [config] itself, as it was saved and not merged with the
    defaults; a [saveConfig] that throws leaves the cached configuration
    as it was. *)
Theorem saveConfig_then_loadConfig
  (config : Config) (configPath : option string) (s : State) :
  match saveConfig config configPath s with
  | (Ok _, s') => loadConfig None s' = (Ok config, s')
  | (Threw _, s') => cachedConfig s' = cachedConfig s
  end.
Proof.
  unfold saveConfig, bind, mkdir, writeFile, set_cachedConfig.
  destruct (fs_mkdir _ (drive s)) as [[e |] d1]; cbn; [reflexivity |].
  destruct (fs_writeFile _ _ d1) as [[e |] d2]; cbn; reflexivity.
Qed.

End WithEnv.

Lemma saveProfile_then_getProfile_witness :
  @getProfile memory_disk "weekly"
    (snd (@saveProfile literal_paths demo_machine memory_disk weekly
            (@mkState memory_disk (None, None) None None [])))
  = Found weekly.
Proof.
  apply (@saveProfile_then_getProfile literal_paths demo_machine memory_disk weekly
           (@mkState memory_disk (None, None) None None [])).
  vm_compute. reflexivity.
Defined.

Lemma builtin_profiles_protected_witness :
  (fst (@saveProfile literal_paths demo_machine memory_disk quick
          (@mkState memory_disk (None, None) None None []))
   = Threw (JsError None ("Cannot overwrite built-in profile: " ++ "quick"))
   /\ @drive memory_disk
        (snd (@saveProfile literal_paths demo_machine memory_disk quick
                (@mkState memory_disk (None, None) None None [])))
      = (None, None)
   /\ @journal memory_disk
        (snd (@saveProfile literal_paths demo_machine memory_disk quick
                (@mkState memory_disk (None, None) None None [])))
      = [])
  /\ @deleteProfile literal_paths demo_machine memory_disk "quick"
       (@mkState memory_disk (None, None) None None [])
     = (Threw (JsError None ("Cannot delete built-in profile: " ++ "quick")),
        @mkState memory_disk (None, None) None None []).
Proof.
  apply (@builtin_profiles_protected literal_paths demo_machine memory_disk quick
           (@mkState memory_disk (None, None) None None [])).
  vm_compute. reflexivity.
Defined.

Lemma deleteProfile_forgets_witness :
  (forall p,
      @getProfile memory_disk "weekly"
        (snd (@deleteProfile literal_paths demo_machine memory_disk "weekly"
                (@mkState memory_disk (None, Some {["weekly" := weekly]}) None None [])))
      <> Found p)
  /\ (forall o,
        fst (@loadProfiles literal_paths demo_machine memory_disk
               (@mkState memory_disk (None, Some {["weekly" := weekly]}) None None []))
        = Ok o ->
        has o "weekly" = false ->
        fst (@deleteProfile literal_paths demo_machine memory_disk "weekly"
               (@mkState memory_disk (None, Some {["weekly" := weekly]}) None None []))
        = Threw (JsError None ("Profile not found: " ++ "weekly"))
        /\ @drive memory_disk
             (snd (@deleteProfile literal_paths demo_machine memory_disk "weekly"
                     (@mkState memory_disk (None, Some {["weekly" := weekly]}) None None [])))
           = (None, Some {["weekly" := weekly]})
        /\ @journal memory_disk
             (snd (@deleteProfile literal_paths demo_machine memory_disk "weekly"
                     (@mkState memory_disk (None, Some {["weekly" := weekly]}) None None [])))
           = []).
Proof.
  apply (@deleteProfile_forgets literal_paths demo_machine memory_disk "weekly"
           (@mkState memory_disk (None, Some {["weekly" := weekly]}) None None [])).
  vm_compute. reflexivity.
Defined.

Lemma custom_profile_shadows_builtin_witness :
  @getProfile memory_disk "quick"
    (snd (@loadProfiles literal_paths demo_machine memory_disk
            (@mkState memory_disk
               (None, Some {["quick" := mkProfile "quick" "Mine" "" ["docker"] None]})
               None None [])))
  = Found (mkProfile "quick" "Mine" "" ["docker"] None).
Proof.
  apply (@custom_profile_shadows_builtin literal_paths demo_machine memory_disk
           {["quick" := mkProfile "quick" "Mine" "" ["docker"] None]} "quick"
           (mkProfile "quick" "Mine" "" ["docker"] None)
           (@mkState memory_disk
              (None, Some {["quick" := mkProfile "quick" "Mine" "" ["docker"] None]})
              None None [])).
  - reflexivity.
  - vm_compute. reflexivity.
  - reflexivity.
  - vm_compute. reflexivity.
  - discriminate.
Defined.

Lemma loadConfig_without_file_witness :
  @loadConfig literal_paths demo_machine memory_disk None
    (@mkState memory_disk (None, None) None None [])
  = (Ok DEFAULT_CONFIG, @mkState memory_disk (None, None) (Some DEFAULT_CONFIG) None [])
  /\ (forall d,
        @loadConfig literal_paths demo_machine memory_disk None
          (@mkState memory_disk d (Some DEFAULT_CONFIG) None [])
        = (Ok DEFAULT_CONFIG, @mkState memory_disk d (Some DEFAULT_CONFIG) None [])).
Proof.
  apply (@loadConfig_without_file literal_paths demo_machine memory_disk
           (@mkState memory_disk (None, None) None None [])).
  - reflexivity.
  - vm_compute. reflexivity.
Defined.

(** A configuration file is read once: the file sets [concurrency] and
    [excludeCategories], the other keys keep their defaults. *)
Example loadConfig_reads_file :
  fst (@loadConfig literal_paths demo_machine memory_disk None
         (@mkState memory_disk
            (Some (mkConfig None (Some ["docker"]) None None None (Some 8%Q) None), None)
            None None []))
  = Ok (mkConfig None (Some ["docker"]) (Some 30%Q) (Some (500 * 1024 * 1024)%Q)
          (Some true) (Some 8%Q) None).
Proof. reflexivity. Qed.

(** A profile saved, looked up, deleted and looked up again. *)
Example profiles_round_trip :
  let s0 := @mkState memory_disk (None, None) None None [] in
  let s1 := snd (@saveProfile literal_paths demo_machine memory_disk weekly s0) in
  let s2 := snd (@deleteProfile literal_paths demo_machine memory_disk "weekly" s1) in
  @getProfile memory_disk "weekly" s1 = Found weekly
  /\ snd (@drive memory_disk s1) = Some {["weekly" := weekly]}
  /\ @getProfile memory_disk "weekly" s2 = Undefined
  /\ snd (@drive memory_disk s2) = Some ∅
  /\ @getProfile memory_disk "full" s2 = Found full
  /\ @getProfile memory_disk "toString" s2 = Other.
Proof. vm_compute. repeat split; reflexivity. Qed.

End SettingsSpec.

Module CleanCommandSpec.
Import Settings CleanCommand.

Section WithPath.
Context `{NodePath}.

Lemma map_expandPath_spec (paths : list string) :
  match map_expandPath paths with
  | Ok expanded =>
      length expanded = length paths
      /\ Forall (fun p => Paths.isSystemPath p = false) expanded
  | Threw e => exists p, In p paths /\ e = Paths.unsafe_path_error p
  end.
Proof.
  induction paths as [| p rest IH]; cbn [map_expandPath].
  - split; [reflexivity | constructor].
  - destruct (PathsSpec.expandPath_cases p) as [[_ ->] | [Hsafe ->]].
    + exists p. split; [by left | reflexivity].
    + destruct (map_expandPath rest) as [others | e].
      * destruct IH as [Hlen Hall]. cbn [length]. split; [by rewrite Hlen |].
        constructor; assumption.
      * destruct IH as (q & Hq & ->). exists q. split; [by right | reflexivity].
Qed.

(** X28. [optionsForScanner] never hands a protected system path to a
    scanner: it answers search paths for [node-modules] only, one per
    configured path and none of them a system path, and it throws only
    for [node-modules], with the error of [expandPath] for one of the
    configured paths.  The other options come from the configuration
    unchanged. *)
Theorem optionsForScanner_safe (config : Config) (categoryId : string) :
  match optionsForScanner config categoryId with
  | Ok (Some (SearchPaths expanded)) =>
      categoryId = "node-modules"
      /\ (exists paths, nodeModules_of config = Some paths
                        /\ length expanded = length paths)
      /\ Forall (fun p => Paths.isSystemPath p = false) expanded
  | Ok (Some (DaysOld days)) =>
      categoryId = "downloads" /\ downloadsDaysOld config = Some days
  | Ok (Some (MinSize bytes)) =>
      categoryId = "large-files" /\ largeFilesMinSize config = Some bytes
  | Ok None => True
  | Threw e =>
      categoryId = "node-modules"
      /\ exists paths p, nodeModules_of config = Some paths /\ In p paths
                         /\ e = Paths.unsafe_path_error p
  end.
Proof.
  unfold optionsForScanner.
  destruct (String.eqb categoryId "downloads") eqn:E1,
           (downloadsDaysOld config) as [days |] eqn:D1,
           (String.eqb categoryId "large-files") eqn:E2,
           (largeFilesMinSize config) as [bytes |] eqn:D2,
           (String.eqb categoryId "node-modules") eqn:E3,
           (nodeModules_of config) as [[| p rest] |] eqn:D3;
    try exact I;
    try (split; [by apply String.eqb_eq | reflexivity]);
    pose proof (map_expandPath_spec (p :: rest)) as Hmap;
    (destruct (map_expandPath (p :: rest)) as [expanded | e];
     [ destruct Hmap as [Hlen Hall]; split; [by apply String.eqb_eq |];
       split; [exists (p :: rest); split; [reflexivity | exact Hlen] | exact Hall]
     | destruct Hmap as (q & Hq & ->); split; [by apply String.eqb_eq |];
       exists (p :: rest), q; auto ]).
Qed.

End WithPath.

(** X29. What [cleanCommand] offers for cleaning never holds a result
    without items, a category that the configuration excludes or, unless
    [includeRisky] is set, a risky category; the results offered keep the
    order of the scan. *)
Theorem offered_is_safe (config : Config) (includeRisky : option bool)
  (results : list ScanResult) :
  Forall (fun r =>
            items r <> []
            /\ (id (category r) ∉ excluded config)
            /\ (default false includeRisky = false ->
                safetyLevel (category r) <> risky))
    (offered config includeRisky results)
  /\ sublist (offered config includeRisky results) results.
Proof.
  set (withItems := List.filter (fun r => (0 <? length (items r))%nat) results).
  set (kept := List.filter
                 (fun r => negb (bool_decide (id (category r) ∈ excluded config)))
                 withItems).
  assert (Hkept : forall r, In r kept ->
                    items r <> [] /\ (id (category r) ∉ excluded config)).
  { intros r [Hin Hex]%filter_In. apply filter_In in Hin as [_ Hitems].
    apply negb_true_iff, bool_decide_eq_false in Hex. split; [| exact Hex].
    intros E. rewrite E in Hitems. discriminate. }
  assert (Hsub : forall (f : ScanResult -> bool) l, sublist (List.filter f l) l).
  { intros f l. induction l as [| x l IH]; cbn; [constructor |].
    destruct (f x); [by apply sublist_skip | by apply sublist_cons]. }
  assert (Hsubk : sublist kept results).
  { etransitivity; [apply Hsub |]. apply Hsub. }
  unfold offered. fold withItems. fold kept.
  destruct (negb (default false includeRisky)) eqn:Hflag; cbn [andb].
  - destruct (0 <? length (List.filter is_risky kept))%nat eqn:Hrisky.
    + split.
      * apply Forall_forall. intros r Hr.
        apply list_elem_of_In, filter_In in Hr as [Hin Hsafe].
        destruct (Hkept r Hin) as [Hitems Hex]. repeat split; auto.
        intros _ Hlevel. unfold is_risky in Hsafe. rewrite Hlevel in Hsafe. discriminate.
      * etransitivity; [apply Hsub | exact Hsubk].
    + split; [| exact Hsubk].
      apply Forall_forall. intros r Hr. apply list_elem_of_In in Hr.
      destruct (Hkept r Hr) as [Hitems Hex]. repeat split; auto.
      intros _ Hlevel.
      assert (Hin : In r (List.filter is_risky kept)).
      { apply filter_In. split; [exact Hr |]. unfold is_risky. by rewrite Hlevel. }
      destruct (List.filter is_risky kept); [destruct Hin | discriminate].
  - split; [| exact Hsubk].
    apply Forall_forall. intros r Hr. apply list_elem_of_In in Hr.
    destruct (Hkept r Hr) as [Hitems Hex]. repeat split; auto.
    intros Hoff. rewrite Hoff in Hflag. discriminate.
Qed.

Example optionsForScanner_cases :
  @optionsForScanner literal_paths
    (mkConfig None None (Some 30%Q) None None None
       (Some (mkExtraPaths (Some ["~\Projects"; "D:\Code"]) None)))
    "node-modules"
  = Ok (Some (SearchPaths ["C:\Users\me\Projects"; "D:\Code"]))
  /\ @optionsForScanner literal_paths
       (mkConfig None None (Some 30%Q) None None None
          (Some (mkExtraPaths (Some ["D:\Code"; "C:\Program Files\nodejs"]) None)))
       "node-modules"
     = Threw (@Paths.unsafe_path_error "C:\Program Files\nodejs")
  /\ @optionsForScanner literal_paths DEFAULT_CONFIG "downloads"
     = Ok (Some (DaysOld 30%Q))
  /\ @optionsForScanner literal_paths DEFAULT_CONFIG "temp-files" = Ok None.
Proof. repeat split; reflexivity. Qed.

End CleanCommandSpec.
